(** * Numerical core of the "entropy dominance" figures

    A shallow embedding of the routines behind the figures of the paper:
    the shared linear congruential generator ([utils.js]), the lazy canvas
    hook ([utils.js]), the KMR birth-death chain (figure 1), the separatrix
    bisection (figure 2), the multi-platform replicator update (figure 6)
    and the two entropy estimators (figure 7).

    Conventions of the embedding.
    - The 32-bit integer state of the generator is a [Z] with the
      wrap-around of [Math.imul], [| 0] and [>>> 0] written out.
    - The exact reading.  Every other JavaScript number is read as a real
      number: [+], [-], [*], [/] are the exact operations of [R],
      [Math.log] is [ln], [Math.pow] is [Math_pow] below, comparisons are
      the decidable order of [R].  Rounding, infinities and NaN are
      outside this reading; the statements carry the hypotheses that keep
      every argument inside the domain where the reading is meaningful.
    - The binary64 reading (module [Binary64]).  The bisection and the
      deterministic replicator update are also given on the numbers the
      program really computes with: [+], [-], [*], [/] and the comparisons
      are the IEEE 754 binary64 operations.  [Math.pow] is fixed by the
      language for an exponent that is NaN or zero and left to the
      implementation otherwise; that part is a parameter.
    - Module-level mutable state ([_seed], the document) is threaded
      explicitly.
    - A loop whose number of iterations depends on the data ([while],
      [for (let t = 0; t < T; t += dt)]) takes a fuel argument and gives
      [None] when the fuel runs out before the loop ends. *)

From Stdlib Require Import Floats.
From Stdlib Require Import ZArith List Reals Lia Lra Bool String.
Import ListNotations.

Set Warnings "-inexact-float".

Local Open Scope Z_scope.

(** * Part I: the model *)

(** ** 32-bit integer conversions of the language *)

Module Int32.

(** [x | 0] : ToInt32, the signed representative modulo [2^32]. *)
Definition to_int32 (z : Z) : Z := (z + 2147483648) mod 4294967296 - 2147483648.

(** [x >>> 0] : ToUint32, the unsigned representative modulo [2^32]. *)
Definition to_uint32 (z : Z) : Z := z mod 4294967296.

(** [Math.imul(a, b)] : the product of the two operands taken as 32-bit
    words, truncated to 32 bits and read back as a signed integer. *)
Definition imul (a b : Z) : Z := to_int32 (to_uint32 a * to_uint32 b).

(** [a | b] : bitwise or of the two operands taken as signed 32-bit
    integers (two's complement, as [Z.lor] reads negative numbers). *)
Definition bit_or (a b : Z) : Z := Z.lor (to_int32 a) (to_int32 b).

(** [a >>> n] : the operand taken as an unsigned 32-bit integer, shifted
    right by [n] modulo 32. *)
Definition unsigned_shift_right (a n : Z) : Z := Z.shiftr (to_uint32 a) (n mod 32).

Definition is_int32 (z : Z) : Prop := -2147483648 <= z < 2147483648.

End Int32.

(** ** Numbers read as reals *)

Module Num.
Local Open Scope R_scope.

(** [a < b], [a > b], [a >= b] as the booleans the program branches on. *)
Definition ltb (a b : R) : bool := if Rlt_dec a b then true else false.
Definition gtb (a b : R) : bool := if Rlt_dec b a then true else false.
Definition geb (a b : R) : bool := if Rle_dec b a then true else false.

(** [Math.floor] : the integer part (largest integer below or equal). *)
Definition Math_floor (x : R) : Z := Int_part x.

(** [Math.max] on two numbers. *)
Definition Math_max (a b : R) : R := Rmax a b.

(** [Math.log] *)
Definition Math_log (x : R) : R := ln x.

Definition is_integer (y : R) : bool :=
  if Req_dec_T y (IZR (Int_part y)) then true else false.

(** [Math.pow(x, y)].  A positive base gives [exp (y * ln x)]; an integer
    exponent gives the iterated product (or its inverse) for every base;
    base [0] with a positive exponent gives [0].  The remaining arguments
    (a negative base with a fractional exponent, base [0] with a negative
    exponent) have no real value in the language (NaN, Infinity); they are
    sent to [0] here and no statement below reaches them. *)
Definition Math_pow (x y : R) : R :=
  if Rlt_dec 0 x then Rpower x y
  else if is_integer y then powerRZ x (Int_part y)
  else 0.

(** [for (let i = 0; i < n; i++) body] on a loop state, when the body
    does not read [i]. *)
Fixpoint for_loop {A : Type} (n : nat) (body : A -> A) (a : A) : A :=
  match n with
  | O => a
  | S n' => for_loop n' body (body a)
  end.

(** [xs.map((x, i) => f(x, i))], counting from [i]. *)
Fixpoint mapi_from {A B : Type} (i : nat) (f : A -> nat -> B) (xs : list A) : list B :=
  match xs with
  | [] => []
  | x :: xs' => f x i :: mapi_from (S i) f xs'
  end.

Definition mapi {A B : Type} (f : A -> nat -> B) (xs : list A) : list B :=
  mapi_from 0 f xs.

(** [xs.reduce((s, x, i) => f(s, x, i), s0)], counting from [i]. *)
Fixpoint reducei_from {A Acc : Type} (i : nat) (f : Acc -> A -> nat -> Acc) (xs : list A) (s : Acc) : Acc :=
  match xs with
  | [] => s
  | x :: xs' => reducei_from (S i) f xs' (f s x i)
  end.

Definition reducei {A Acc : Type} (f : Acc -> A -> nat -> Acc) (xs : list A) (s0 : Acc) : Acc :=
  reducei_from 0 f xs s0.

(** [xs.reduce((s, v) => s + v, 0)] *)
Definition sum (xs : list R) : R := fold_left Rplus xs 0.

End Num.

(** ** The shared generator ([utils.js]) *)

Module Prng.
Import Int32.

(** [let _seed = 98765;] *)
Definition initial_seed : Z := 98765.

(** The assignment [_seed = (Math.imul(_seed, 1664525) + 1013904223) | 0].
    The sum is taken on two integers below [2^32] in absolute value, so
    it is exact before [| 0] wraps it. *)
Definition next_seed (_seed : Z) : Z :=
  bit_or (imul _seed 1664525 + 1013904223) 0.

(** [rand()] : the returned value [(_seed >>> 0) / 4294967296] and the
    updated [_seed].  The quotient of an integer below [2^32] by [2^32] is
    exact. *)
Definition rand (_seed : Z) : R * Z :=
  let s := next_seed _seed in
  ((IZR (unsigned_shift_right s 0) / 4294967296)%R, s).

(** [resetSeed()] *)
Definition resetSeed (_seed : Z) : Z := 98765.

(** [randn()] : Box-Muller; two draws, the first one for [u]. *)
Definition randn (_seed : Z) : R * Z :=
  let '(r1, s1) := rand _seed in
  let u := (1 - r1)%R in
  let '(v, s2) := rand s1 in
  ((sqrt (-2 * Num.Math_log u) * cos (2 * PI * v))%R, s2).

End Prng.

(** ** Lazy canvas rendering ([utils.js]) *)

Module Dom.

(** A canvas element is a node handle. *)
Definition element : Type := nat.

(** What a call leaves behind: a new state, or a raised exception. *)
Inductive outcome (A : Type) : Type :=
| Returned (a : A)
| Thrown (msg : string).
Arguments Returned {A} a.
Arguments Thrown {A} msg.

Section Page.

(** The state the draw functions read and write (canvas pixels, [_seed]). *)
Variable St : Type.

(** A draw function: called on the canvas, it changes the state or throws. *)
Definition drawFn_t : Type := element -> St -> outcome St.

(** The page as [lazyDraw] sees it. *)
Record page : Type := {
  document : list (string * element);      (* elements carrying an id, in document order *)
  has_IntersectionObserver : bool;         (* "IntersectionObserver" in window *)
  observers : list (element * drawFn_t);   (* live observers with their target *)
  drawn : list element;                    (* calls of a draw function so far *)
  state : St
}.

(** [document.getElementById(id)] : the first element with that id, or [null]. *)
Fixpoint getElementById (doc : list (string * element)) (id : string) : option element :=
  match doc with
  | [] => None
  | (i, e) :: doc' => if String.eqb i id then Some e else getElementById doc' id
  end.

(** The call [drawFn(cv)]. *)
Definition call_draw (drawFn : drawFn_t) (cv : element) (w : page) : outcome page :=
  match drawFn cv (state w) with
  | Returned s' =>
      Returned {| document := document w;
                  has_IntersectionObserver := has_IntersectionObserver w;
                  observers := observers w;
                  drawn := drawn w ++ [cv];
                  state := s' |}
  | Thrown msg => Thrown msg
  end.

(** [new IntersectionObserver(callback, options).observe(cv)] *)
Definition observe (drawFn : drawFn_t) (cv : element) (w : page) : page :=
  {| document := document w;
     has_IntersectionObserver := has_IntersectionObserver w;
     observers := observers w ++ [(cv, drawFn)];
     drawn := drawn w;
     state := state w |}.

(** [lazyDraw(canvasId, drawFn)] *)
Definition lazyDraw (canvasId : string) (drawFn : drawFn_t) (w : page) : outcome page :=
  match getElementById (document w) canvasId with
  | None => Returned w                                   (* if (!cv) return; *)
  | Some cv =>
      if negb (has_IntersectionObserver w)
      then call_draw drawFn cv w                         (* drawFn(cv); return; *)
      else Returned (observe drawFn cv w)
  end.

(** The observer's callback, run by the browser on the [i]-th live
    observer with [entries[0].isIntersecting]: [obs.disconnect()] then
    [drawFn(cv)]. *)
Definition remove_nth {A : Type} (i : nat) (l : list A) : list A :=
  firstn i l ++ skipn (S i) l.

Definition intersection_callback (i : nat) (isIntersecting : bool) (w : page) : outcome page :=
  match nth_error (observers w) i with
  | None => Returned w
  | Some (cv, drawFn) =>
      if isIntersecting
      then call_draw drawFn cv
             {| document := document w;
                has_IntersectionObserver := has_IntersectionObserver w;
                observers := remove_nth i (observers w);
                drawn := drawn w;
                state := state w |}
      else Returned w
  end.

End Page.

Arguments document {St} _.
Arguments has_IntersectionObserver {St} _.
Arguments observers {St} _.
Arguments drawn {St} _.
Arguments state {St} _.
Arguments lazyDraw {St} _ _ _.
Arguments call_draw {St} _ _ _.
Arguments observe {St} _ _ _.
Arguments intersection_callback {St} _ _ _.

End Dom.

(** ** Figure 1: the KMR chain *)

Module Kmr.
Import Num Prng.

(** [const N = 50;  const H1 = 2.0, H2 = 1.2, nu = 1.0, gamma = 1.5;] *)
Definition N : Z := 50.
Definition H1 : R := 2.0.
Definition H2 : R := 1.2.
Definition nu : R := 1.0.
Definition gamma : R := 1.5.

(** [uVal(k, isP1)] *)
Definition uVal (k : Z) (isP1 : bool) : R :=
  let xi := (IZR k / IZR N)%R in
  if isP1 then (H1 + nu * Math_pow xi gamma)%R
  else (H2 + nu * Math_pow (1 - xi) gamma)%R.

(** The part of one iteration of [runKMR] that moves [k]: the mutation
    branch draws three numbers, the best-response branch two.  Returns
    the new [k] and the new [_seed]. *)
Definition move (eps : R) (k : Z) (_seed : Z) : Z * Z :=
  let u1 := uVal k true in
  let u2 := uVal k false in
  let '(r0, s0) := rand _seed in
  if ltb r0 eps then
    let '(r1, s1) := rand s0 in
    let coinP1 := ltb r1 0.5 in
    let '(r2, s2) := rand s1 in
    let agentOnP1 := ltb r2 (IZR k / IZR N) in
    if agentOnP1 && negb coinP1 && (0 <? k) then (k - 1, s2)
    else if negb agentOnP1 && coinP1 && (k <? N) then (k + 1, s2)
    else (k, s2)
  else
    let '(r1, s1) := rand s0 in
    let agentOnP1 := ltb r1 (IZR k / IZR N) in
    if agentOnP1 then
      (if gtb u2 u1 && (0 <? k) then (k - 1, s1) else (k, s1))
    else
      (if gtb u1 u2 && (k <? N) then (k + 1, s1) else (k, s1)).

(** [hist[k]++] on an array of integer counts.  Inside the array the
    entry grows by one.  Outside it the language stores NaN under a new
    key, which is no array of counts any more: [None]. *)
Definition hist_incr (hist : list Z) (k : Z) : option (list Z) :=
  if (0 <=? k) && (k <? Z.of_nat (List.length hist))
  then Some (firstn (Z.to_nat k) hist
               ++ (nth (Z.to_nat k) hist 0 + 1) :: skipn (S (Z.to_nat k)) hist)
  else None.

(** The variables of the loop of [runKMR]. *)
Record chain : Type := {
  k : Z;
  hist : list Z;
  seed : Z
}.

(** One iteration at loop counter [t]. *)
Definition step (eps : R) (burnin : Z) (t : Z) (c : chain) : option chain :=
  let '(k', s') := move eps (k c) (seed c) in
  if burnin <=? t then
    match hist_incr (hist c) k' with
    | Some h => Some {| k := k'; hist := h; seed := s' |}
    | None => None
    end
  else Some {| k := k'; hist := hist c; seed := s' |}.

(** [n] iterations of [for (let t = ...; t < T; t++)] from counter [t]. *)
Fixpoint loop (eps : R) (burnin : Z) (n : nat) (t : Z) (c : chain) : option chain :=
  match n with
  | O => Some c
  | S n' =>
      match step eps burnin t c with
      | Some c' => loop eps burnin n' (t + 1) c'
      | None => None
      end
  end.

(** The loop variables when the loop of [runKMR(eps, T)] is entered. *)
Definition start (_seed : Z) : chain :=
  {| k := Math_floor (IZR N / 2);
     hist := repeat 0 (Z.to_nat (N + 1));
     seed := resetSeed _seed |}.

Definition burnin_of (T : Z) : Z := Math_floor (IZR T * 0.25).

(** The loop variables of [runKMR(eps, T)] after its first [n] iterations. *)
Definition after (eps : R) (T : Z) (_seed : Z) (n : nat) : option chain :=
  loop eps (burnin_of T) n 0 (start _seed).

(** [runKMR(eps, T)] for an integer number of steps [T] (as at its call
    site, [T = 300000]): the histogram and the [_seed] it leaves. *)
Definition runKMR (eps : R) (T : Z) (_seed : Z) : option (list Z * Z) :=
  match after eps T _seed (Z.to_nat T) with
  | Some c => Some (hist c, seed c)
  | None => None
  end.

(** The total of a histogram. *)
Definition hist_total (h : list Z) : Z := fold_right Z.add 0 h.

(** What every iteration of the loop preserves; [t] is the loop counter
    reached, [b] the burn-in. *)
Definition chain_ok (b t : Z) (c : chain) : Prop :=
  0 <= k c <= N
  /\ List.length (hist c) = Z.to_nat (N + 1)
  /\ Forall (fun x => 0 <= x) (hist c)
  /\ hist_total (hist c) = Z.max 0 (t - Z.max 0 b).

End Kmr.

(** ** Figure 2: the separatrix of the two-platform system *)

Module Basin.
Import Num.
Local Open Scope R_scope.

(** [g(x, gamma)] *)
Definition g (x gamma : R) : R := Math_pow (1 - x) gamma - Math_pow x gamma.

(** The body of the bisection loop on the pair [(lo, hi)]. *)
Definition bisect (deltaH nu gamma : R) (b : R * R) : R * R :=
  let '(lo, hi) := b in
  let mid := (lo + hi) / 2 in
  if gtb (nu * g mid gamma) deltaH then (mid, hi) else (lo, mid).

(** [findSep(deltaH, nu, gamma)] *)
Definition findSep (deltaH nu gamma : R) : R :=
  if geb deltaH nu then 0
  else
    let '(lo, hi) := for_loop 60 (bisect deltaH nu gamma) (0.001, 0.499) in
    (lo + hi) / 2.

(** The loop keeps [lo <= hi] inside the starting bracket. *)
Definition in_bracket (b : R * R) : Prop :=
  0.001 <= fst b /\ fst b <= snd b /\ snd b <= 0.499.

(** The loop keeps the sign change of [nu * g - deltaH] across the bracket. *)
Definition straddles (deltaH nu gamma : R) (b : R * R) : Prop :=
  deltaH <= nu * g (fst b) gamma /\ nu * g (snd b) gamma <= deltaH.

End Basin.

(** ** Figure 6: the multi-platform replicator update *)

Module Replicator.
Import Num Prng.
Local Open Scope R_scope.

Section Update.

(** The constants of the chart. *)
Variable Hvals : list R.
Variables nu gamma sigma dt : R.

(** [x.map((xi, i) => Hvals[i] + nu * Math.pow(xi, gamma))].  [Hvals[i]]
    is read inside [Hvals]: the vectors have its length. *)
Definition fitness (x : list R) : list R :=
  mapi (fun xi i => nth i Hvals 0 + nu * Math_pow xi gamma) x.

(** [x.reduce((s, xi, i) => s + xi * u[i], 0)] *)
Definition mean_fitness (x u : list R) : R :=
  reducei (fun s xi i => s + xi * nth i u 0) x 0.

(** [x.map((xi, i) => xi * (u[i] - ubar))] *)
Definition drift (x u : list R) (ubar : R) : list R :=
  mapi (fun xi i => xi * (nth i u 0 - ubar)) x.

(** [x.map(v => v / sum)] after [sum = x.reduce((s, v) => s + v, 0)] *)
Definition normalize (x : list R) : list R :=
  let total := sum x in
  map (fun v => v / total) x.

(** The body of the deterministic loop: [xDet] after one iteration. *)
Definition detStep (xDet : list R) : list R :=
  let u := fitness xDet in
  let ubar := mean_fitness xDet u in
  let dx := drift xDet u ubar in
  let x1 := mapi (fun xi i => Math_max 1e-4 (xi + nth i dx 0 * dt)) xDet in
  normalize x1.

(** [x.map((xi) => sigma * xi * randn() * Math.sqrt(dt))] : one call of
    [randn] per entry, left to right. *)
Fixpoint noise_of (x : list R) (_seed : Z) : list R * Z :=
  match x with
  | [] => ([], _seed)
  | xi :: x' =>
      let '(z, s1) := randn _seed in
      let '(rest, s2) := noise_of x' s1 in
      (sigma * xi * z * sqrt dt :: rest, s2)
  end.

(** The body of the loop of [simulatePath]: [x] and [_seed] after one
    iteration. *)
Definition pathStep (x : list R) (_seed : Z) : list R * Z :=
  let u := fitness x in
  let ubar := mean_fitness x u in
  let dx := drift x u ubar in
  let '(noise, s') := noise_of x _seed in
  let x1 := mapi (fun xi i => Math_max 1e-4 (xi + nth i dx 0 * dt + nth i noise 0)) x in
  (normalize x1, s').

End Update.

(** [const Hvals = [2.0, 1.8, 1.5, 1.2, 0.8];  const nu = 1.2, gamma = 1.5;
    const sigma = 0.12;  const T = 100, dt = 0.1;] *)
Definition Hvals : list R := [2.0; 1.8; 1.5; 1.2; 0.8].
Definition nu : R := 1.2.
Definition gamma : R := 1.5.
Definition sigma : R := 0.12.
Definition dt : R := 0.1.

End Replicator.

(** ** Figure 7: the entropy estimators *)

Module Entropy.
Import Num.
Local Open Scope R_scope.

(** [pluginH(counts, n)] : the loop subtracts one term per nonzero count. *)
Definition pluginH (counts : list Z) (n : Z) : R :=
  fold_left
    (fun H c =>
       if (c =? 0)%Z then H
       else
         let p := IZR c / IZR n in
         H - p * Math_log p)
    counts 0.

(** [chaoShenH(counts, n)] *)
Definition chaoShenH (counts : list Z) (n : Z) : R :=
  fold_left
    (fun H c =>
       if (c =? 0)%Z then H
       else
         let p := IZR c / IZR n in
         let denom := 1 - Math_pow (1 - p) (IZR n) in
         if ltb denom 1e-12 then H
         else H - p * Math_log p / denom)
    counts 0.





(** The total of a count vector. *)
Definition total (counts : list Z) : Z := fold_right Z.add 0%Z counts.

End Entropy.

(** ** The binary64 reading of the bisection and of the replicator update *)

Module Binary64.
Import Num.
Local Open Scope float_scope.

(** [2^e] as a real number. *)
Definition bpow2 (e : Z) : R :=
  if (0 <=? e)%Z then IZR (2 ^ e) else (/ IZR (2 ^ (- e)))%R.

(** The real number a binary64 value stands for; none for the infinities
    and NaN. *)
Definition float_value (f : float) : option R :=
  match Prim2SF f with
  | S754_zero _ => Some 0%R
  | S754_finite s m e => Some (IZR (cond_Zopp s (Zpos m)) * bpow2 e)%R
  | S754_infinity _ => None
  | S754_nan => None
  end.

(** The sum of the values of a vector, without rounding. *)
Definition exact_sum (xs : list float) : option R :=
  fold_left
    (fun acc f =>
       match acc, float_value f with
       | Some a, Some v => Some (a + v)%R
       | _, _ => None
       end)
    xs (Some 0%R).

(** [xs.reduce((s, v) => s + v, 0)], each addition rounded. *)
Definition sum (xs : list float) : float := fold_left PrimFloat.add xs 0.

Section Implementation.

(** What the implementation returns for [Math.pow] when the exponent is
    neither NaN nor zero. *)
Variable pow_rest : float -> float -> float.

(** [Math.pow(x, y)] : NaN for a NaN exponent, [1] for an exponent [+0]
    or [-0], the implementation's value otherwise. *)
Definition Math_pow (x y : float) : float :=
  if is_nan y then nan
  else if (y =? 0) then 1
  else pow_rest x y.

(** [Math.max(a, b)] : NaN if an operand is NaN, the larger operand
    otherwise, [+0] being larger than [-0]. *)
Definition Math_max (a b : float) : float :=
  if (is_nan a || is_nan b)%bool then nan
  else if (a <? b) then b
  else if (b <? a) then a
  else if get_sign a then b else a.

(** [g(x, gamma)] *)
Definition g (x gamma : float) : float :=
  Math_pow (1 - x) gamma - Math_pow x gamma.

(** The body of the bisection loop on the pair [(lo, hi)]. *)
Definition bisect (deltaH nu gamma : float) (b : float * float) : float * float :=
  let '(lo, hi) := b in
  let mid := (lo + hi) / 2 in
  if (deltaH <? nu * g mid gamma) then (mid, hi) else (lo, mid).

(** [findSep(deltaH, nu, gamma)] *)
Definition findSep (deltaH nu gamma : float) : float :=
  if (nu <=? deltaH) then 0
  else
    let '(lo, hi) := for_loop 60 (bisect deltaH nu gamma) (0.001, 0.499) in
    (lo + hi) / 2.

(** The body of the deterministic loop of figure 6: [xDet] after one
    iteration.  An index outside [Hvals] reads [undefined], which
    arithmetic turns into NaN. *)
Definition detStep (Hvals : list float) (nu gamma dt : float) (xDet : list float) : list float :=
  let u := mapi (fun xi i => nth i Hvals nan + nu * Math_pow xi gamma) xDet in
  let ubar := reducei (fun s xi i => s + xi * nth i u nan) xDet 0 in
  let dx := mapi (fun xi i => xi * (nth i u nan - ubar)) xDet in
  let x1 := mapi (fun xi i => Math_max 1e-4 (xi + nth i dx nan * dt)) xDet in
  let total := sum x1 in
  map (fun v => v / total) x1.

End Implementation.

(** [const Hvals = [2.0, 1.8, 1.5, 1.2, 0.8];  const nu = 1.2;  dt = 0.1;] *)
Definition Hvals : list float := [2.0; 1.8; 1.5; 1.2; 0.8].
Definition nu : float := 1.2.
Definition dt : float := 0.1.

(** A positive normal number has a mantissa of exactly 53 bits. *)
Definition is53 (m : positive) : Prop := Zpos (digits2_pos m) = 53%Z.

(** The order of [m1 * 2^e1] and [m2 * 2^e2] for 53-bit mantissas: by
    exponent first, by mantissa next. *)
Definition lexle (m1 : positive) (e1 : Z) (m2 : positive) (e2 : Z) : Prop :=
  (e1 < e2 \/ (e1 = e2 /\ Zpos m1 <= Zpos m2))%Z.

(** [x] and [y] are positive normal numbers and [x <= y]. *)
Definition fle (x y : float) : Prop :=
  exists mx ex my ey,
    Prim2SF x = S754_finite false mx ex /\ is53 mx
    /\ Prim2SF y = S754_finite false my ey /\ is53 my
    /\ lexle mx ex my ey.

(** The state [(lo, hi)] of the loop of [findSep] stays ordered inside
    the initial bracket. *)
Definition bracketed (b : float * float) : Prop :=
  fle 0.001 (fst b) /\ fle (fst b) (snd b) /\ fle (snd b) 0.499.

End Binary64.

(** ** Successive draws of the generator *)

Module Stream.
Import Prng.

(** [n] successive calls of [rand()]: the values returned, in order, and
    the [_seed] left. *)
Fixpoint draws (n : nat) (_seed : Z) : list R * Z :=
  match n with
  | O => ([], _seed)
  | S n' =>
      let '(r, s1) := rand _seed in
      let '(rs, s2) := draws n' s1 in
      (r :: rs, s2)
  end.

(** [1 + a + ... + a^(n-1)] *)
Fixpoint geometric (a : Z) (n : nat) : Z :=
  match n with
  | O => 0
  | S n' => 1 + a * geometric a n'
  end.

End Stream.

(** ** The pixel map ([utils.js]) *)

Module Canvas.
Local Open Scope R_scope.

(** [toCanvasXY(val, min, max, pMin, pMax)] *)
Definition toCanvasXY (val min max pMin pMax : R) : R :=
  pMin + (val - min) / (max - min) * (pMax - pMin).

End Canvas.

(** ** The two-platform integrators (figures 2, 9 and 10) *)

Module Integrator.
Import Num.
Local Open Scope R_scope.

(** [Math.min] on two numbers. *)
Definition Math_min (a b : R) : R := Rmin a b.

(** [Math.round] : the nearest integer, halves rounded up. *)
Definition Math_round (x : R) : Z := Int_part (x + / 2).

(** A parameter with a default value, [f(..., T = 150)]: the default
    replaces a missing argument ([None]) only. *)
Definition default_parameter (a : option R) (d : R) : R :=
  match a with
  | None => d
  | Some v => v
  end.

(** [a || d] on an optional number: the default replaces a missing
    argument and the number [0]. *)
Definition or_default (a : option R) (d : R) : R :=
  match a with
  | None => d
  | Some v => if Req_dec_T v 0 then d else v
  end.

(** The body shared by the integrators, with the clamp [[lo, hi]]:
    [dx = x * (1 - x) * (deltaH + nu * (x^gamma - (1 - x)^gamma))] and
    [x = Math.max(lo, Math.min(hi, x + dx * dt))]. *)
Definition euler (lo hi deltaH nu gamma dt x : R) : R :=
  let dx := x * (1 - x) * (deltaH + nu * (Math_pow x gamma - Math_pow (1 - x) gamma)) in
  Math_max lo (Math_min hi (x + dx * dt)).

(** [for (let t = ...; t < T; t += dt) x = body(x)] from the counter [t];
    [None] when the loop is still running after [fuel] tests. *)
Fixpoint time_loop (fuel : nat) (T dt : R) (body : R -> R) (t x : R) : option R :=
  match fuel with
  | O => None
  | S fuel' =>
      if ltb t T then time_loop fuel' T dt body (t + dt) (body x)
      else Some x
  end.

(** The values pushed by [for (let i = 0; i < n; i++) { x = body(x); xs.push(x) }]. *)
Fixpoint pushes (n : nat) (body : R -> R) (x : R) : list R :=
  match n with
  | O => []
  | S n' => body x :: pushes n' body (body x)
  end.

End Integrator.

Module Figure2.
Import Num Integrator.
Local Open Scope R_scope.

(** [replicatorWinner(x0, deltaH, nu, gamma, T = 150, dt = 0.1)] *)
Definition replicatorWinner (fuel : nat) (x0 deltaH nu gamma : R) (T dt : option R) : option Z :=
  let T := default_parameter T 150 in
  let dt := default_parameter dt 0.1 in
  match time_loop fuel T dt (euler 0.001 0.999 deltaH nu gamma dt) 0 x0 with
  | Some x => Some (if gtb x 0.5 then 1%Z else 2%Z)
  | None => None
  end.

End Figure2.

Module Figure9.
Import Num Integrator.
Local Open Scope R_scope.

(** [replicatorWinner(x0, deltaH, nu, gamma, T, dt)] with
    [T = T || 200; dt = dt || 0.05;] *)
Definition replicatorWinner (fuel : nat) (x0 deltaH nu gamma : R) (T dt : option R) : option Z :=
  let T := or_default T 200 in
  let dt := or_default dt 0.05 in
  match time_loop fuel T dt (euler 0.0001 0.9999 deltaH nu gamma dt) 0 x0 with
  | Some x => Some (if gtb x 0.5 then 1%Z else 2%Z)
  | None => None
  end.

End Figure9.

Module Figure10.
Import Num Integrator.
Local Open Scope R_scope.

(** [simulate(x0, deltaH, nu, gamma, T, dt)] with
    [T = T || 100; dt = dt || 0.1;] and [steps = Math.round(T / dt)] *)
Definition simulate (x0 deltaH nu gamma : R) (T dt : option R) : list R :=
  let T := or_default T 100 in
  let dt := or_default dt 0.1 in
  let steps := Math_round (T / dt) in
  x0 :: pushes (Z.to_nat steps) (euler 0.0001 0.9999 deltaH nu gamma dt) x0.

(** The body of the loop of [findSep] on the pair [(lo, hi)]. *)
Definition bisect (deltaH nu gamma : R) (b : R * R) : R * R :=
  let '(lo, hi) := b in
  let mid := (lo + hi) / 2 in
  let val := nu * (Math_pow (1 - mid) gamma - Math_pow mid gamma) in
  if gtb val deltaH then (mid, hi) else (lo, mid).

(** [findSep(dhRatio, nu, gamma)] *)
Definition findSep (dhRatio nu gamma : R) : R :=
  if geb dhRatio 1.0 then 0
  else
    let deltaH := dhRatio * nu in
    let '(lo, hi) := for_loop 80 (bisect deltaH nu gamma) (0.001, 0.499) in
    (lo + hi) / 2.

End Figure10.

Module Brackets.
Local Open Scope R_scope.
(** Two brackets of the same step of two bisections: the same bracket, or
    the first one entirely to the left of the second. *)
Definition left_of (b1 b2 : R * R) : Prop :=
  b1 = b2 \/ snd b1 <= fst b2.
End Brackets.

Module KmrInvariants.
Import Kmr.
(** The chain has not been below the even split: [k] is at least 25 and
    the bins below 25 are empty. *)
Definition upper_half (c : chain) : Prop :=
  25 <= k c <= N
  /\ List.length (hist c) = Z.to_nat (N + 1)
  /\ forall i, (i < 25)%nat -> nth i (hist c) 0 = 0.
End KmrInvariants.

(** ** Figure 3: the phase portrait on the simplex *)

Module Figure3.
Import Num.
Local Open Scope R_scope.

(** [const margin = 55;  const H = [2.0, 1.5, 1.0];  const nu = 1.0, gamma = 1.5;] *)
Definition margin : R := 55.
Definition H : list R := [2.0; 1.5; 1.0].
Definition nu : R := 1.0.
Definition gamma : R := 1.5.

(** The array [corners] on a canvas of width [W] and height [CH]. *)
Definition corners (W CH : R) : list (R * R) :=
  [(W / 2, margin + 10);
   (W - margin - 10, CH - margin - 20);
   (margin + 10, CH - margin - 20)].

(** [corners[i][0]] and [corners[i][1]] *)
Definition corner_x (W CH : R) (i : nat) : R := fst (nth i (corners W CH) (0, 0)).
Definition corner_y (W CH : R) (i : nat) : R := snd (nth i (corners W CH) (0, 0)).

(** [bary2cart(x1, x2, x3)] *)
Definition bary2cart (W CH : R) (x1 x2 x3 : R) : R * R :=
  (x1 * corner_x W CH 0 + x2 * corner_x W CH 1 + x3 * corner_x W CH 2,
   x1 * corner_y W CH 0 + x2 * corner_y W CH 1 + x3 * corner_y W CH 2).

(** [repl(x1, x2, x3)] *)
Definition repl (x1 x2 x3 : R) : R * R * R :=
  let u0 := nth 0 H 0 + nu * Math_pow x1 gamma in
  let u1 := nth 1 H 0 + nu * Math_pow x2 gamma in
  let u2 := nth 2 H 0 + nu * Math_pow x3 gamma in
  let ubar := x1 * u0 + x2 * u1 + x3 * u2 in
  (x1 * (u0 - ubar), x2 * (u1 - ubar), x3 * (u2 - ubar)).

(** The body of the trajectory loop: one Euler step with [dt = 0.12],
    each share floored at [0.001], then the division by [s2]. *)
Definition step (x : R * R * R) : R * R * R :=
  let '(x1, x2, x3) := x in
  let '(d1, d2, d3) := repl x1 x2 x3 in
  let dt := 0.12 in
  let x1 := Math_max 0.001 (x1 + d1 * dt) in
  let x2 := Math_max 0.001 (x2 + d2 * dt) in
  let x3 := Math_max 0.001 (x3 + d3 * dt) in
  let s2 := x1 + x2 + x3 in
  (x1 / s2, x2 / s2, x3 / s2).

(** A point of the simplex. *)
Definition on_simplex (x : R * R * R) : Prop :=
  let '(x1, x2, x3) := x in
  0 <= x1 /\ 0 <= x2 /\ 0 <= x3 /\ x1 + x2 + x3 = 1.

End Figure3.

(** ** Figure 7: the Zipf sampler and the summary statistics *)

Module Figure7.
Import Int32 Num Prng.

(** [a >> n] : the operand taken as a signed 32-bit integer, shifted
    right by [n] modulo 32 with the sign kept. *)
Definition signed_shift_right (a n : Z) : Z := Z.shiftr (to_int32 a) (n mod 32).

(** [a[i]] on a [Float64Array]: [undefined] outside the array. *)
Definition read (a : list R) (i : Z) : option R :=
  if i <? 0 then None else nth_error a (Z.to_nat i).

(** [a[i] < u] : a comparison with [undefined] is false. *)
Definition less_than (x : option R) (u : R) : bool :=
  match x with
  | Some c => ltb c u
  | None => false
  end.

(** [counts[i]++] on an [Int32Array]: the entry wraps to 32 bits, and a
    write outside the array is dropped. *)
Definition incr (counts : list Z) (i : Z) : list Z :=
  if (0 <=? i) && (i <? Z.of_nat (List.length counts))
  then firstn (Z.to_nat i) counts
         ++ to_int32 (nth (Z.to_nat i) counts 0 + 1) :: skipn (S (Z.to_nat i)) counts
  else counts.

Section Sampler.

(** [const F = 500] and the array [cumProbs]. *)
Variable F : Z.
Variable cumProbs : list R.

(** [while (lo < hi) { mid = (lo + hi) >> 1; if (cumProbs[mid] < u) lo = mid + 1; else hi = mid; }]
    and the final [lo]; [None] when the loop is still running after
    [fuel] tests. *)
Fixpoint search (fuel : nat) (u : R) (lo hi : Z) : option Z :=
  match fuel with
  | O => None
  | S fuel' =>
      if lo <? hi then
        let mid := signed_shift_right (lo + hi) 1 in
        if less_than (read cumProbs mid) u then search fuel' u (mid + 1) hi
        else search fuel' u lo mid
      else Some lo
  end.

(** [n] iterations of the loop of [sampleZipf] on [counts] and [_seed]. *)
Fixpoint draw_loop (fuel : nat) (n : nat) (counts : list Z) (_seed : Z) : option (list Z * Z) :=
  match n with
  | O => Some (counts, _seed)
  | S n' =>
      let '(u, s1) := rand _seed in
      match search fuel u 0 (F - 1) with
      | Some lo => draw_loop fuel n' (incr counts lo) s1
      | None => None
      end
  end.

(** [sampleZipf(n)] for an integer [n]: the counts and the [_seed] left. *)
Definition sampleZipf (fuel : nat) (n : Z) (_seed : Z) : option (list Z * Z) :=
  draw_loop fuel (Z.to_nat n) (repeat 0 (Z.to_nat F)) _seed.

End Sampler.

(** [const F = 500;  const alpha = 1.8;] *)
Definition F : Z := 500.
Definition alpha : R := 1.8.

(** [let Z = 0; for (let k = 1; k <= F; k++) Z += Math.pow(k, -alpha);] *)
Definition Z_of (F : Z) : R :=
  fold_left (fun z k => (z + Math_pow (IZR k) (- alpha))%R)
    (map Z.of_nat (seq 1 (Z.to_nat F))) 0%R.

(** [probs[k] = Math.pow(k + 1, -alpha) / Z] for [k = 0 .. F - 1] *)
Definition probs_of (F : Z) : list R :=
  map (fun k => (Math_pow (IZR (k + 1)) (- alpha) / Z_of F)%R)
    (map Z.of_nat (seq 0 (Z.to_nat F))).

(** [cumProbs[k] = cumProbs[k-1] + probs[k]] for [k = 1 .. F - 1] *)
Fixpoint running (prev : R) (ps : list R) : list R :=
  match ps with
  | [] => []
  | p :: ps' => (prev + p)%R :: running (prev + p)%R ps'
  end.

(** [cumProbs[0] = probs[0]] and the loop above. *)
Definition cumProbs_of (F : Z) : list R :=
  match probs_of F with
  | [] => []
  | p0 :: ps => p0 :: running p0 ps
  end.

Definition probs : list R := probs_of F.
Definition cumProbs : list R := cumProbs_of F.

(** [const mean = arr => arr.reduce((s, v) => s + v, 0) / arr.length;] *)
Definition mean (arr : list R) : R := (sum arr / INR (List.length arr))%R.

(** [const sd = arr => { const m = mean(arr);
     return Math.sqrt(arr.reduce((s, v) => s + (v-m)**2, 0) / arr.length); };] *)
Definition sd (arr : list R) : R :=
  let m := mean arr in
  sqrt (fold_left (fun s v => (s + Math_pow (v - m) 2)%R) arr 0%R / INR (List.length arr)).

(** A vector that does not decrease. *)
Definition nondecreasing (a : list R) : Prop :=
  forall i j : nat, (i <= j)%nat -> (j < List.length a)%nat -> (nth i a 0 <= nth j a 0)%R.

End Figure7.

(** ** Figure 8: the welfare gap *)

Module Figure8.
Local Open Scope R_scope.

(** [const k = 1, rT = 4;  const Hne = Math.sqrt(rT / (4 * k));] *)
Definition k : R := 1.
Definition rT : R := 4.
Definition Hne : R := sqrt (rT / (4 * k)).

(** The coefficient [c = 1 + nu * (gamma - 1) / 2] of [Hso]. *)
Definition c_of (nu gamma : R) : R := 1 + nu * (gamma - 1) / 2.

(** [Hso(nu, gamma)] *)
Definition Hso (nu gamma : R) : R :=
  let c := c_of nu gamma in
  (c + sqrt (c * c + 4 * k * rT)) / (4 * k).

End Figure8.

(** ** Figure 1: the bars of the histogram;  figure 6: the random start *)

Module Figure1.
(** [const total = hist.reduce((s, c) => s + c, 0);] *)
Definition total_of (hist : list Z) : Z := fold_left Z.add hist 0.
(** [const probs = hist.map(c => c / total);] *)
Definition probs_of (hist : list Z) : list R :=
  map (fun c => (IZR c / IZR (total_of hist))%R) hist.
End Figure1.

Module Figure6.
Import Num Prng Stream.
(** [const initX = Array.from({ length: n }, () => rand());
     const sum = initX.reduce((s, v) => s + v, 0);
     initX.forEach((_, i) => initX[i] /= sum);]
    The start vector and the [_seed] left. *)
Definition initX (n : nat) (_seed : Z) : list R * Z :=
  let '(rs, s') := draws n _seed in
  let total := sum rs in
  (map (fun v => (v / total)%R) rs, s').
End Figure6.

(** ** Concrete inputs used below *)

Module Fixtures.

(** A page without the canvas of figure 1, and a draw function that throws. *)
Definition empty_page : Dom.page unit :=
  {| Dom.document := [("otherChart"%string, 0%nat)];
     Dom.has_IntersectionObserver := false;
     Dom.observers := [];
     Dom.drawn := [];
     Dom.state := tt |}.

Definition failing_draw : Dom.drawFn_t unit :=
  fun _ _ => Dom.Thrown "cv.getContext is not a function"%string.

(** A fitness gap one unit in the last place above [1/4], and the share
    at which [1 - 2 x] equals it. *)
Definition deltaH_tight : float := 0x1.0000000000001p-2.
Definition root_tight : R := (3 / 8 - / 36028797018963968)%R.

(** A share vector of five platforms. *)
Definition shares_example : list float := [0.5; 0.2; 0.15; 0.1; 0.05]%float.

(** [p] is the binary64 number nearest to [x^1.5]: with [x = mx / 2^kx]
    and [p = mp / 2^kp], whose last place is [2^-kp],
    [(p - 2^-kp / 2)^2 < x^3 < (p + 2^-kp / 2)^2]. *)
Definition nearest_pow_1_5 (x p : float) : Prop :=
  exists mx kx mp kp : positive,
    Prim2SF x = S754_finite false mx (Z.neg kx)
    /\ Prim2SF p = S754_finite false mp (Z.neg kp)
    /\ ((2 * Z.pos mp - 1) ^ 2 * 2 ^ (3 * Z.pos kx)
        < Z.pos mx ^ 3 * 2 ^ (2 * Z.pos kp + 2)
        < (2 * Z.pos mp + 1) ^ 2 * 2 ^ (3 * Z.pos kx))%Z.

(** The powers [x^1.5] of the entries of [shares_example], rounded to
    nearest. *)
Definition powers_example : list (float * float) :=
  [(0.5, 0.35355339059327379); (0.2, 0.089442719099991602);
   (0.15, 0.05809475019311125); (0.1, 0.031622776601683798);
   (0.05, 0.01118033988749895)]%float.

(** An implementation of [Math.pow] that is the identity at exponent 1. *)
Definition pow_identity (x y : float) : float := x.

(** An implementation of [Math.pow] that returns the entries of
    [powers_example]. *)
Definition pow_lookup (x y : float) : float :=
  fold_right (fun xp rest => if PrimFloat.eqb (fst xp) x then snd xp else rest)
    nan powers_example.

End Fixtures.

Module PageFixtures.

(** A page with the canvas of figure 1 and observer support. *)
Definition observing_page : Dom.page unit :=
  {| Dom.document := [("otherChart"%string, 0%nat); ("kmrChart"%string, 1%nat)];
     Dom.has_IntersectionObserver := true;
     Dom.observers := [];
     Dom.drawn := [];
     Dom.state := tt |}.

Definition quiet_draw : Dom.drawFn_t unit := fun _ s => Dom.Returned s.

End PageFixtures.

(** * Part II: properties *)

Import Fixtures.

(** ** The generator *)

Section PrngFacts.
Import Int32 Prng.

Lemma to_int32_range (z : Z) : is_int32 (to_int32 z).
Proof.
  unfold is_int32, to_int32.
  pose proof (Z.mod_pos_bound (z + 2147483648) 4294967296 ltac:(lia)). lia.
Qed.

Lemma to_uint32_range (z : Z) : 0 <= to_uint32 z < 4294967296.
Proof. unfold to_uint32. apply Z.mod_pos_bound. lia. Qed.

Lemma to_uint32_to_int32 (z : Z) : to_uint32 (to_int32 z) = to_uint32 z.
Proof.
  unfold to_uint32, to_int32.
  rewrite <- (Z.add_opp_r _ 2147483648).
  rewrite <- Zplus_mod_idemp_l, Z.mod_mod by lia.
  rewrite Zplus_mod_idemp_l.
  f_equal. lia.
Qed.

Lemma to_uint32_imul (a b : Z) : to_uint32 (imul a b) = to_uint32 (a * b).
Proof.
  unfold imul. rewrite to_uint32_to_int32. unfold to_uint32.
  symmetry. apply Zmult_mod.
Qed.

Lemma bit_or_zero (a : Z) : bit_or a 0 = to_int32 a.
Proof. unfold bit_or. change (to_int32 0) with 0. apply Z.lor_0_r. Qed.

Lemma unsigned_shift_right_zero (a : Z) : unsigned_shift_right a 0 = to_uint32 a.
Proof. unfold unsigned_shift_right. change (0 mod 32) with 0. apply Z.shiftr_0_r. Qed.

Example next_seed_initial : next_seed initial_seed = -2093008696.
Proof. reflexivity. Qed.

Example next_seed_twice : next_seed (next_seed initial_seed) = -1563654777.
Proof. reflexivity. Qed.

Lemma next_seed_int32 (s : Z) : is_int32 (next_seed s).
Proof. unfold next_seed. rewrite bit_or_zero. apply to_int32_range. Qed.

Lemma next_seed_unsigned (s : Z) :
  to_uint32 (next_seed s) = (1664525 * s + 1013904223) mod 4294967296.
Proof.
  unfold next_seed. rewrite bit_or_zero, to_uint32_to_int32. unfold to_uint32.
  rewrite <- Zplus_mod_idemp_l.
  change ((imul s 1664525) mod 4294967296) with (to_uint32 (imul s 1664525)).
  rewrite to_uint32_imul. unfold to_uint32.
  rewrite Zplus_mod_idemp_l. f_equal. lia.
Qed.

Lemma rand_unit (s : Z) : (0 <= fst (rand s) < 1)%R.
Proof.
  unfold rand. cbn [fst]. rewrite unsigned_shift_right_zero.
  pose proof (to_uint32_range (next_seed s)) as [Hlo Hhi].
  apply IZR_le in Hlo. apply IZR_lt in Hhi.
  split.
  - apply Rmult_le_reg_r with 4294967296%R; [lra|].
    unfold Rdiv. rewrite Rmult_assoc, Rinv_l by lra. lra.
  - apply Rmult_lt_reg_r with 4294967296%R; [lra|].
    unfold Rdiv. rewrite Rmult_assoc, Rinv_l by lra. lra.
Qed.

(** C10: for every 32-bit seed state, [rand()] leaves a 32-bit seed
    whose unsigned reading is [(1664525 * seed + 1013904223) mod 2^32],
    and returns that unsigned reading divided by [2^32], a value [r]
    with [0 <= r < 1]. *)
Theorem rand_lcg_unit_interval (s : Z) (Hs : is_int32 s) :
  is_int32 (snd (rand s))
  /\ to_uint32 (snd (rand s)) = (1664525 * s + 1013904223) mod 2 ^ 32
  /\ fst (rand s) = (IZR ((1664525 * s + 1013904223) mod 2 ^ 32) / 2 ^ 32)%R
  /\ (0 <= fst (rand s) < 1)%R.
Proof.
  split; [|split; [|split]].
  - cbn [rand snd]. apply next_seed_int32.
  - cbn [rand snd]. rewrite next_seed_unsigned. reflexivity.
  - cbn [rand fst]. rewrite unsigned_shift_right_zero, next_seed_unsigned.
    change (2 ^ 32)%Z with 4294967296%Z. f_equal. lra.
  - apply rand_unit.
Qed.

Lemma rand_lcg_unit_interval_witness :
  is_int32 98765
  /\ is_int32 (snd (rand 98765))
  /\ to_uint32 (snd (rand 98765)) = (1664525 * 98765 + 1013904223) mod 2 ^ 32
  /\ fst (rand 98765) = (IZR ((1664525 * 98765 + 1013904223) mod 2 ^ 32) / 2 ^ 32)%R
  /\ (0 <= fst (rand 98765) < 1)%R.
Proof.
  split.
  - unfold is_int32. lia.
  - apply (rand_lcg_unit_interval 98765). unfold is_int32. lia.
Defined.

End PrngFacts.

(** ** The lazy canvas hook *)

Section DomFacts.
Import Dom.

Variable St : Type.

Lemma getElementById_found (doc : list (string * element)) (id : string) (e : element) :
  getElementById doc id = Some e -> In (id, e) doc.
Proof.
  induction doc as [|[i e'] doc IH]; cbn; [discriminate|].
  destruct (String.eqb i id) eqn:E.
  - apply String.eqb_eq in E. intros [= ->]. left. now subst.
  - intros H. right. now apply IH.
Qed.

Lemma getElementById_absent (doc : list (string * element)) (id : string) :
  getElementById doc id = None <-> (forall e, ~ In (id, e) doc).
Proof.
  induction doc as [|[i e'] doc IH]; cbn.
  - split; [intros _ e []|reflexivity].
  - destruct (String.eqb i id) eqn:E.
    + apply String.eqb_eq in E. subst i. split; [discriminate|].
      intros H. exfalso. apply (H e'). now left.
    + apply String.eqb_neq in E. rewrite IH. split.
      * intros H e [[= -> _]|Hin]; [now apply E|now apply (H e)].
      * intros H e Hin. apply (H e). now right.
Qed.

(** With an element and no observer support the draw function runs at once. *)
Lemma lazyDraw_immediate (canvasId : string) (drawFn : drawFn_t St) (w : page St) (cv : element) :
  getElementById (document w) canvasId = Some cv ->
  has_IntersectionObserver w = false ->
  lazyDraw canvasId drawFn w = call_draw drawFn cv w.
Proof. intros H1 H2. unfold lazyDraw. now rewrite H1, H2. Qed.

(** With an element and observer support nothing is drawn yet. *)
Lemma lazyDraw_deferred (canvasId : string) (drawFn : drawFn_t St) (w : page St) (cv : element) :
  getElementById (document w) canvasId = Some cv ->
  has_IntersectionObserver w = true ->
  lazyDraw canvasId drawFn w = Returned (observe drawFn cv w)
  /\ drawn (observe drawFn cv w) = drawn w.
Proof. intros H1 H2. unfold lazyDraw. rewrite H1, H2. now split. Qed.

(** C7: when the document lookup of [canvasId] yields no element,
    [lazyDraw(canvasId, drawFn)] returns normally with the page exactly as
    it was: no call of a draw function is recorded, no observer is
    registered, and the state the draw functions act on is untouched. *)
Theorem lazyDraw_missing_canvas (canvasId : string) (drawFn : drawFn_t St) (w : page St)
    (Hmissing : getElementById (document w) canvasId = None) :
  lazyDraw canvasId drawFn w = Returned w
  /\ (forall w', lazyDraw canvasId drawFn w = Returned w' ->
            drawn w' = drawn w /\ observers w' = observers w /\ state w' = state w).
Proof.
  unfold lazyDraw. rewrite Hmissing. split; [reflexivity|].
  intros w' [= <-]. repeat split.
Qed.

End DomFacts.

Lemma lazyDraw_missing_canvas_witness :
  Dom.getElementById (Dom.document empty_page) "kmrChart"%string = None
  /\ Dom.lazyDraw "kmrChart"%string failing_draw empty_page = Dom.Returned empty_page
  /\ (forall w', Dom.lazyDraw "kmrChart"%string failing_draw empty_page = Dom.Returned w' ->
         Dom.drawn w' = Dom.drawn empty_page
         /\ Dom.observers w' = Dom.observers empty_page
         /\ Dom.state w' = Dom.state empty_page).
Proof.
  split.
  - reflexivity.
  - apply (lazyDraw_missing_canvas unit "kmrChart"%string failing_draw empty_page).
    reflexivity.
Defined.

Example lazyDraw_present_canvas_throws :
  Dom.lazyDraw "otherChart"%string failing_draw empty_page
  = Dom.Thrown "cv.getContext is not a function"%string.
Proof. reflexivity. Qed.

(** ** The KMR chain *)

Section KmrFacts.
Import Num Prng Kmr.

Lemma Math_floor_quotient (a b : Z) :
  0 < b -> Math_floor (IZR a / IZR b) = a / b.
Proof.
  intros Hb. unfold Math_floor. symmetry. apply Int_part_spec.
  pose proof (Z.div_mod a b ltac:(lia)) as E.
  pose proof (Z.mod_pos_bound a b Hb) as [M0 M1].
  assert (Hb' : (0 < IZR b)%R) by now apply IZR_lt.
  assert (Ea : IZR a = (IZR b * IZR (a / b) + IZR (a mod b))%R).
  { rewrite <- mult_IZR, <- plus_IZR. now f_equal. }
  apply IZR_le in M0. apply IZR_lt in M1.
  split.
  - apply Rmult_lt_reg_r with (IZR b); [lra|].
    unfold Rdiv. rewrite Rmult_minus_distr_r, Rmult_assoc, Rinv_l by lra. nra.
  - apply Rmult_le_reg_r with (IZR b); [lra|].
    unfold Rdiv. rewrite Rmult_assoc, Rinv_l by lra. nra.
Qed.

Lemma start_k (s : Z) : k (start s) = 25.
Proof.
  unfold start. cbn [k]. change 2%R with (IZR 2).
  rewrite Math_floor_quotient by lia. reflexivity.
Qed.

Lemma burnin_quarter (T : Z) : burnin_of T = T / 4.
Proof.
  unfold burnin_of. replace (IZR T * 0.25)%R with (IZR T / IZR 4)%R by lra.
  apply Math_floor_quotient. lia.
Qed.

(** One move is a birth, a death or nothing, and it stays on [0..N]. *)
Lemma move_birth_death (eps : R) (k0 s0 : Z) :
  (fst (move eps k0 s0) = k0 - 1 /\ 0 < k0)
  \/ fst (move eps k0 s0) = k0
  \/ (fst (move eps k0 s0) = k0 + 1 /\ k0 < N).
Proof.
  unfold move.
  destruct (rand s0) as [r0 s1].
  destruct (ltb r0 eps).
  - destruct (rand s1) as [r1 s2]. destruct (rand s2) as [r2 s3].
    destruct (ltb r2 (IZR k0 / IZR N)), (ltb r1 0.5),
      (Z.ltb_spec 0 k0), (Z.ltb_spec k0 N); cbn; auto.
  - destruct (rand s1) as [r1 s2].
    destruct (ltb r1 (IZR k0 / IZR N)), (gtb (uVal k0 false) (uVal k0 true)),
      (gtb (uVal k0 true) (uVal k0 false)),
      (Z.ltb_spec 0 k0), (Z.ltb_spec k0 N); cbn; auto.
Qed.

Lemma move_in_range (eps : R) (k0 s0 : Z) :
  0 <= k0 <= N ->
  0 <= fst (move eps k0 s0) <= N /\ -1 <= fst (move eps k0 s0) - k0 <= 1.
Proof.
  intros Hk. destruct (move_birth_death eps k0 s0) as [[-> ?]|[->|[-> ?]]]; lia.
Qed.

Lemma hist_total_app (h1 h2 : list Z) :
  hist_total (h1 ++ h2) = hist_total h1 + hist_total h2.
Proof.
  unfold hist_total. induction h1 as [|a h1 IH]; cbn [app fold_right]; lia.
Qed.

Lemma hist_split (h : list Z) (i : nat) :
  (i < List.length h)%nat ->
  h = firstn i h ++ nth i h 0 :: skipn (S i) h.
Proof.
  revert i. induction h as [|a h IH]; intros [|i] Hi; cbn in *; try lia.
  - reflexivity.
  - f_equal. apply IH. lia.
Qed.

Lemma hist_incr_ok (h : list Z) (k0 : Z) :
  0 <= k0 < Z.of_nat (List.length h) ->
  Forall (fun c => 0 <= c) h ->
  exists h', hist_incr h k0 = Some h'
    /\ List.length h' = List.length h
    /\ Forall (fun c => 0 <= c) h'
    /\ hist_total h' = hist_total h + 1.
Proof.
  intros Hk Hpos. unfold hist_incr.
  destruct (Z.leb_spec 0 k0); [|lia]. destruct (Z.ltb_spec k0 (Z.of_nat (List.length h))); [|lia].
  cbn [andb]. eexists. split; [reflexivity|].
  assert (Hi : (Z.to_nat k0 < List.length h)%nat) by lia.
  pose proof (hist_split h (Z.to_nat k0) Hi) as E.
  set (i := Z.to_nat k0) in *.
  assert (Hn : 0 <= nth i h 0).
  { rewrite Forall_forall in Hpos. apply Hpos. now apply nth_In. }
  split; [|split].
  - apply (f_equal (@List.length Z)) in E.
    rewrite length_app in E |- *. cbn [List.length] in E |- *. lia.
  - rewrite E in Hpos. apply Forall_app in Hpos as [H1 H2].
    apply Forall_app. split; [exact H1|]. inversion H2; subst.
    constructor; [lia|assumption].
  - assert (Eh : hist_total h
                 = hist_total (firstn i h ++ nth i h 0 :: skipn (S i) h))
      by now rewrite <- E.
    rewrite Eh, !hist_total_app. unfold hist_total. cbn [fold_right]. lia.
Qed.

Lemma step_ok (eps : R) (b t : Z) (c : chain) :
  0 <= t -> chain_ok b t c ->
  exists c', step eps b t c = Some c'
    /\ chain_ok b (t + 1) c'
    /\ (k c', seed c') = move eps (k c) (seed c).
Proof.
  intros Ht (Hk & Hlen & Hpos & Htot). unfold step.
  pose proof (move_in_range eps (k c) (seed c) Hk) as [Hk' _].
  destruct (move eps (k c) (seed c)) as [k' s'] eqn:Em. cbn [fst] in Hk'.
  destruct (Z.leb_spec b t).
  - destruct (hist_incr_ok (hist c) k') as (h' & -> & Hl' & Hp' & Ht'); auto.
    { rewrite Hlen. unfold N in *. lia. }
    eexists. split; [reflexivity|]. split; [|reflexivity].
    unfold chain_ok. cbn [k hist]. repeat split; try lia; auto; congruence.
  - eexists. split; [reflexivity|]. split; [|reflexivity].
    unfold chain_ok. cbn [k hist]. repeat split; try lia; auto.
Qed.

Lemma loop_ok (eps : R) (b : Z) (n : nat) :
  forall t c, 0 <= t -> chain_ok b t c ->
  exists c', loop eps b n t c = Some c' /\ chain_ok b (t + Z.of_nat n) c'.
Proof.
  induction n as [|n IH]; intros t c Ht Hc.
  - exists c. split; [reflexivity|]. now replace (t + Z.of_nat 0) with t by lia.
  - cbn [loop]. destruct (step_ok eps b t c Ht Hc) as (c1 & -> & Hc1 & _).
    destruct (IH (t + 1) c1 ltac:(lia) Hc1) as (c' & E & Hc').
    exists c'. split; [exact E|]. now replace (t + Z.of_nat (S n)) with (t + 1 + Z.of_nat n) by lia.
Qed.

Lemma loop_S (eps : R) (b : Z) (n : nat) (t : Z) (c : chain) :
  loop eps b (S n) t c =
  match step eps b t c with
  | Some c' => loop eps b n (t + 1) c'
  | None => None
  end.
Proof. reflexivity. Qed.

Lemma loop_snoc (eps : R) (b : Z) (n : nat) :
  forall t c,
  loop eps b (S n) t c =
  match loop eps b n t c with
  | Some c' => step eps b (t + Z.of_nat n) c'
  | None => None
  end.
Proof.
  induction n as [|n IH]; intros t c.
  - cbn [loop]. replace (t + Z.of_nat 0) with t by lia.
    now destruct (step eps b t c).
  - rewrite (loop_S eps b (S n) t c), (loop_S eps b n t c).
    destruct (step eps b t c) as [c1|]; [|reflexivity].
    rewrite IH. replace (t + 1 + Z.of_nat n) with (t + Z.of_nat (S n)) by lia.
    reflexivity.
Qed.

Lemma start_ok (b s : Z) : chain_ok b 0 (start s).
Proof.
  unfold chain_ok. rewrite start_k. unfold start. cbn [hist].
  split; [unfold N; lia|]. split; [apply repeat_length|]. split.
  - apply Forall_forall. intros x Hx. apply repeat_spec in Hx. lia.
  - replace (Z.max 0 (0 - Z.max 0 b)) with 0 by lia.
    generalize (Z.to_nat (N + 1)). intros m. induction m; cbn; auto.
Qed.

Lemma after_ok (eps : R) (T s : Z) (n : nat) :
  exists c, after eps T s n = Some c /\ chain_ok (burnin_of T) (Z.of_nat n) c.
Proof.
  unfold after.
  destruct (loop_ok eps (burnin_of T) n 0 (start s) ltac:(lia) (start_ok _ s)) as (c & E & Hc).
  exists c. split; [exact E|]. exact Hc.
Qed.

(** C3: in [runKMR(eps, T)], for every [eps] in [[0, 1]] and every number
    of steps [T], the state [k] starts at [floor(N / 2) = 25] with
    [N = 50], and every iteration is reached with [k] in [0..N] and
    leaves [k] in [0..N], moved by at most one. *)
Theorem runKMR_birth_death (eps : R) (T s : Z) (Heps : (0 <= eps <= 1)%R) :
  N = 50
  /\ after eps T s 0 = Some (start s)
  /\ k (start s) = 25
  /\ forall n : nat, exists c c',
       after eps T s n = Some c
       /\ after eps T s (S n) = Some c'
       /\ 0 <= k c <= N
       /\ 0 <= k c' <= N
       /\ -1 <= k c' - k c <= 1.
Proof.
  split; [reflexivity|]. split; [reflexivity|]. split; [apply start_k|].
  intros n.
  destruct (after_ok eps T s n) as (c & E & Hc).
  destruct (step_ok eps (burnin_of T) (Z.of_nat n) c ltac:(lia) Hc) as (c' & E' & Hc' & Em).
  exists c, c'. split; [exact E|]. split.
  - unfold after in *. rewrite loop_snoc, E. exact E'.
  - destruct Hc as (Hk & _). destruct Hc' as (Hk' & _).
    pose proof (move_in_range eps (k c) (seed c) Hk) as [_ Hd].
    rewrite <- Em in Hd. cbn [fst] in Hd. auto.
Qed.

Lemma runKMR_birth_death_witness :
  (0 <= 0.15 <= 1)%R
  /\ N = 50
  /\ after 0.15 300000 98765 0 = Some (start 98765)
  /\ k (start 98765) = 25
  /\ forall n : nat, exists c c',
       after 0.15 300000 98765 n = Some c
       /\ after 0.15 300000 98765 (S n) = Some c'
       /\ 0 <= k c <= N
       /\ 0 <= k c' <= N
       /\ -1 <= k c' - k c <= 1.
Proof.
  split.
  - lra.
  - apply (runKMR_birth_death 0.15 300000 98765). lra.
Defined.

(** C5: [runKMR] resets the seed before it simulates, so what it returns
    does not depend on the seed it finds: it returns a histogram, and any
    other invocation with the same arguments, in particular the next one,
    returns the same histogram (and leaves the same seed). *)
Theorem runKMR_reproducible (eps : R) (T : Z) (s1 : Z) :
  exists h s',
    runKMR eps T s1 = Some (h, s')
    /\ runKMR eps T s' = Some (h, s')
    /\ forall s2, runKMR eps T s2 = Some (h, s').
Proof.
  destruct (after_ok eps T s1 (Z.to_nat T)) as (c & E & _).
  exists (hist c), (seed c).
  assert (H : forall s2, runKMR eps T s2 = Some (hist c, seed c)).
  { intros s2. unfold runKMR.
    change (after eps T s2 (Z.to_nat T)) with (after eps T s1 (Z.to_nat T)).
    now rewrite E. }
  split; [apply H|]. split; apply H.
Qed.

(** C6: for every [eps] and every positive integer [T], [runKMR(eps, T)]
    returns an array of [N + 1 = 51] entries, each a nonnegative integer,
    whose sum is [T - floor(0.25 * T)]. *)
Theorem runKMR_histogram (eps : R) (T s : Z) (HT : 0 < T) :
  exists h s',
    runKMR eps T s = Some (h, s')
    /\ List.length h = Z.to_nat (N + 1)
    /\ List.length h = 51%nat
    /\ Forall (fun c => 0 <= c) h
    /\ hist_total h = T - Math_floor (IZR T * 0.25).
Proof.
  destruct (after_ok eps T s (Z.to_nat T)) as (c & E & (_ & Hlen & Hpos & Htot)).
  exists (hist c), (seed c). unfold runKMR. rewrite E.
  split; [reflexivity|]. split; [exact Hlen|]. split; [exact Hlen|].
  split; [exact Hpos|].
  rewrite Htot. fold (burnin_of T). rewrite burnin_quarter.
  pose proof (Z.div_mod T 4 ltac:(lia)). pose proof (Z.mod_pos_bound T 4 ltac:(lia)).
  lia.
Qed.

Lemma runKMR_histogram_witness :
  0 < 300000
  /\ exists h s',
       runKMR 0.15 300000 98765 = Some (h, s')
       /\ List.length h = Z.to_nat (N + 1)
       /\ List.length h = 51%nat
       /\ Forall (fun c => 0 <= c) h
       /\ hist_total h = 300000 - Math_floor (IZR 300000 * 0.25).
Proof.
  split.
  - lia.
  - apply (runKMR_histogram 0.15 300000 98765). lia.
Defined.

End KmrFacts.

(** ** The power function on the domain the figures use *)

Section NumFacts.
Import Num.
Local Open Scope R_scope.

Lemma Math_pow_pos_base (x y : R) : 0 < x -> Math_pow x y = Rpower x y.
Proof. intros Hx. unfold Math_pow. destruct (Rlt_dec 0 x); [reflexivity|contradiction]. Qed.

Lemma Math_pow_pos (x y : R) : 0 < x -> 0 < Math_pow x y.
Proof. intros Hx. rewrite Math_pow_pos_base by assumption. apply exp_pos. Qed.

Lemma is_integer_IZR (z : Z) : is_integer (IZR z) = true.
Proof.
  unfold is_integer. destruct (Req_dec_T (IZR z) (IZR (Int_part (IZR z)))) as [_|Hn]; [reflexivity|].
  exfalso. apply Hn. f_equal. apply Int_part_spec. lra.
Qed.

Lemma Int_part_IZR (z : Z) : Int_part (IZR z) = z.
Proof. symmetry. apply Int_part_spec. lra. Qed.

(** Base [0] with a positive exponent gives [0]. *)
Lemma Math_pow_zero_base (y : R) : 0 < y -> Math_pow 0 y = 0.
Proof.
  intros Hy. unfold Math_pow.
  destruct (Rlt_dec 0 0) as [H|_]; [lra|].
  destruct (is_integer y) eqn:E; [|reflexivity].
  unfold is_integer in E. destruct (Req_dec_T y (IZR (Int_part y))) as [Ey|]; [|discriminate].
  assert (Hz : (0 < Int_part y)%Z) by (apply lt_IZR; lra).
  destruct (Int_part y) as [|p|p]; try lia.
  cbn [powerRZ]. apply pow_i. lia.
Qed.

(** A natural exponent gives the iterated product, for a base [>= 0]. *)
Lemma Math_pow_nat (x : R) (n : nat) : 0 <= x -> Math_pow x (INR n) = x ^ n.
Proof.
  intros [Hx|<-].
  - rewrite Math_pow_pos_base by assumption. now apply Rpower_pow.
  - unfold Math_pow. destruct (Rlt_dec 0 0) as [H|_]; [lra|].
    rewrite INR_IZR_INZ, is_integer_IZR, Int_part_IZR.
    now rewrite <- pow_powerRZ.
Qed.

Lemma Math_pow_Z (x : R) (n : Z) : 0 <= x -> (0 <= n)%Z -> Math_pow x (IZR n) = x ^ Z.to_nat n.
Proof.
  intros Hx Hn. rewrite <- (Z2Nat.id n) at 1 by assumption.
  rewrite <- INR_IZR_INZ. now apply Math_pow_nat.
Qed.

(** In the base, the power is strictly increasing on the positive reals
    for a positive exponent, and reaches [0] only at [0]. *)
Lemma Math_pow_increasing (x y c : R) :
  0 < c -> 0 <= x < y -> Math_pow x c < Math_pow y c.
Proof.
  intros Hc [[Hx|<-] Hxy].
  - rewrite !Math_pow_pos_base by lra. apply Rlt_Rpower_l; lra.
  - rewrite Math_pow_zero_base by assumption. now apply Math_pow_pos.
Qed.

Lemma for_loop_invariant {A : Type} (P : A -> Prop) (body : A -> A) :
  (forall a, P a -> P (body a)) ->
  forall n a, P a -> P (for_loop n body a).
Proof.
  intros Hbody n. induction n as [|n IH]; intros a Ha; cbn [for_loop]; auto.
Qed.

End NumFacts.

(** ** The separatrix bisection *)

Section BasinFacts.
Import Num Basin.
Local Open Scope R_scope.

Variables deltaH nu gamma : R.

(** [g] is strictly decreasing on the unit interval for a positive
    exponent. *)
Lemma g_decreasing (x y : R) :
  0 < gamma -> 0 <= x -> x < y -> y <= 1 -> g y gamma < g x gamma.
Proof.
  intros Hg Hx Hxy Hy. unfold g.
  assert (Math_pow x gamma < Math_pow y gamma) by (apply Math_pow_increasing; lra).
  assert (Math_pow (1 - y) gamma < Math_pow (1 - x) gamma) by (apply Math_pow_increasing; lra).
  lra.
Qed.

Lemma bisect_in_bracket (b : R * R) :
  in_bracket b -> in_bracket (bisect deltaH nu gamma b).
Proof.
  destruct b as [lo hi]. unfold in_bracket, bisect. cbn [fst snd].
  intros (H1 & H2 & H3).
  destruct (gtb (nu * g ((lo + hi) / 2) gamma) deltaH); cbn [fst snd]; lra.
Qed.

(** The loop halves the bracket. *)
Lemma bisect_width (b : R * R) :
  snd (bisect deltaH nu gamma b) - fst (bisect deltaH nu gamma b) = (snd b - fst b) / 2.
Proof.
  destruct b as [lo hi]. unfold bisect. cbn [fst snd].
  destruct (gtb (nu * g ((lo + hi) / 2) gamma) deltaH); cbn [fst snd]; lra.
Qed.

Lemma for_loop_bisect_width (n : nat) (b : R * R) :
  snd (for_loop n (bisect deltaH nu gamma) b) - fst (for_loop n (bisect deltaH nu gamma) b)
  = (snd b - fst b) / 2 ^ n.
Proof.
  revert b. induction n as [|n IH]; intros b; cbn [for_loop].
  - cbn. lra.
  - rewrite IH, bisect_width. cbn [pow]. field. apply pow_nonzero. lra.
Qed.

Lemma bisect_straddles (b : R * R) :
  straddles deltaH nu gamma b -> straddles deltaH nu gamma (bisect deltaH nu gamma b).
Proof.
  destruct b as [lo hi]. unfold straddles, bisect. cbn [fst snd].
  intros (H1 & H2). unfold gtb.
  destruct (Rlt_dec deltaH (nu * g ((lo + hi) / 2) gamma)); cbn [fst snd]; lra.
Qed.

(** A root inside the starting bracket lies in every bracket that
    straddles it. *)
Lemma root_in_bracket (b : R * R) (x : R) :
  0 < nu -> 0 < gamma ->
  in_bracket b -> straddles deltaH nu gamma b ->
  0.001 <= x <= 0.499 -> nu * g x gamma = deltaH ->
  fst b <= x <= snd b.
Proof.
  intros Hnu Hg (B1 & B2 & B3) (S1 & S2) Hx Hroot. split.
  - destruct (Rle_lt_dec (fst b) x) as [|Hlt]; [assumption|exfalso].
    pose proof (g_decreasing x (fst b) Hg ltac:(lra) Hlt ltac:(lra)). nra.
  - destruct (Rle_lt_dec x (snd b)) as [|Hlt]; [assumption|exfalso].
    pose proof (g_decreasing (snd b) x Hg ltac:(lra) Hlt ltac:(lra)). nra.
Qed.

Lemma findSep_no_equilibrium : deltaH >= nu -> findSep deltaH nu gamma = 0.
Proof.
  intros H. unfold findSep, geb. destruct (Rle_dec nu deltaH); [reflexivity|lra].
Qed.

Lemma findSep_interior :
  deltaH < nu ->
  findSep deltaH nu gamma
  = (fst (for_loop 60 (bisect deltaH nu gamma) (0.001, 0.499))
     + snd (for_loop 60 (bisect deltaH nu gamma) (0.001, 0.499))) / 2.
Proof.
  intros H. unfold findSep, geb. destruct (Rle_dec nu deltaH); [lra|].
  now destruct (for_loop 60 (bisect deltaH nu gamma) (0.001, 0.499)).
Qed.

(** The two cases of [findSep] on the exact reading: [0] when
    [deltaH >= nu], a share in [[0.001, 0.499]] when [deltaH < nu]. *)
Lemma findSep_cases_exact (Hnu : 0 < nu) :
  (deltaH >= nu -> findSep deltaH nu gamma = 0)
  /\ (deltaH < nu -> 0.001 <= findSep deltaH nu gamma <= 0.499).
Proof.
  split; [apply findSep_no_equilibrium|].
  intros Hlt. rewrite findSep_interior by assumption.
  assert (H : in_bracket (for_loop 60 (bisect deltaH nu gamma) (0.001, 0.499))).
  { apply for_loop_invariant; [apply bisect_in_bracket|].
    unfold in_bracket. cbn [fst snd]. lra. }
  destruct H as (H1 & H2 & H3). lra.
Qed.

Lemma Rpower_continuity_pt (c a : R) :
  0 < a -> continuity_pt (fun x => Rpower x c) a.
Proof.
  intros Ha. apply derivable_continuous_pt.
  exists (c * Rpower a (c - 1)). now apply derivable_pt_lim_power.
Qed.

Lemma one_minus_continuity_pt (a : R) : continuity_pt (fun x => 1 - x) a.
Proof.
  change (fun x : R => 1 - x) with (minus_fct (fct_cte 1) id).
  apply continuity_pt_minus.
  - apply continuity_pt_const. intros x y. reflexivity.
  - apply derivable_continuous_pt, derivable_pt_id.
Qed.

(** [nu * g] on the open unit interval, written with [Rpower], is
    continuous there. *)
Lemma nu_g_continuity_pt (a : R) :
  0 < a < 1 ->
  continuity_pt (fun x => - (nu * (Rpower (1 - x) gamma - Rpower x gamma))) a.
Proof.
  intros Ha.
  change (fun x : R => - (nu * (Rpower (1 - x) gamma - Rpower x gamma)))
    with (opp_fct (mult_real_fct nu
                     (minus_fct (comp (fun x => Rpower x gamma) (fun x => 1 - x))
                                (fun x => Rpower x gamma)))).
  apply continuity_pt_opp, continuity_pt_scal, continuity_pt_minus.
  - apply continuity_pt_comp.
    + apply one_minus_continuity_pt.
    + apply Rpower_continuity_pt. lra.
  - apply Rpower_continuity_pt. lra.
Qed.

Lemma g_Rpower (x : R) :
  0 < x < 1 -> g x gamma = Rpower (1 - x) gamma - Rpower x gamma.
Proof. intros Hx. unfold g. rewrite !Math_pow_pos_base by lra. reflexivity. Qed.

(** The equilibrium exists inside the starting bracket when the bracket
    straddles it. *)
Lemma root_exists :
  nu * g 0.499 gamma <= deltaH <= nu * g 0.001 gamma ->
  exists x, 0.001 <= x <= 0.499 /\ nu * g x gamma = deltaH.
Proof.
  intros [H1 H2].
  destruct (Ranalysis5.f_interv_is_interv
              (fun x => - (nu * (Rpower (1 - x) gamma - Rpower x gamma)))
              0.001 0.499 (- deltaH)) as (x & Hx & Ex).
  - lra.
  - rewrite <- !g_Rpower by lra. lra.
  - intros x Hx. apply nu_g_continuity_pt. lra.
  - exists x. split; [exact Hx|]. rewrite g_Rpower by lra. lra.
Qed.

(** C1: for [nu > 0], [gamma >= 1] and [deltaH < nu] with
    [nu * g(0.499, gamma) <= deltaH <= nu * g(0.001, gamma)], where [g]
    is strictly decreasing on [[0, 0.5]], there is exactly one [x*] in
    [[0.001, 0.499]] with [nu * g(x*, gamma) = deltaH], and
    [findSep(deltaH, nu, gamma)] lies within [(0.499 - 0.001) / 2^60] of
    it. *)
Theorem findSep_bisection
    (Hnu : 0 < nu) (Hgamma : 1 <= gamma) (Hlt : deltaH < nu)
    (Hbracket : nu * g 0.499 gamma <= deltaH <= nu * g 0.001 gamma) :
  (forall x y, 0 <= x -> x < y -> y <= 0.5 -> g y gamma < g x gamma)
  /\ exists xstar,
       0.001 <= xstar <= 0.499
       /\ nu * g xstar gamma = deltaH
       /\ (forall y, 0.001 <= y <= 0.499 -> nu * g y gamma = deltaH -> y = xstar)
       /\ Rabs (findSep deltaH nu gamma - xstar) <= (0.499 - 0.001) / 2 ^ 60.
Proof.
  assert (Hg : 0 < gamma) by lra.
  split.
  { intros x y Hx Hxy Hy. apply g_decreasing; lra. }
  destruct (root_exists Hbracket) as (xstar & Hx & Eroot).
  exists xstar. split; [exact Hx|]. split; [exact Eroot|]. split.
  - intros y Hy Ey.
    destruct (Rtotal_order y xstar) as [Hc|[Hc|Hc]]; [exfalso|exact Hc|exfalso].
    + pose proof (g_decreasing y xstar Hg ltac:(lra) Hc ltac:(lra)). nra.
    + pose proof (g_decreasing xstar y Hg ltac:(lra) Hc ltac:(lra)). nra.
  - rewrite findSep_interior by assumption.
    set (b := for_loop 60 (bisect deltaH nu gamma) (0.001, 0.499)).
    assert (Hb : in_bracket b /\ straddles deltaH nu gamma b).
    { apply (for_loop_invariant (fun b => in_bracket b /\ straddles deltaH nu gamma b)).
      - intros a [Ha1 Ha2]. split; [now apply bisect_in_bracket|now apply bisect_straddles].
      - unfold in_bracket, straddles. cbn [fst snd]. lra. }
    destruct Hb as [Hb1 Hb2].
    pose proof (root_in_bracket b xstar Hnu Hg Hb1 Hb2 Hx Eroot) as [Hlo Hhi].
    pose proof (for_loop_bisect_width 60 (0.001, 0.499)) as Hw.
    fold b in Hw. cbn [fst snd] in Hw.
    assert (Hpos : 0 < (0.499 - 0.001) / 2 ^ 60).
    { apply Rdiv_lt_0_compat; [lra|]. apply pow_lt. lra. }
    apply Rabs_le. lra.
Qed.

End BasinFacts.

Section BasinWitnesses.
Import Num Basin.
Local Open Scope R_scope.

Lemma g_cubic (x : R) : 0 <= x <= 1 -> g x 3 = (1 - x) ^ 3 - x ^ 3.
Proof.
  intros Hx. unfold g. replace 3 with (INR 3) by (cbn; lra).
  rewrite !Math_pow_nat by lra. reflexivity.
Qed.

Lemma findSep_bisection_witness :
  (0 < 1 /\ 1 <= 3 /\ 0.5 < 1 /\ 1 * g 0.499 3 <= 0.5 <= 1 * g 0.001 3)
  /\ (forall x y, 0 <= x -> x < y -> y <= 0.5 -> g y 3 < g x 3)
  /\ exists xstar,
       0.001 <= xstar <= 0.499
       /\ 1 * g xstar 3 = 0.5
       /\ (forall y, 0.001 <= y <= 0.499 -> 1 * g y 3 = 0.5 -> y = xstar)
       /\ Rabs (findSep 0.5 1 3 - xstar) <= (0.499 - 0.001) / 2 ^ 60.
Proof.
  assert (H : 1 * g 0.499 3 <= 0.5 <= 1 * g 0.001 3).
  { rewrite !g_cubic by lra. cbn [pow]. lra. }
  split.
  - repeat split; lra.
  - apply (findSep_bisection 0.5 1 3); lra.
Defined.

End BasinWitnesses.

(** ** The replicator update *)

Section ReplicatorFacts.
Import Num Prng Replicator.
Local Open Scope R_scope.

Lemma mapi_from_length {A B : Type} (f : A -> nat -> B) (xs : list A) :
  forall i, List.length (mapi_from i f xs) = List.length xs.
Proof. induction xs as [|x xs IH]; intros i; cbn; [reflexivity|]. now rewrite IH. Qed.

Lemma mapi_from_Forall {A B : Type} (P : B -> Prop) (f : A -> nat -> B) (xs : list A) :
  (forall x i, P (f x i)) -> forall i, Forall P (mapi_from i f xs).
Proof.
  intros Hf. induction xs as [|x xs IH]; intros i; cbn; constructor; auto.
Qed.

Lemma sum_shift (xs : list R) (a : R) : fold_left Rplus xs a = a + sum xs.
Proof.
  unfold sum. revert a. induction xs as [|x xs IH]; intros a; cbn [fold_left].
  - lra.
  - rewrite (IH (a + x)), (IH (0 + x)). lra.
Qed.

Lemma sum_cons (x : R) (xs : list R) : sum (x :: xs) = x + sum xs.
Proof. unfold sum at 1. cbn [fold_left]. rewrite sum_shift. lra. Qed.

Lemma sum_scaled (xs : list R) (c : R) : sum (map (fun v => v / c) xs) = sum xs / c.
Proof.
  induction xs as [|x xs IH]; cbn [map].
  - unfold sum. cbn. lra.
  - rewrite !sum_cons, IH. lra.
Qed.

Lemma sum_floor (xs : list R) (m : R) :
  0 <= m -> Forall (fun v => m <= v) xs -> 0 <= sum xs.
Proof.
  intros Hm H. induction H as [|x xs Hx _ IH].
  - unfold sum. cbn. lra.
  - rewrite sum_cons. lra.
Qed.

Lemma sum_positive (xs : list R) (m : R) :
  0 < m -> xs <> [] -> Forall (fun v => m <= v) xs -> m <= sum xs.
Proof.
  intros Hm Hne H. destruct H as [|x xs Hx Hxs]; [contradiction|].
  rewrite sum_cons. pose proof (sum_floor xs m ltac:(lra) Hxs). lra.
Qed.

(** Dividing a nonempty vector of entries [>= m > 0] by its total gives
    positive entries of total one. *)
Lemma normalize_simplex (xs : list R) (m : R) :
  0 < m -> xs <> [] -> Forall (fun v => m <= v) xs ->
  Forall (fun v => 0 < v) (normalize xs) /\ sum (normalize xs) = 1.
Proof.
  intros Hm Hne H. pose proof (sum_positive xs m Hm Hne H) as Hs.
  unfold normalize. split.
  - apply Forall_map. eapply Forall_impl; [|exact H].
    intros v Hv. cbn. apply Rdiv_lt_0_compat; lra.
  - rewrite sum_scaled. field. lra.
Qed.

Lemma mapi_nonempty {A B : Type} (f : A -> nat -> B) (xs : list A) :
  xs <> [] -> mapi f xs <> [].
Proof. destruct xs; [contradiction|discriminate]. Qed.

Lemma Math_max_floor (a b : R) : a <= Math_max a b.
Proof. apply Rmax_l. Qed.

(** C4: for a share vector [x] over the platforms of [Hvals] with all
    entries positive and a step [dt > 0], one iteration of the update
    loop (with or without the noise term) yields a vector whose entries
    are all strictly positive and whose sum is exactly [1]. *)
Theorem replicator_step_on_simplex
    (Hvals : list R) (nu gamma sigma dt : R) (x : list R) (_seed : Z)
    (Hlen : List.length x = List.length Hvals) (Hne : Hvals <> [])
    (Hpos : Forall (fun xi => 0 < xi) x) (Hdt : 0 < dt) :
  (Forall (fun v => 0 < v) (detStep Hvals nu gamma dt x)
   /\ sum (detStep Hvals nu gamma dt x) = 1)
  /\ (Forall (fun v => 0 < v) (fst (pathStep Hvals nu gamma sigma dt x _seed))
      /\ sum (fst (pathStep Hvals nu gamma sigma dt x _seed)) = 1).
Proof.
  assert (Hx : x <> []).
  { destruct x; [|discriminate]. destruct Hvals; [contradiction|discriminate]. }
  split.
  - unfold detStep. apply (normalize_simplex _ 1e-4); [lra| |].
    + now apply mapi_nonempty.
    + apply mapi_from_Forall. intros xi i. apply Math_max_floor.
  - unfold pathStep. destruct (noise_of sigma dt x _seed) as [noise s']. cbn [fst].
    apply (normalize_simplex _ 1e-4); [lra| |].
    + now apply mapi_nonempty.
    + apply mapi_from_Forall. intros xi i. apply Math_max_floor.
Qed.

Lemma replicator_step_on_simplex_witness :
  (List.length [0.2; 0.2; 0.2; 0.2; 0.2] = List.length Hvals
   /\ Hvals <> []
   /\ Forall (fun xi => 0 < xi) [0.2; 0.2; 0.2; 0.2; 0.2]
   /\ 0 < dt)
  /\ (Forall (fun v => 0 < v) (detStep Hvals nu gamma dt [0.2; 0.2; 0.2; 0.2; 0.2])
      /\ sum (detStep Hvals nu gamma dt [0.2; 0.2; 0.2; 0.2; 0.2]) = 1)
  /\ (Forall (fun v => 0 < v)
        (fst (pathStep Hvals nu gamma sigma dt [0.2; 0.2; 0.2; 0.2; 0.2] 98765))
      /\ sum (fst (pathStep Hvals nu gamma sigma dt [0.2; 0.2; 0.2; 0.2; 0.2] 98765)) = 1).
Proof.
  assert (Hp : Forall (fun xi => 0 < xi) [0.2; 0.2; 0.2; 0.2; 0.2])
    by (repeat constructor; lra).
  assert (Hd : 0 < dt) by (unfold dt; lra).
  split.
  - repeat split; [discriminate|exact Hp|exact Hd].
  - apply (replicator_step_on_simplex Hvals nu gamma sigma dt
             [0.2; 0.2; 0.2; 0.2; 0.2] 98765);
      [reflexivity|discriminate|exact Hp|exact Hd].
Defined.

End ReplicatorFacts.

(** ** The entropy estimators *)

Section EntropyFacts.
Import Num Entropy.
Local Open Scope R_scope.

Lemma exp_pow_nat (x : R) (m : nat) : exp x ^ m = exp (INR m * x).
Proof.
  induction m as [|m IH].
  - cbn [pow]. rewrite Rmult_0_l, exp_0. reflexivity.
  - rewrite S_INR. cbn [pow]. rewrite IH, <- exp_plus. f_equal. lra.
Qed.

Lemma inv_e_half : / exp 1 < / 2.
Proof.
  pose proof (exp_ineq1 1 ltac:(lra)) as H.
  apply Rinv_lt_contravar; [|lra]. apply Rmult_lt_0_compat; lra.
Qed.

(** [(1 - 1/m)^m <= 1/e] *)
Lemma one_minus_inverse_pow (m : nat) :
  (0 < m)%nat -> (1 - / INR m) ^ m <= / exp 1.
Proof.
  intros Hm. assert (Hpos : 0 < INR m) by (apply lt_0_INR; lia).
  assert (H1 : / INR m <= 1).
  { rewrite <- Rinv_1. apply Rinv_le_contravar; [lra|].
    change 1 with (INR 1). apply le_INR. lia. }
  assert (H0 : 0 < / INR m) by now apply Rinv_0_lt_compat.
  apply Rle_trans with (exp (Ropp (/ INR m)) ^ m).
  - apply pow_incr. split; [lra|].
    pose proof (exp_ineq1_le (Ropp (/ INR m))). lra.
  - rewrite exp_pow_nat, <- exp_Ropp. right. f_equal. field. lra.
Qed.

Variable n : Z.
Hypothesis Hn : (1 <= n)%Z.

(** The sample proportion of a nonzero count. *)
Lemma proportion_range (c : Z) :
  (0 < c <= n)%Z -> / IZR n <= IZR c / IZR n <= 1.
Proof.
  intros [Hc0 Hcn].
  assert (Hnpos : 0 < IZR n) by (apply IZR_lt; lia).
  assert (1 <= IZR c) by (apply IZR_le; lia).
  assert (IZR c <= IZR n) by now apply IZR_le.
  assert (0 < / IZR n) by now apply Rinv_0_lt_compat.
  unfold Rdiv. split.
  - rewrite <- (Rmult_1_l (/ IZR n)) at 1. apply Rmult_le_compat_r; lra.
  - rewrite <- (Rinv_r (IZR n)) by lra. apply Rmult_le_compat_r; lra.
Qed.

(** The denominator [1 - (1 - p)^n] of a nonzero count: [Math.pow] is the
    iterated product there, and the value lies in [[1 - 1/e, 1]]. *)
Lemma denominator_range (c : Z) :
  (0 < c <= n)%Z ->
  Math_pow (1 - IZR c / IZR n) (IZR n) = (1 - IZR c / IZR n) ^ Z.to_nat n
  /\ 1 - / exp 1 <= 1 - Math_pow (1 - IZR c / IZR n) (IZR n) <= 1.
Proof.
  intros Hc. pose proof (proportion_range c Hc) as [Hp1 Hp2].
  assert (Hnpos : 0 < IZR n) by (apply IZR_lt; lia).
  assert (0 < / IZR n) by now apply Rinv_0_lt_compat.
  assert (E : Math_pow (1 - IZR c / IZR n) (IZR n) = (1 - IZR c / IZR n) ^ Z.to_nat n).
  { apply Math_pow_Z; [lra|lia]. }
  split; [exact E|]. rewrite E.
  assert (0 <= (1 - IZR c / IZR n) ^ Z.to_nat n) by (apply pow_le; lra).
  assert ((1 - IZR c / IZR n) ^ Z.to_nat n <= / exp 1).
  { apply Rle_trans with ((1 - / INR (Z.to_nat n)) ^ Z.to_nat n).
    - apply pow_incr. rewrite INR_IZR_INZ, Z2Nat.id by lia. lra.
    - apply one_minus_inverse_pow. lia. }
  lra.
Qed.

Lemma skip_not_taken (c : Z) :
  (0 < c <= n)%Z ->
  ltb (1 - Math_pow (1 - IZR c / IZR n) (IZR n)) 1e-12 = false.
Proof.
  intros Hc. pose proof (denominator_range c Hc) as [_ [Hd _]].
  pose proof inv_e_half.
  unfold ltb. destruct (Rlt_dec _ _) as [Hlt|]; [lra|reflexivity].
Qed.

(** The plug-in term of a nonzero count is nonnegative. *)
Lemma plugin_term_nonneg (c : Z) :
  (0 < c <= n)%Z -> 0 <= - (IZR c / IZR n * Math_log (IZR c / IZR n)).
Proof.
  intros Hc. pose proof (proportion_range c Hc) as [Hp1 Hp2].
  assert (0 < / IZR n) by (apply Rinv_0_lt_compat, IZR_lt; lia).
  assert (Math_log (IZR c / IZR n) <= 0).
  { unfold Math_log. destruct Hp2 as [Hlt| ->]; [|rewrite ln_1; lra].
    rewrite <- ln_1. left. apply ln_increasing; lra. }
  nra.
Qed.

Lemma in_total_le (counts : list Z) (c : Z) :
  Forall (fun x => (0 <= x)%Z) counts -> In c counts -> (c <= total counts)%Z.
Proof.
  unfold total. intros H. induction H as [|x xs Hx Hxs IH]; intros Hin; [contradiction|].
  assert (0 <= fold_right Z.add 0 xs)%Z.
  { clear IH Hin. induction Hxs; cbn; lia. }
  cbn [fold_right]. destruct Hin as [<-|Hin]; [lia|]. specialize (IH Hin). lia.
Qed.

Lemma counts_bounded (counts : list Z) :
  Forall (fun c => (0 <= c)%Z) counts -> total counts = n ->
  Forall (fun c => (0 <= c <= n)%Z) counts.
Proof.
  intros H <-. apply Forall_forall. intros c Hin. split.
  - rewrite Forall_forall in H. now apply H.
  - now apply in_total_le.
Qed.

Lemma term_over_denominator (t d : R) :
  t <= 0 -> 0 < d <= 1 -> t / d <= t.
Proof.
  intros Ht [Hd0 Hd1].
  assert (1 <= / d).
  { rewrite <- Rinv_1. apply Rinv_le_contravar; lra. }
  unfold Rdiv. nra.
Qed.

(** Running both loops side by side keeps the accumulators ordered. *)
Lemma folds_ordered (counts : list Z) :
  Forall (fun c => (0 <= c <= n)%Z) counts ->
  forall a b, 0 <= a <= b ->
  0 <= fold_left
         (fun H c =>
            if (c =? 0)%Z then H
            else let p := IZR c / IZR n in H - p * Math_log p)
         counts a
    <= fold_left
         (fun H c =>
            if (c =? 0)%Z then H
            else
              let p := IZR c / IZR n in
              let denom := 1 - Math_pow (1 - p) (IZR n) in
              if ltb denom 1e-12 then H else H - p * Math_log p / denom)
         counts b.
Proof.
  intros H. induction H as [|c cs Hc _ IH]; intros a b Hab; cbn [fold_left]; [lra|].
  destruct (Z.eqb_spec c 0) as [_|Hne]; [now apply IH|].
  assert (Hc' : (0 < c <= n)%Z) by lia.
  cbv zeta. rewrite (skip_not_taken c Hc').
  pose proof (plugin_term_nonneg c Hc') as Ht.
  pose proof (denominator_range c Hc') as [_ [Hd1 Hd2]].
  pose proof inv_e_half.
  pose proof (term_over_denominator (IZR c / IZR n * Math_log (IZR c / IZR n))
                (1 - Math_pow (1 - IZR c / IZR n) (IZR n)) ltac:(lra) ltac:(lra)).
  apply IH. lra.
Qed.




End EntropyFacts.

Section EntropyExamples.
Import Num Entropy.
Local Open Scope R_scope.









End EntropyExamples.

(** ** The binary64 reading *)

Section Binary64Facts.
Import Num Binary64.
Local Open Scope R_scope.

Lemma digits2_pos_lt (m : positive) : (Zpos m < 2 ^ Zpos (digits2_pos m))%Z.
Proof.
  induction m as [m IH|m IH|]; cbn [digits2_pos].
  - rewrite Pos2Z.inj_succ, Z.pow_succ_r by lia. lia.
  - rewrite Pos2Z.inj_succ, Z.pow_succ_r by lia. lia.
  - reflexivity.
Qed.

(** The mantissa of a binary64 number has at most 53 bits. *)
Lemma bounded_mantissa (m : positive) (e : Z) :
  SpecFloat.bounded prec emax m e = true -> (Zpos m < 2 ^ 53)%Z.
Proof.
  unfold SpecFloat.bounded, SpecFloat.canonical_mantissa, SpecFloat.fexp. intros H.
  apply andb_prop in H as [H _]. apply Z.eqb_eq in H.
  pose proof (digits2_pos_lt m) as Hd.
  assert (Hle : (Zpos (digits2_pos m) <= 53)%Z) by (unfold prec in H; lia).
  eapply Z.lt_le_trans; [exact Hd|]. apply Z.pow_le_mono_r; lia.
Qed.

Lemma bpow2_pos (e : Z) : 0 < bpow2 e.
Proof.
  unfold bpow2. destruct (Z.leb_spec 0 e).
  - apply IZR_lt. apply Z.pow_pos_nonneg; lia.
  - apply Rinv_0_lt_compat, IZR_lt. apply Z.pow_pos_nonneg; lia.
Qed.

(** From the exponent [-55] on, a power of two is a multiple of [2^-55]. *)
Lemma bpow2_shift (e : Z) :
  (-55 <= e)%Z -> bpow2 e = IZR (2 ^ (e + 55)) * / 36028797018963968.
Proof.
  intros He. unfold bpow2. destruct (Z.leb_spec 0 e).
  - rewrite Z.pow_add_r by lia. change (2 ^ 55)%Z with 36028797018963968%Z.
    rewrite mult_IZR. field.
  - assert (E : (2 ^ (- e) * 2 ^ (e + 55) = 36028797018963968)%Z).
    { rewrite <- Z.pow_add_r by lia. replace (- e + (e + 55))%Z with 55%Z by lia. reflexivity. }
    apply (f_equal IZR) in E. rewrite mult_IZR in E.
    assert (0 < IZR (2 ^ (- e))) by (apply IZR_lt, Z.pow_pos_nonneg; lia).
    assert (0 < IZR (2 ^ (e + 55))) by (apply IZR_lt, Z.pow_pos_nonneg; lia).
    rewrite <- E. field. lra.
Qed.

Lemma resolution_constants :
  (0.499 - 0.001) / 2 ^ 60 < / 36028797018963968
  /\ / 36028797018963968 < / 16.
Proof.
  replace (2 ^ 60) with 1152921504606846976 by ring.
  split; lra.
Qed.

(** No binary64 number comes closer than [2^-55] to [3/8 - 2^-55]: the
    numbers of exponent [-54] or more are even multiples of [2^-55], the
    others lie below [1/4]. *)
Lemma binary64_far_from_root_tight (f : float) (v : R) :
  float_value f = Some v -> (0.499 - 0.001) / 2 ^ 60 < Rabs (v - root_tight).
Proof.
  destruct resolution_constants as [Hb1 Hb2].
  unfold float_value. pose proof (Prim2SF_valid f) as Hv.
  destruct (Prim2SF f) as [s|s| |s m e]; try discriminate.
  - intros [= <-]. unfold root_tight. rewrite Rabs_left; lra.
  - intros [= <-]. cbn in Hv. pose proof (bounded_mantissa m e Hv) as Hm.
    pose proof (bpow2_pos e) as Hp.
    destruct s; cbn [cond_Zopp].
    + assert (0 < IZR (Z.pos m)) by (apply IZR_lt; lia).
      rewrite opp_IZR.
      assert (Hneg : - IZR (Z.pos m) * bpow2 e < 0) by nra.
      revert Hneg. generalize (- IZR (Z.pos m) * bpow2 e). intros v Hneg.
      unfold root_tight. rewrite Rabs_left; lra.
    + destruct (Z_le_gt_dec (-54) e) as [He|He].
      * rewrite bpow2_shift by lia.
        set (M := (Z.pos m * 2 ^ (e + 55))%Z).
        assert (EM : IZR (Z.pos m) * (IZR (2 ^ (e + 55)) * / 36028797018963968)
                     - root_tight
                     = IZR (M - 13510798882111487) * / 36028797018963968).
        { unfold M, root_tight. rewrite minus_IZR, mult_IZR. field. }
        rewrite EM.
        assert (Hodd : (M - 13510798882111487 <> 0)%Z).
        { unfold M. replace (e + 55)%Z with (Z.succ (e + 54)) by lia.
          rewrite Z.pow_succ_r by lia. lia. }
        assert (Hone : 1 <= Rabs (IZR (M - 13510798882111487))).
        { rewrite <- abs_IZR. apply IZR_le. lia. }
        rewrite Rabs_mult, (Rabs_right (/ 36028797018963968)) by lra.
        nra.
      * unfold bpow2. destruct (Z.leb_spec 0 e); [lia|].
        assert (Hk : (4 * Z.pos m < 2 ^ (- e))%Z).
        { apply Z.lt_le_trans with (2 ^ 55)%Z; [lia|].
          apply Z.pow_le_mono_r; lia. }
        apply IZR_lt in Hk. rewrite mult_IZR in Hk.
        assert (Hq : 0 < IZR (2 ^ (- e))) by (apply IZR_lt, Z.pow_pos_nonneg; lia).
        assert (Hv4 : IZR (Z.pos m) * / IZR (2 ^ (- e)) < / 4).
        { apply Rmult_lt_reg_r with (IZR (2 ^ (- e))); [lra|].
          rewrite Rmult_assoc, Rinv_l by lra. lra. }
        unfold root_tight. rewrite Rabs_left; lra.
Qed.

Lemma float_value_deltaH_tight :
  float_value deltaH_tight = Some (/ 4 + / 18014398509481984).
Proof.
  unfold float_value.
  change (Prim2SF deltaH_tight) with (S754_finite false 4503599627370497 (-54)).
  cbn [cond_Zopp]. unfold bpow2. change (0 <=? -54)%Z with false. cbv iota.
  change (2 ^ (- -54))%Z with 18014398509481984%Z. f_equal. lra.
Qed.

Lemma float_value_one : float_value 1%float = Some 1.
Proof.
  unfold float_value.
  change (Prim2SF 1%float) with (S754_finite false 4503599627370496 (-52)).
  cbn [cond_Zopp]. unfold bpow2. change (0 <=? -52)%Z with false. cbv iota.
  change (2 ^ (- -52))%Z with 4503599627370496%Z. f_equal. lra.
Qed.

(** With exponent [1] the exact [g] is [1 - 2 x] on the open unit interval. *)
Lemma g_linear (x : R) : 0 < x < 1 -> Basin.g x 1 = 1 - 2 * x.
Proof.
  intros Hx. unfold Basin.g. rewrite !Math_pow_pos_base, !Rpower_1 by lra. lra.
Qed.

(** The guard of [findSep] on the binary64 reading. *)
Lemma findSep_binary64_guard (pow_rest : float -> float -> float) (deltaH nu gamma : float) :
  PrimFloat.leb nu deltaH = true -> Binary64.findSep pow_rest deltaH nu gamma = 0%float.
Proof. intros H. unfold Binary64.findSep. now rewrite H. Qed.

(** C1 does not survive the binary64 reading.  Take [nu = 1],
    [gamma = 1] and [deltaH] one unit in the last place above [1/4]: the
    hypotheses of the claim hold, the equilibrium is
    [x* = 3/8 - 2^-55], and whatever [Math.pow] returns, the binary64
    number that [findSep] returns is farther than
    [(0.499 - 0.001) / 2^60] from it. *)
Lemma findSep_misses_bound_in_binary64 :
  (float_value deltaH_tight = Some (/ 4 + / 18014398509481984)
   /\ float_value 1%float = Some 1)
  /\ (0 < 1 /\ 1 <= 1 /\ / 4 + / 18014398509481984 < 1
      /\ 1 * Basin.g 0.499 1 <= / 4 + / 18014398509481984 <= 1 * Basin.g 0.001 1)
  /\ (0.001 <= root_tight <= 0.499
      /\ 1 * Basin.g root_tight 1 = / 4 + / 18014398509481984
      /\ forall y, 0.001 <= y <= 0.499 ->
                   1 * Basin.g y 1 = / 4 + / 18014398509481984 -> y = root_tight)
  /\ forall (pow_rest : float -> float -> float) (v : R),
       float_value (Binary64.findSep pow_rest deltaH_tight 1 1) = Some v ->
       (0.499 - 0.001) / 2 ^ 60 < Rabs (v - root_tight).
Proof.
  split; [split; [apply float_value_deltaH_tight|apply float_value_one]|].
  split.
  { rewrite !g_linear by lra. lra. }
  split.
  { unfold root_tight. split; [lra|]. split.
    - rewrite g_linear by lra. lra.
    - intros y Hy. rewrite g_linear by lra. lra. }
  intros pow_rest v. apply binary64_far_from_root_tight.
Qed.

(** The value of a positive binary64 number with a negative exponent. *)
Lemma float_value_finite (f : float) (m : positive) (k : positive) :
  Prim2SF f = S754_finite false m (Z.neg k) ->
  float_value f = Some (IZR (Z.pos m) / IZR (2 ^ Z.pos k)).
Proof.
  intros E. unfold float_value. rewrite E. cbn [cond_Zopp]. unfold bpow2.
  change (0 <=? Z.neg k)%Z with false. cbv iota.
  change (- Z.neg k)%Z with (Z.pos k). reflexivity.
Qed.

(** One update of the share vector [0.5, 0.2, 0.15, 0.1, 0.05] with the
    constants of the chart and exponent [0], for which the language fixes
    [Math.pow(x, 0) = 1]. *)
Lemma detStep_shares_example (pow_rest : float -> float -> float) :
  Binary64.detStep pow_rest Binary64.Hvals Binary64.nu 0 Binary64.dt shares_example
  = [0.51275000000000004; 0.20110000000000003; 0.14632500000000001;
     0.094550000000000009; 0.045275000000000003]%float.
Proof. vm_compute. reflexivity. Qed.

(** C4 does not survive the binary64 reading.  On the share vector
    [0.5, 0.2, 0.15, 0.1, 0.05] (all entries positive, [dt = 0.1 > 0],
    the [Hvals] and [nu] of the chart, exponent [0]), whatever the
    implementation of [Math.pow], the vector after one update sums to
    [1.0000000000000002] when added up in binary64, and to
    [1 + 13 / 2^57] without rounding. *)
Lemma detStep_sum_off_one_in_binary64 :
  (Forall (fun xi => PrimFloat.ltb 0 xi = true) shares_example
   /\ PrimFloat.ltb 0 Binary64.dt = true)
  /\ forall pow_rest : float -> float -> float,
       Binary64.sum
         (Binary64.detStep pow_rest Binary64.Hvals Binary64.nu 0 Binary64.dt shares_example)
       = 1.0000000000000002%float
       /\ PrimFloat.eqb 1.0000000000000002 1 = false
       /\ Binary64.exact_sum
            (Binary64.detStep pow_rest Binary64.Hvals Binary64.nu 0 Binary64.dt shares_example)
          = Some (1 + 13 / 144115188075855872)
       /\ 1 + 13 / 144115188075855872 <> 1.
Proof.
  split.
  { split; [repeat constructor|reflexivity]. }
  intros pow_rest. rewrite detStep_shares_example.
  split; [vm_compute; reflexivity|]. split; [reflexivity|]. split; [|lra].
  unfold exact_sum. cbn [fold_left].
  rewrite (float_value_finite 0.51275000000000004 4618441417868444 53 eq_refl).
  rewrite (float_value_finite 0.20110000000000003 7245391080513655 55 eq_refl).
  rewrite (float_value_finite 0.14632500000000001 5271913723799903 55 eq_refl).
  rewrite (float_value_finite 0.094550000000000009 6813045516286087 56 eq_refl).
  rewrite (float_value_finite 0.045275000000000003 6524815140134375 57 eq_refl).
  change (2 ^ 53)%Z with 9007199254740992%Z.
  change (2 ^ 55)%Z with 36028797018963968%Z.
  change (2 ^ 56)%Z with 72057594037927936%Z.
  change (2 ^ 57)%Z with 144115188075855872%Z.
  f_equal. lra.
Qed.

(** *** The same failures for the usual implementations of [Math.pow] *)

Lemma for_loop_ext {A : Type} (f1 f2 : A -> A) :
  (forall a, f1 a = f2 a) -> forall n a, for_loop n f1 a = for_loop n f2 a.
Proof.
  intros H n. induction n as [|n IH]; intros a; cbn [for_loop]; [reflexivity|].
  now rewrite H, IH.
Qed.

(** [findSep] calls [Math.pow] with the exponent [gamma] only. *)
Lemma findSep_binary64_ext (p1 p2 : float -> float -> float) (deltaH nu gamma : float) :
  (forall x, p1 x gamma = p2 x gamma) ->
  Binary64.findSep p1 deltaH nu gamma = Binary64.findSep p2 deltaH nu gamma.
Proof.
  intros H. unfold Binary64.findSep.
  rewrite (for_loop_ext (bisect p1 deltaH nu gamma) (bisect p2 deltaH nu gamma)); [reflexivity|].
  intros [lo hi]. unfold bisect, Binary64.g, Binary64.Math_pow. now rewrite !H.
Qed.

(** With [Math.pow(x, 1) = x], [deltaH = 0.5], [nu = 1], [gamma = 1]: the
    equilibrium is [x* = 1/4], a binary64 number, and [findSep] returns
    its predecessor but one, [1/4 - 2^-54]. *)
Lemma findSep_binary64_at_half (pow_rest : float -> float -> float) :
  (forall x, pow_rest x 1%float = x) ->
  Binary64.findSep pow_rest 0.5 1 1 = 0.24999999999999994%float
  /\ float_value 0.24999999999999994 = Some (/ 4 - / 18014398509481984)
  /\ 1 * Basin.g (/ 4) 1 = 0.5.
Proof.
  intros H. split; [|split].
  - rewrite (findSep_binary64_ext pow_rest pow_identity) by (intros x; apply H).
    vm_compute. reflexivity.
  - rewrite (float_value_finite 0.24999999999999994 9007199254740990 55 eq_refl).
    change (2 ^ 55)%Z with 36028797018963968%Z. f_equal. lra.
  - rewrite g_linear by lra. lra.
Qed.

Lemma mapi_from_ext_in {A B : Type} (f1 f2 : A -> nat -> B) (xs : list A) :
  (forall x i, In x xs -> f1 x i = f2 x i) ->
  forall i, mapi_from i f1 xs = mapi_from i f2 xs.
Proof.
  induction xs as [|x xs IH]; intros H i; cbn [mapi_from]; [reflexivity|].
  rewrite H by (now left). rewrite IH; [reflexivity|].
  intros y j Hy. apply H. now right.
Qed.

(** [detStep] calls [Math.pow] on the entries of the vector only. *)
Lemma detStep_binary64_ext (p1 p2 : float -> float -> float)
    (Hv : list float) (nu0 gamma dt0 : float) (x : list float) :
  (forall xi, In xi x -> p1 xi gamma = p2 xi gamma) ->
  Binary64.detStep p1 Hv nu0 gamma dt0 x = Binary64.detStep p2 Hv nu0 gamma dt0 x.
Proof.
  intros H. unfold Binary64.detStep.
  assert (E : mapi (fun xi i => (nth i Hv nan + nu0 * Binary64.Math_pow p1 xi gamma)%float) x
              = mapi (fun xi i => (nth i Hv nan + nu0 * Binary64.Math_pow p2 xi gamma)%float) x).
  { apply mapi_from_ext_in. intros xi i Hin. unfold Binary64.Math_pow.
    now rewrite (H xi Hin). }
  now rewrite E.
Qed.

Lemma powers_example_nearest :
  Forall (fun xp => nearest_pow_1_5 (fst xp) (snd xp)) powers_example.
Proof.
  repeat constructor; cbn [fst snd].
  - exists 4503599627370496%positive, 53%positive, 6369051672525773%positive, 54%positive.
    repeat split; reflexivity.
  - exists 7205759403792794%positive, 55%positive, 6445027142555618%positive, 56%positive.
    repeat split; reflexivity.
  - exists 5404319552844595%positive, 55%positive, 8372335850300092%positive, 57%positive.
    repeat split; reflexivity.
  - exists 7205759403792794%positive, 56%positive, 4557322397432435%positive, 57%positive.
    repeat split; reflexivity.
  - exists 7205759403792794%positive, 57%positive, 6445027142555618%positive, 59%positive.
    repeat split; reflexivity.
Qed.

(** With the exponent [1.5] of the chart and a [Math.pow] that rounds to
    nearest on the five entries, the update of [shares_example] adds up
    to [0.9999999999999998] in binary64. *)
Lemma detStep_sum_off_one_nearest_pow (pow_rest : float -> float -> float) :
  (forall x p, In (x, p) powers_example -> pow_rest x 1.5%float = p) ->
  Binary64.sum
    (Binary64.detStep pow_rest Binary64.Hvals Binary64.nu 1.5 Binary64.dt shares_example)
  = 0.9999999999999998%float.
Proof.
  intros H.
  rewrite (detStep_binary64_ext pow_rest pow_lookup).
  - vm_compute. reflexivity.
  - intros xi Hin. unfold shares_example in Hin. cbn [In] in Hin.
    destruct Hin as [<-|[<-|[<-|[<-|[<-|[]]]]]];
      (erewrite H; [reflexivity|unfold powers_example; cbn [In]; tauto]).
Qed.

End Binary64Facts.

(** ** Rounding of sums and halves in binary64 *)

Section Binary64Rounding.
Import Num Binary64.
Local Open Scope Z_scope.

(** *** Bit lengths *)

(** A positive of [d] bits lies in [[2^(d-1), 2^d)], and conversely. *)
Lemma digits2_pos_bounds (m : positive) :
  2 ^ (Zpos (digits2_pos m) - 1) <= Zpos m < 2 ^ Zpos (digits2_pos m).
Proof.
  induction m as [m IH|m IH|]; cbn [digits2_pos].
  - rewrite Pos2Z.inj_succ. replace (Z.succ (Z.pos (digits2_pos m)) - 1) with (Z.succ (Z.pos (digits2_pos m) - 1)) by lia.
    rewrite !Z.pow_succ_r by lia. lia.
  - rewrite Pos2Z.inj_succ. replace (Z.succ (Z.pos (digits2_pos m)) - 1) with (Z.succ (Z.pos (digits2_pos m) - 1)) by lia.
    rewrite !Z.pow_succ_r by lia. lia.
  - cbn. lia.
Qed.

Lemma digits2_pos_unique (m : positive) (d : Z) :
  2 ^ (d - 1) <= Zpos m < 2 ^ d -> Zpos (digits2_pos m) = d.
Proof.
  intros [H1 H2]. pose proof (digits2_pos_bounds m) as [B1 B2].
  assert (0 < d).
  { destruct (Z_lt_le_dec 0 d); [assumption|]. 
    assert (2 ^ d <= 2 ^ 0) by (destruct (Z_lt_le_dec d 0); [rewrite Z.pow_neg_r by lia; cbn; lia|apply Z.pow_le_mono_r; lia]).
    cbn in *. lia. }
  destruct (Z.lt_trichotomy (Zpos (digits2_pos m)) d) as [Hlt|[Heq|Hgt]]; [|assumption|].
  - assert (2 ^ Zpos (digits2_pos m) <= 2 ^ (d - 1)) by (apply Z.pow_le_mono_r; lia). lia.
  - assert (2 ^ d <= 2 ^ (Zpos (digits2_pos m) - 1)) by (apply Z.pow_le_mono_r; lia). lia.
Qed.

(** *** Shifts *)

Lemma iter_xO (m d : positive) : Zpos (Pos.iter xO m d) = Zpos m * 2 ^ Zpos d.
Proof.
  induction d as [|d IH] using Pos.peano_ind.
  - cbn. lia.
  - rewrite Pos.iter_succ, Pos2Z.inj_succ, Z.pow_succ_r by lia.
    rewrite Pos2Z.inj_xO, IH. lia.
Qed.

(** right shifts *)
Lemma iter_pos_nat {A} (f : A -> A) (p : positive) (x : A) :
  SpecFloat.iter_pos f p x = Nat.iter (Pos.to_nat p) f x.
Proof.
  revert x. induction p as [p IH|p IH|]; intros x; cbn [SpecFloat.iter_pos].
  - rewrite !IH, Pos2Nat.inj_xI.
    replace (S (2 * Pos.to_nat p))%nat with (Pos.to_nat p + (Pos.to_nat p + 1))%nat by lia.
    rewrite !Nat.iter_add. reflexivity.
  - rewrite !IH, Pos2Nat.inj_xO.
    replace (2 * Pos.to_nat p)%nat with (Pos.to_nat p + Pos.to_nat p)%nat by lia.
    rewrite Nat.iter_add. reflexivity.
  - reflexivity.
Qed.

(** one right shift, on a nonnegative mantissa *)
(** One right shift halves the mantissa; the round and sticky bits stay
    clear as long as the bits shifted out are zero. *)
Lemma shr_1_spec (mrs : shr_record) :
  0 <= shr_m mrs ->
  shr_m (shr_1 mrs) = shr_m mrs / 2
  /\ shr_r (shr_1 mrs) = Z.odd (shr_m mrs)
  /\ shr_s (shr_1 mrs) = (shr_r mrs || shr_s mrs)%bool.
Proof.
  destruct mrs as [m r s]. cbn [shr_m shr_r shr_s]. intros Hm.
  destruct m as [|[p|p|]|p]; cbn [shr_1 shr_m shr_r shr_s]; try lia.
  - repeat split.
  - repeat split. rewrite Pos2Z.inj_xI. apply Z.div_unique with 1; lia.
  - repeat split. rewrite Pos2Z.inj_xO. apply Z.div_unique with 0; lia.
  - repeat split.
Qed.

(** [k] right shifts of an exact record *)
Lemma shr_iter_spec (M : Z) (k : nat) :
  0 <= M ->
  let mrs := Nat.iter k shr_1 (Build_shr_record M false false) in
  shr_m mrs = M / 2 ^ Z.of_nat k
  /\ (M mod 2 ^ Z.of_nat k = 0 -> shr_r mrs = false /\ shr_s mrs = false).
Proof.
  intros HM. induction k as [|k IH]; cbn zeta.
  - cbn [Nat.iter shr_m shr_r shr_s]. change (2 ^ Z.of_nat 0) with 1.
    rewrite Z.div_1_r. auto.
  - cbn zeta in IH. destruct IH as [IHm IHrs]. rewrite !Nat.iter_succ.
    set (mrs := Nat.iter k shr_1 (Build_shr_record M false false)) in *.
    assert (Hpos : 0 <= shr_m mrs).
    { rewrite IHm. apply Z.div_pos; [lia|]. apply Z.pow_pos_nonneg; lia. }
    destruct (shr_1_spec mrs Hpos) as (E1 & E2 & E3).
    assert (Hp : 0 < 2 ^ Z.of_nat k) by (apply Z.pow_pos_nonneg; lia).
    rewrite Nat2Z.inj_succ, Z.pow_succ_r by lia.
    split.
    + rewrite E1, IHm, Z.div_div by lia. f_equal. lia.
    + intros Hmod.
      assert (Hk : M mod 2 ^ Z.of_nat k = 0).
      { pose proof (Z.div_mod M (2 * 2 ^ Z.of_nat k) ltac:(lia)) as D.
        rewrite Hmod in D. rewrite D at 1.
        replace (2 * 2 ^ Z.of_nat k * (M / (2 * 2 ^ Z.of_nat k)) + 0)
          with ((2 * (M / (2 * 2 ^ Z.of_nat k))) * 2 ^ Z.of_nat k) by lia.
        apply Z.mod_mul. lia. }
      destruct (IHrs Hk) as [Hr Hs]. rewrite E2, E3, Hr, Hs. split; [|reflexivity].
      rewrite IHm.
      pose proof (Z.div_mod M (2 * 2 ^ Z.of_nat k) ltac:(lia)) as D.
      rewrite Hmod in D.
      assert (Eq : M / 2 ^ Z.of_nat k = 2 * (M / (2 * 2 ^ Z.of_nat k))).
      { symmetry. apply Z.div_unique with 0; lia. }
      rewrite Eq. rewrite Z.odd_mul. reflexivity.
Qed.

Lemma Zdigits2_bounds (M : Z) :
  0 < M -> 2 ^ (Zdigits2 M - 1) <= M < 2 ^ Zdigits2 M.
Proof.
  destruct M as [|p|p]; try lia. intros _. cbn [Zdigits2]. apply digits2_pos_bounds.
Qed.

Lemma Zdigits2_unique (M d : Z) :
  2 ^ (d - 1) <= M < 2 ^ d -> 0 < M -> Zdigits2 M = d.
Proof.
  destruct M as [|p|p]; try lia. intros H _. cbn [Zdigits2]. now apply digits2_pos_unique.
Qed.

(** *** Rounding to 53 bits *)

(** A mantissa of at least 53 bits is shifted right down to 53 bits. *)
Lemma shr_fexp_spec (M ex : Z) :
  0 < M -> 53 <= Zdigits2 M -> -1074 <= ex + Zdigits2 M - 53 ->
  exists mrs,
    shr_fexp prec emax M ex loc_Exact = (mrs, ex + (Zdigits2 M - 53))
    /\ shr_m mrs = M / 2 ^ (Zdigits2 M - 53)
    /\ (M mod 2 ^ (Zdigits2 M - 53) = 0 -> loc_of_shr_record mrs = loc_Exact).
Proof.
  intros HM Hd He. unfold shr_fexp, shr, fexp, emin, prec, emax. cbn [shr_record_of_loc].
  replace (Z.max (Zdigits2 M + ex - 53) (3 - 1024 - 53) - ex) with (Zdigits2 M - 53) by lia.
  destruct (Zdigits2 M - 53) as [|p|p] eqn:En; try lia.
  - eexists. split; [rewrite Z.add_0_r; reflexivity|]. cbn [shr_m].
    split; [now rewrite Z.div_1_r|reflexivity].
  - rewrite iter_pos_nat.
    pose proof (shr_iter_spec M (Pos.to_nat p) ltac:(lia)) as S. cbn zeta in S.
    rewrite positive_nat_Z in S. destruct S as [S1 S2].
    eexists. split; [reflexivity|]. split; [exact S1|].
    intros Hmod. destruct (S2 Hmod) as [Hr Hs].
    destruct (Nat.iter (Pos.to_nat p) shr_1 _) as [m r s]. cbn [shr_r shr_s] in *. subst. reflexivity.
Qed.

Lemma round_nearest_even_bounds (m : Z) (l : location) :
  m <= round_nearest_even m l <= m + 1
  /\ (l = loc_Exact -> round_nearest_even m l = m).
Proof.
  unfold round_nearest_even. destruct l as [|[| |]]; try (destruct (Z.even m)); split; try lia; auto; discriminate.
Qed.

(** Rounding [M * 2^ex] to nearest even, [M] of [d >= 53] bits and the
    result in the normal range: the result is a positive normal number,
    between [M] truncated to 53 bits and its successor (the truncation
    itself when no bit is lost), with a carry into the next binade
    when that successor is [2^53]. *)
Lemma binary_round_aux_spec (M ex : Z) :
  0 < M -> 53 <= Zdigits2 M -> -1074 <= ex + Zdigits2 M - 53 -> ex + Zdigits2 M - 53 < 971 ->
  exists m'' e'',
    binary_round_aux prec emax false M ex loc_Exact = S754_finite false m'' e''
    /\ Zpos (digits2_pos m'') = 53
    /\ ((e'' = ex + (Zdigits2 M - 53)
         /\ M / 2 ^ (Zdigits2 M - 53) <= Zpos m''
            <= M / 2 ^ (Zdigits2 M - 53) + (if M mod 2 ^ (Zdigits2 M - 53) =? 0 then 0 else 1))
        \/ (e'' = ex + (Zdigits2 M - 53) + 1
            /\ Zpos m'' = 2 ^ 52
            /\ M / 2 ^ (Zdigits2 M - 53) + (if M mod 2 ^ (Zdigits2 M - 53) =? 0 then 0 else 1) = 2 ^ 53)).
Proof.
  intros HM Hd He1 He2.
  set (n := Zdigits2 M - 53) in *.
  destruct (shr_fexp_spec M ex HM Hd He1) as (mrs & E & Em & Eloc). fold n in E, Em, Eloc.
  unfold binary_round_aux. rewrite E.
  set (q := M / 2 ^ n) in *.
  pose proof (Zdigits2_bounds M HM) as [B1 B2].
  assert (Hn : 0 <= n) by lia.
  assert (Hpn : 0 < 2 ^ n) by (apply Z.pow_pos_nonneg; lia).
  assert (Hq : 2 ^ 52 <= q < 2 ^ 53).
  { unfold q. replace (Zdigits2 M - 1) with (52 + n) in B1 by lia.
    replace (Zdigits2 M) with (53 + n) in B2 by lia.
    rewrite Z.pow_add_r in B1, B2 by lia. split.
    - apply Z.div_le_lower_bound; lia.
    - apply Z.div_lt_upper_bound; lia. }
  destruct (round_nearest_even_bounds (shr_m mrs) (loc_of_shr_record mrs)) as [Hr Hex].
  rewrite Em in Hr, Hex |- *. fold q in Hr, Hex |- *.
  set (m' := round_nearest_even q (loc_of_shr_record mrs)) in *.
  assert (Hc : m' <= q + (if M mod 2 ^ n =? 0 then 0 else 1)).
  { destruct (Z.eqb_spec (M mod 2 ^ n) 0) as [Hz|Hz]; [|lia].
    rewrite (Hex (Eloc Hz)). lia. }
  destruct (Z_lt_le_dec m' (2 ^ 53)) as [Hlt|Hge].
  - (* no carry *)
    assert (Ed : Zdigits2 m' = 53) by (apply Zdigits2_unique; lia).
    destruct (shr_fexp_spec m' (ex + n) ltac:(lia) ltac:(lia) ltac:(lia)) as (mrs2 & E2 & Em2 & _).
    rewrite Ed in E2, Em2. change (53 - 53) with 0 in E2, Em2.
    rewrite E2, Em2. change (2 ^ 0) with 1. rewrite Z.div_1_r.
    destruct m' as [|p|p] eqn:Ep; try lia.
    exists p, (ex + n + 0). unfold prec, emax.
    destruct (Z.leb_spec (ex + n + 0) (1024 - 53)); [|lia].
    split; [reflexivity|]. split; [exact Ed|]. left. split; [lia|]. lia.
  - (* carry into the next binade *)
    assert (Em' : m' = 2 ^ 53) by lia.
    assert (Ed : Zdigits2 m' = 54) by (apply Zdigits2_unique; lia).
    destruct (shr_fexp_spec m' (ex + n) ltac:(lia) ltac:(lia) ltac:(lia)) as (mrs2 & E2 & Em2 & _).
    rewrite Ed in E2, Em2. change (54 - 53) with 1 in E2, Em2.
    rewrite E2, Em2, Em'. change (2 ^ 53 / 2 ^ 1) with (Z.pos 4503599627370496).
    exists 4503599627370496%positive, (ex + n + 1). unfold prec, emax.
    destruct (Z.leb_spec (ex + n + 1) (1024 - 53)); [|lia].
    split; [reflexivity|]. split; [reflexivity|]. right. split; [reflexivity|].
    split; [reflexivity|]. destruct (M mod 2 ^ n =? 0); lia.
Qed.

(** *** The order of positive normal numbers *)

Lemma is53_bounds (m : positive) : is53 m -> 2 ^ 52 <= Zpos m < 2 ^ 53.
Proof.
  unfold is53. intros H. pose proof (digits2_pos_bounds m) as B. rewrite H in B. exact B.
Qed.

Lemma lexle_refl m e : lexle m e m e.
Proof. right. split; lia. Qed.

Lemma lexle_trans m1 e1 m2 e2 m3 e3 :
  lexle m1 e1 m2 e2 -> lexle m2 e2 m3 e3 -> lexle m1 e1 m3 e3.
Proof. unfold lexle. lia. Qed.

Lemma shl_align_le (m : positive) (e e' : Z) :
  e' <= e -> Zpos (fst (shl_align m e e')) = Zpos m * 2 ^ (e - e').
Proof.
  intros H. unfold shl_align. destruct (e' - e) as [|p|p] eqn:E; try lia.
  - replace (e - e') with 0 by lia. cbn [fst]. lia.
  - cbn [fst]. rewrite iter_xO. f_equal. f_equal. lia.
Qed.

Lemma shl_align_ge (m : positive) (e e' : Z) :
  e <= e' -> shl_align m e e' = (m, e).
Proof.
  intros H. unfold shl_align. destruct (e' - e) as [|p|p] eqn:E; try lia; reflexivity.
Qed.

Lemma pow2_lt_inv (a b : Z) : 0 <= b -> 2 ^ a < 2 ^ b -> a < b.
Proof.
  intros Hb H. destruct (Z_lt_le_dec a b) as [Hl|Hg]; [assumption|].
  assert (2 ^ b <= 2 ^ a) by (apply Z.pow_le_mono_r; lia). lia.
Qed.

(** *** The midpoint *)

(** For positive normal [lo <= hi], half of the rounded sum [lo + hi]
    lies between [lo] and [hi]: the sum is a positive normal number
    [m * 2^e] with [lo <= m * 2^(e-1) <= hi]. *)
Lemma SFadd_spec53 (ml : positive) (el : Z) (mh : positive) (eh : Z) :
  is53 ml -> is53 mh -> -1000 <= el -> eh <= 900 -> lexle ml el mh eh ->
  exists m e,
    SFadd prec emax (S754_finite false ml el) (S754_finite false mh eh) = S754_finite false m e
    /\ is53 m /\ lexle ml el m (e - 1) /\ lexle m (e - 1) mh eh.
Proof.
  intros Hl Hh Hel Heh Hle.
  pose proof (is53_bounds ml Hl) as Bl. pose proof (is53_bounds mh Hh) as Bh.
  assert (Hee : el <= eh) by (unfold lexle in Hle; lia).
  unfold SFadd. rewrite Z.min_l by lia. cbn [cond_Zopp].
  rewrite (shl_align_ge ml el el) by lia. cbn [fst].
  pose proof (shl_align_le mh eh el Hee) as Eh.
  set (a := eh - el) in *. assert (Ha : 0 <= a) by lia.
  assert (HP : 1 <= 2 ^ a) by (pose proof (Z.pow_pos_nonneg 2 a); lia).
  set (P := 2 ^ a) in *.
  destruct (Z.pos ml + Z.pos (fst (shl_align mh eh el))) as [|p|p] eqn:EM; try lia.
  rewrite Eh in EM. cbn [binary_normalize]. unfold binary_round.
  assert (HlowP : Zpos ml <= Zpos mh * P).
  { destruct Hle as [Hlt|[Heq Hm]].
    - assert (2 <= P).
      { unfold P. change 2 with (2 ^ 1) at 1. apply Z.pow_le_mono_r; lia. }
      nia.
    - assert (P = 1) by (unfold P, a; replace (eh - el) with 0 by lia; reflexivity). nia. }
  assert (HM1 : 2 ^ 53 <= Zpos p) by nia.
  assert (HM2 : Zpos p <= 2 * (Zpos mh * P)) by lia.
  assert (HM3 : Zpos p < 2 ^ (54 + a)).
  { rewrite Z.pow_add_r by lia. fold P. nia. }
  pose proof (Zdigits2_bounds (Zpos p) ltac:(lia)) as [D1 D2]. cbn [Zdigits2] in D1, D2.
  set (d := Zpos (digits2_pos p)) in *.
  assert (Hd1 : 54 <= d).
  { assert (53 < d); [|lia]. apply pow2_lt_inv; [unfold d; lia|lia]. }
  assert (Hd2 : d <= 54 + a).
  { assert (d - 1 < 54 + a); [|lia]. apply pow2_lt_inv; lia. }
  rewrite shl_align_ge by (unfold fexp, emin, prec, emax; lia).
  destruct (binary_round_aux_spec (Zpos p) el ltac:(lia)) as (m & e & E & Hm & Hcase);
    cbn [Zdigits2]; fold d; try lia.
  cbn [Zdigits2] in Hcase. fold d in Hcase.
  exists m, e. split; [exact E|]. split; [exact Hm|].
  pose proof (is53_bounds m Hm) as Bm.
  set (n := d - 53) in *.
  assert (Hn : 1 <= n <= a + 1) by lia.
  set (G := 2 ^ n) in *.
  assert (HG : 0 < G) by (apply Z.pow_pos_nonneg; lia).
  pose proof (Z.div_mod (Zpos p) G ltac:(lia)) as DM.
  pose proof (Z.mod_pos_bound (Zpos p) G HG) as MB.
  set (q := Zpos p / G) in *. set (r := Zpos p mod G) in *.
  assert (Hc : q + (if r =? 0 then 0 else 1) = q + 1 /\ r <> 0 \/ q + (if r =? 0 then 0 else 1) = q /\ r = 0).
  { destruct (Z.eqb_spec r 0); lia. }
  set (c := q + (if r =? 0 then 0 else 1)) in *.
  (* when the exponent of the sum reaches that of [2 * hi] *)
  assert (Htop : n = a + 1 -> c <= Zpos mh).
  { intros En. assert (EG : G = 2 * P).
    { unfold G, P. rewrite En, Z.pow_add_r by lia. lia. }
    nia. }
  assert (Hbot : n = 1 -> Zpos ml <= q).
  { intros En. assert (EG : G = 2) by (unfold G; rewrite En; reflexivity). nia. }
  destruct Hcase as [[Ee Hq]|[Ee [Em Hq]]].
  - split.
    + unfold lexle. destruct (Z.eq_dec n 1) as [En|En]; [right|left]; [|lia].
      split; [lia|]. specialize (Hbot En). lia.
    + unfold lexle. destruct (Z.eq_dec n (a + 1)) as [En|En]; [right|left]; [|lia].
      split; [lia|]. specialize (Htop En). lia.
  - assert (Hna : n <> a + 1) by (intros En; specialize (Htop En); lia).
    split.
    + unfold lexle. left. lia.
    + unfold lexle. destruct (Z.eq_dec n a) as [En|En]; [right|left]; [|lia].
      split; [lia|]. lia.
Qed.

(** Dividing a positive normal number by [2] lowers its exponent by one. *)
Lemma SFdiv_two (m : positive) (e : Z) :
  is53 m -> -1000 <= e -> e <= 900 ->
  SFdiv prec emax (S754_finite false m e) (S754_finite false 4503599627370496 (-51))
  = S754_finite false m (e - 1).
Proof.
  intros Hm He1 He2. pose proof (is53_bounds m Hm) as Bm.
  unfold SFdiv, SFdiv_core_binary. cbn [Zdigits2 xorb].
  unfold is53 in Hm. rewrite Hm.
  change (Z.pos (digits2_pos 4503599627370496)) with 53.
  replace (fexp prec emax (53 + e - (53 + -51))) with (e - 2)
    by (unfold fexp, emin, prec, emax; lia).
  rewrite Z.min_l by lia.
  replace (e - -51 - (e - 2)) with 53 by lia.
  rewrite Z.shiftl_mul_pow2 by lia.
  assert (Ediv : Z.div_eucl (Z.pos m * 2 ^ 53) (Z.pos 4503599627370496) = (2 * Zpos m, 0)).
  { pose proof (Z.div_eucl_eq (Z.pos m * 2 ^ 53) (Z.pos 4503599627370496) ltac:(lia)) as E.
    pose proof (Z.mod_pos_bound (Z.pos m * 2 ^ 53) (Z.pos 4503599627370496) ltac:(lia)) as B.
    unfold Z.modulo in B.
    destruct (Z.div_eucl (Z.pos m * 2 ^ 53) (Z.pos 4503599627370496)) as [q r].
    change (2 ^ 53) with (2 * 4503599627370496) in E.
    f_equal; lia. }
  rewrite Ediv.
  change (new_location (Z.pos 4503599627370496) 0) with loc_Exact.
  destruct (binary_round_aux_spec (2 * Zpos m) (e - 2) ltac:(lia)) as (m' & e' & E & Hm' & Hcase).
  - rewrite (Zdigits2_unique (2 * Zpos m) 54); lia.
  - rewrite (Zdigits2_unique (2 * Zpos m) 54); lia.
  - rewrite (Zdigits2_unique (2 * Zpos m) 54); lia.
  - rewrite (Zdigits2_unique (2 * Zpos m) 54) in Hcase by lia.
    change (54 - 53) with 1 in Hcase. change (2 ^ 1) with 2 in Hcase.
    replace (2 * Z.pos m / 2) with (Zpos m) in Hcase by (rewrite Z.mul_comm, Z.div_mul; lia).
    replace ((2 * Z.pos m) mod 2) with 0 in Hcase by (rewrite Z.mul_comm, Z.mod_mul; lia).
    cbn [Z.eqb] in Hcase.
    rewrite E. destruct Hcase as [[Ee Hq]|[Ee [Em Hq]]]; [|lia].
    f_equal; [|lia]. assert (Zpos m' = Zpos m) by lia. congruence.
Qed.

(** *** The bracket of [findSep] *)

Lemma fle_leb (x y : float) : fle x y -> PrimFloat.leb x y = true.
Proof.
  intros (mx & ex & my & ey & Ex & _ & Ey & _ & H).
  rewrite leb_spec, Ex, Ey. unfold SFleb, SFcompare.
  destruct H as [H|[-> H]].
  - now rewrite (proj2 (Z.compare_lt_iff ex ey) H).
  - rewrite Z.compare_refl. change (Pos.compare_cont Eq mx my) with (Pos.compare mx my).
    destruct (Pos.compare_spec mx my); try reflexivity. lia.
Qed.

Lemma fle_trans (x y z : float) : fle x y -> fle y z -> fle x z.
Proof.
  intros (mx & ex & my & ey & Ex & Hx & Ey & Hy & H1) (my' & ey' & mz & ez & Ey' & _ & Ez & Hz & H2).
  rewrite Ey in Ey'. injection Ey' as <- <-.
  exists mx, ex, mz, ez. repeat (split; [assumption|]).
  eapply lexle_trans; eassumption.
Qed.

(** [mid = (lo + hi) / 2] stays between [lo] and [hi]. *)
Lemma midpoint_bracketed (lo hi : float) :
  bracketed (lo, hi) ->
  fle lo (PrimFloat.div (PrimFloat.add lo hi) 2) /\ fle (PrimFloat.div (PrimFloat.add lo hi) 2) hi.
Proof.
  intros (H0 & H & H1). cbn [fst snd] in *.
  destruct H0 as (m0 & e0 & ml0 & el0 & E0 & _ & El0 & _ & L0).
  destruct H1 as (mh1 & eh1 & m1 & e1 & Eh1 & _ & E1 & _ & L1).
  destruct H as (ml & el & mh & eh & El & Hl & Eh & Hh & L).
  rewrite El in El0. injection El0 as <- <-.
  rewrite Eh in Eh1. injection Eh1 as <- <-.
  vm_compute in E0. injection E0 as <- <-.
  vm_compute in E1. injection E1 as <- <-.
  assert (Hel : (-1000 <= el)%Z) by (unfold lexle in L0; lia).
  assert (Heh : (eh <= 900)%Z) by (unfold lexle in L1; lia).
  destruct (SFadd_spec53 ml el mh eh Hl Hh Hel Heh L) as (m & e & Eadd & Hm & La & Lb).
  assert (Emid : Prim2SF (PrimFloat.div (PrimFloat.add lo hi) 2) = S754_finite false m (e - 1)).
  { rewrite div_spec, add_spec, El, Eh.
    change (Prim2SF 2) with (S754_finite false 4503599627370496 (-51)).
    unfold SF64div, SF64add. rewrite Eadd.
    apply SFdiv_two; [assumption| |]; unfold lexle in *; lia. }
  split.
  - exists ml, el, m, (e - 1)%Z. auto.
  - exists m, (e - 1)%Z, mh, eh. auto.
Qed.

Lemma bisect_binary64_bracketed (pow_rest : float -> float -> float) (deltaH nu gamma : float) (b : float * float) :
  bracketed b -> bracketed (bisect pow_rest deltaH nu gamma b).
Proof.
  destruct b as [lo hi]. intros H.
  destruct (midpoint_bracketed lo hi H) as [Ha Hb].
  destruct H as (H0 & H & H1). cbn [fst snd] in *.
  unfold bisect, bracketed.
  destruct (PrimFloat.ltb deltaH _); cbn [fst snd]; repeat split;
    eauto using fle_trans.
Qed.

(** The two cases of [findSep] on the binary64 reading, for every
    [Math.pow] and every argument, NaN and the infinities included. *)
Lemma findSep_cases_binary64 (pow_rest : float -> float -> float) (deltaH nu gamma : float) :
  if PrimFloat.leb nu deltaH
  then findSep pow_rest deltaH nu gamma = 0%float
  else PrimFloat.leb 0.001 (findSep pow_rest deltaH nu gamma) = true
       /\ PrimFloat.leb (findSep pow_rest deltaH nu gamma) 0.499 = true.
Proof.
  unfold findSep. destruct (PrimFloat.leb nu deltaH); [reflexivity|].
  assert (H : bracketed (for_loop 60 (bisect pow_rest deltaH nu gamma) (0.001, 0.499)%float)).
  { apply for_loop_invariant; [apply bisect_binary64_bracketed|].
    unfold bracketed. cbn [fst snd].
    repeat split; eexists _, _, _, _; (split; [vm_compute; reflexivity|]);
      (split; [reflexivity|]); (split; [vm_compute; reflexivity|]);
      (split; [reflexivity|]); unfold lexle; lia. }
  destruct (for_loop 60 _ _) as [lo hi].
  destruct (midpoint_bracketed lo hi H) as [Ha Hb].
  destruct H as (H0 & H & H1). cbn [fst snd] in *.
  split; apply fle_leb; eauto using fle_trans.
Qed.

End Binary64Rounding.

Section BasinEdgeCases.
Import Num.

(** C8: for every [nu > 0] and [gamma], [findSep(deltaH, nu, gamma)] is
    exactly [0] when [deltaH >= nu], and lies in [[0.001, 0.499]] when
    [deltaH < nu].  This holds on the exact reading, and on the binary64
    reading whatever [Math.pow] returns; there the second case is
    "[deltaH >= nu] is false", which also covers NaN arguments, and the
    sign of [nu] plays no role. *)
Theorem findSep_edge_cases :
  (forall deltaH nu gamma : R,
     (0 < nu)%R ->
     ((deltaH >= nu)%R -> Basin.findSep deltaH nu gamma = 0%R)
     /\ ((deltaH < nu)%R -> (0.001 <= Basin.findSep deltaH nu gamma <= 0.499)%R))
  /\ (forall (pow_rest : float -> float -> float) (deltaH nu gamma : float),
        if PrimFloat.leb nu deltaH
        then Binary64.findSep pow_rest deltaH nu gamma = 0%float
        else PrimFloat.leb 0.001 (Binary64.findSep pow_rest deltaH nu gamma) = true
             /\ PrimFloat.leb (Binary64.findSep pow_rest deltaH nu gamma) 0.499 = true).
Proof.
  split.
  - intros deltaH nu gamma Hnu. now apply findSep_cases_exact.
  - apply findSep_cases_binary64.
Qed.

Lemma findSep_edge_cases_witness :
  (0 < 1)%R
  /\ ((2 >= 1)%R -> Basin.findSep 2 1 1.5 = 0%R)
  /\ ((2 < 1)%R -> (0.001 <= Basin.findSep 2 1 1.5 <= 0.499)%R)
  /\ Binary64.findSep pow_identity 2 1 1.5 = 0%float
  /\ PrimFloat.leb 0.001 (Binary64.findSep pow_identity 0.5 1 1) = true
  /\ PrimFloat.leb (Binary64.findSep pow_identity 0.5 1 1) 0.499 = true.
Proof.
  split; [lra|].
  destruct (proj1 findSep_edge_cases 2%R 1%R 1.5%R ltac:(lra)) as [H1 H2].
  split; [exact H1|]. split; [exact H2|].
  split; [exact (proj2 findSep_edge_cases pow_identity 2 1 1.5)%float|].
  exact (proj2 findSep_edge_cases pow_identity 0.5 1 1)%float.
Defined.

End BasinEdgeCases.

(** ** The model on concrete inputs *)

Section Traces.
Import Int32 Num Prng Kmr Basin Entropy.

(** The first two draws after [resetSeed()]. *)
Example rand_first_draw :
  rand 98765 = ((2201958600 / 4294967296)%R, -2093008696).
Proof. reflexivity. Qed.

Example rand_second_draw :
  rand (-2093008696) = ((2731312519 / 4294967296)%R, -1563654777).
Proof. reflexivity. Qed.

(** The first iteration of [runKMR(0.15, T)]: no mutation (the first draw
    is above [0.15]), the agent is not on P1 (the second draw is above
    [25 / 50]), and P1 pays more, so the agent joins it. *)
Example move_first_iteration : move 0.15 25 98765 = (26, -1563654777).
Proof.
  unfold move. rewrite rand_first_draw.
  unfold ltb at 1. destruct (Rlt_dec _ _) as [H|_]; [exfalso; lra|].
  rewrite rand_second_draw.
  unfold ltb at 1. destruct (Rlt_dec _ _) as [H|_]; [exfalso; unfold N in H; lra|].
  unfold gtb, uVal, H1, H2, nu, N.
  replace (1 - 25 / 50)%R with (25 / 50)%R by lra.
  destruct (Rlt_dec _ _) as [_|H]; [reflexivity|exfalso; apply H; lra].
Qed.

Example hist_incr_inside : hist_incr [0; 3; 0] 1 = Some [0; 4; 0].
Proof. reflexivity. Qed.

Example hist_incr_outside : hist_incr [0; 3; 0] 3 = None.
Proof. reflexivity. Qed.

Example runKMR_no_steps (eps : R) (s : Z) :
  runKMR eps 0 s = Some (repeat 0 51, 98765).
Proof. reflexivity. Qed.

(** One step of the bisection on the starting bracket for
    [deltaH = 0.5], [nu = 1], [gamma = 1]: [g(0.25, 1) = 0.5] is not above
    [deltaH], so the upper end moves. *)
Example bisect_first_step :
  bisect 0.5 1 1 (0.001, 0.499)%R = (0.001, 0.25)%R.
Proof.
  unfold bisect, gtb, g, Math_pow.
  replace ((0.001 + 0.499) / 2)%R with 0.25%R by lra.
  destruct (Rlt_dec 0 (1 - 0.25)) as [_|H]; [|exfalso; lra].
  destruct (Rlt_dec 0 0.25) as [_|H]; [|exfalso; lra].
  rewrite !Rpower_1 by lra.
  destruct (Rlt_dec _ _) as [H|_]; [exfalso; lra|reflexivity].
Qed.

Example pluginH_one_bin : pluginH [4] 4 = 0%R.
Proof.
  unfold pluginH. cbn [fold_left Z.eqb]. unfold Math_log.
  replace (4 / 4)%R with 1%R by lra. rewrite ln_1. lra.
Qed.

End Traces.

(** ** The generator as a stream *)

Section PrngStream.
Import Int32 Prng Stream.

Lemma to_int32_eq (x y : Z) :
  is_int32 x -> is_int32 y -> to_uint32 x = to_uint32 y -> x = y.
Proof.
  unfold is_int32, to_uint32. intros Hx Hy H.
  assert (D : (4294967296 | x - y)).
  { apply Z.mod_divide; [lia|]. rewrite Zminus_mod, H, Z.sub_diag. reflexivity. }
  destruct D as [q D]. lia.
Qed.

Lemma draws_succ (n : nat) (s : Z) :
  draws (S n) s = (fst (rand s) :: fst (draws n (next_seed s)), snd (draws n (next_seed s))).
Proof.
  cbn [draws]. unfold rand. cbv zeta. cbn [fst].
  now destruct (draws n (next_seed s)).
Qed.

Lemma draws_seed (n : nat) (s : Z) : snd (draws n s) = Nat.iter n next_seed s.
Proof.
  revert s. induction n as [|n IH]; intros s; [reflexivity|].
  rewrite draws_succ. cbn [snd]. rewrite IH. symmetry. apply Nat.iter_succ_r.
Qed.

Lemma draws_length (n : nat) (s : Z) : List.length (fst (draws n s)) = n.
Proof.
  revert s. induction n as [|n IH]; intros s; [reflexivity|].
  rewrite draws_succ. cbn [fst List.length]. now rewrite IH.
Qed.

Lemma iter_next_seed_int32 (n : nat) (s : Z) : is_int32 s -> is_int32 (Nat.iter n next_seed s).
Proof.
  intros Hs. destruct n as [|n]; [exact Hs|]. rewrite Nat.iter_succ. apply next_seed_int32.
Qed.

Lemma iter_next_seed_unsigned (n : nat) (s : Z) :
  to_uint32 (Nat.iter n next_seed s)
  = (1664525 ^ Z.of_nat n * s + 1013904223 * geometric 1664525 n) mod 4294967296.
Proof.
  induction n as [|n IH].
  - change (Nat.iter 0 next_seed s) with s. cbn [geometric]. unfold to_uint32. change (Z.of_nat 0) with 0.
    rewrite Z.pow_0_r. f_equal. lia.
  - rewrite Nat.iter_succ. cbn [geometric]. rewrite next_seed_unsigned.
    rewrite <- Zplus_mod_idemp_l, <- Zmult_mod_idemp_r.
    change (Nat.iter n next_seed s mod 4294967296) with (to_uint32 (Nat.iter n next_seed s)).
    rewrite IH, Zmult_mod_idemp_r, Zplus_mod_idemp_l.
    rewrite Nat2Z.inj_succ, Z.pow_succ_r by lia. f_equal. ring.
Qed.

Lemma geometric_pow (a : Z) (n : nat) : (a - 1) * geometric a n = a ^ Z.of_nat n - 1.
Proof.
  induction n as [|n IH].
  { cbn [geometric]. change (Z.of_nat 0) with 0. rewrite Z.pow_0_r. ring. }
  cbn [geometric]. rewrite Nat2Z.inj_succ, Z.pow_succ_r by lia.
  replace ((a - 1) * (1 + a * geometric a n)) with (a - 1 + a * ((a - 1) * geometric a n)) by ring.
  rewrite IH. ring.
Qed.

Lemma geometric_add (a : Z) (m n : nat) :
  geometric a (m + n) = geometric a m + a ^ Z.of_nat m * geometric a n.
Proof.
  induction m as [|m IH].
  - cbn [Nat.add geometric]. change (Z.of_nat 0) with 0. rewrite Z.pow_0_r. ring.
  - cbn [Nat.add geometric]. rewrite IH, Nat2Z.inj_succ, Z.pow_succ_r by lia. ring.
Qed.

Lemma pow_mod4 (a : Z) (n : nat) : a mod 4 = 1 -> a ^ Z.of_nat n mod 4 = 1.
Proof.
  intros Ha. induction n as [|n IH]; [reflexivity|].
  rewrite Nat2Z.inj_succ, Z.pow_succ_r by lia.
  rewrite Zmult_mod, Ha, IH. reflexivity.
Qed.

Lemma geometric_parity (a : Z) (n : nat) : a mod 2 = 1 -> geometric a n mod 2 = Z.of_nat n mod 2.
Proof.
  intros Ha. induction n as [|n IH]; [reflexivity|].
  cbn [geometric]. rewrite Nat2Z.inj_succ.
  rewrite Zplus_mod, Zmult_mod, Ha, IH.
  rewrite Z.mul_1_l, Z.mod_mod by lia.
  unfold Z.succ. rewrite <- Zplus_mod. f_equal. lia.
Qed.

Lemma divide_pow2_odd (j : nat) (x q : Z) :
  q mod 2 = 1 -> (2 ^ Z.of_nat j | x * q) -> (2 ^ Z.of_nat j | x).
Proof.
  intros Hq. revert x. induction j as [|j IH]; intros x H.
  - exists x. cbn. lia.
  - rewrite Nat2Z.inj_succ, Z.pow_succ_r in * by lia.
    destruct H as [k H].
    assert (Hx : x mod 2 = 0).
    { assert (E : (x * q) mod 2 = 0) by (rewrite H; replace (k * (2 * 2 ^ Z.of_nat j)) with ((k * 2 ^ Z.of_nat j) * 2) by ring; apply Z.mod_mul; lia).
      rewrite Zmult_mod, Hq, Z.mul_1_r, Z.mod_mod in E by lia. exact E. }
    apply Z.mod_divide in Hx; [|lia]. destruct Hx as [x' ->].
    destruct (IH x') as [k' Hk'].
    + exists k. nia.
    + exists k'. nia.
Qed.

Lemma divide_pow2_double (j : nat) (x : Z) :
  (2 ^ Z.of_nat (S j) | 2 * x) <-> (2 ^ Z.of_nat j | x).
Proof.
  rewrite Nat2Z.inj_succ, Z.pow_succ_r by lia. split; intros [k H]; exists k; nia.
Qed.

Lemma odd_not_divide (j : nat) (x : Z) :
  x mod 2 = 1 -> (2 ^ Z.of_nat j | x) -> j = O.
Proof.
  intros Hx H. destruct j as [|j]; [reflexivity|exfalso].
  rewrite Nat2Z.inj_succ, Z.pow_succ_r in H by lia. destruct H as [k H].
  assert (E : x mod 2 = 0) by (rewrite H; replace (k * (2 * 2 ^ Z.of_nat j)) with ((k * 2 ^ Z.of_nat j) * 2) by ring; apply Z.mod_mul; lia).
  lia.
Qed.

(** The 2-adic valuation of [1 + a + ... + a^(n-1)] is that of [n] when
    [a = 1 mod 4]. *)
Lemma geometric_valuation (a : Z) (n j : nat) :
  a mod 4 = 1 -> ((2 ^ Z.of_nat j | geometric a n) <-> (2 ^ Z.of_nat j | Z.of_nat n)).
Proof.
  intros Ha.
  assert (Ha2 : a mod 2 = 1).
  { rewrite (Z.div_mod a 4) by lia. rewrite Ha.
    replace (4 * (a / 4) + 1) with (1 + (2 * (a / 4)) * 2) by ring.
    rewrite Z.mod_add by lia. reflexivity. }
  revert j. induction n as [n IH] using (well_founded_induction Wf_nat.lt_wf). intros j.
  destruct j as [|j].
  { change (2 ^ Z.of_nat 0) with 1. split; intros _; apply Z.divide_1_l. }
  destruct (Nat.Even_or_Odd n) as [[m Hm]|[m Hm]].
  - destruct (Nat.eq_dec m 0) as [->|Hm0].
    { subst n. cbn [Nat.mul geometric]. split; intros _; apply Z.divide_0_r. }
    assert (E : geometric a n = 2 * (geometric a m * ((1 + a ^ Z.of_nat m) / 2))).
    { replace n with (m + m)%nat by lia. rewrite geometric_add.
      pose proof (pow_mod4 a m Ha) as P4.
      pose proof (Z.div_mod (1 + a ^ Z.of_nat m) 2 ltac:(lia)) as D.
      assert ((1 + a ^ Z.of_nat m) mod 2 = 0).
      { rewrite (Z.div_mod (a ^ Z.of_nat m) 4) by lia. rewrite P4.
        replace (1 + (4 * (a ^ Z.of_nat m / 4) + 1)) with ((2 * (a ^ Z.of_nat m / 4) + 1) * 2) by ring.
        apply Z.mod_mul. lia. }
      nia. }
    assert (Q : ((1 + a ^ Z.of_nat m) / 2) mod 2 = 1).
    { pose proof (pow_mod4 a m Ha) as P4.
      rewrite (Z.div_mod (a ^ Z.of_nat m) 4) by lia. rewrite P4.
      replace (1 + (4 * (a ^ Z.of_nat m / 4) + 1)) with ((2 * (a ^ Z.of_nat m / 4) + 1) * 2) by ring.
      rewrite Z.div_mul by lia.
      replace (2 * (a ^ Z.of_nat m / 4) + 1) with (1 + (a ^ Z.of_nat m / 4) * 2) by ring.
      rewrite Z.mod_add by lia. reflexivity. }
    rewrite E, divide_pow2_double.
    replace (Z.of_nat n) with (2 * Z.of_nat m) by lia. rewrite divide_pow2_double.
    rewrite <- (IH m ltac:(lia) j). split.
    + apply divide_pow2_odd. exact Q.
    + intros H. now apply Z.divide_mul_l.
  - assert (Hn : Z.of_nat n mod 2 = 1).
    { rewrite Hm. replace (Z.of_nat (2 * m + 1)) with (1 + Z.of_nat m * 2) by lia.
      rewrite Z.mod_add by lia. reflexivity. }
    split; intros H; exfalso.
    + apply odd_not_divide in H; [lia|]. now rewrite geometric_parity.
    + apply odd_not_divide in H; [lia|exact Hn].
Qed.

(** X1: the seed comes back to where it started after [n] draws exactly when
    [n] is a multiple of [2^32]. *)
Theorem rand_full_period (s : Z) (n : nat) (Hs : is_int32 s) :
  snd (draws n s) = s <-> (Z.of_nat n) mod 2 ^ 32 = 0.
Proof.
  rewrite draws_seed.
  assert (Hmod : (1664525 ^ Z.of_nat n * s + 1013904223 * geometric 1664525 n - s)
                 = geometric 1664525 n * (1664524 * s + 1013904223)).
  { pose proof (geometric_pow 1664525 n) as G. change (1664525 - 1) with 1664524 in G. nia. }
  assert (Hodd : (1664524 * s + 1013904223) mod 2 = 1).
  { replace (1664524 * s + 1013904223) with (1 + (832262 * s + 506952111) * 2) by ring.
    rewrite Z.mod_add by lia. reflexivity. }
  assert (Hiff : Nat.iter n next_seed s = s <-> (2 ^ Z.of_nat 32 | geometric 1664525 n)).
  { split.
    - intros E.
      pose proof (iter_next_seed_unsigned n s) as U. rewrite E in U. unfold to_uint32 in U.
      assert (D : (4294967296 | (1664525 ^ Z.of_nat n * s + 1013904223 * geometric 1664525 n) - s)).
      { apply Z.mod_divide; [lia|]. rewrite Zminus_mod, <- U, Z.sub_diag. reflexivity. }
      rewrite Hmod in D. apply (divide_pow2_odd 32 _ _ Hodd). exact D.
    - intros D. apply to_int32_eq; [now apply iter_next_seed_int32|exact Hs|].
      rewrite iter_next_seed_unsigned. unfold to_uint32.
      assert (D' : (4294967296 | (1664525 ^ Z.of_nat n * s + 1013904223 * geometric 1664525 n) - s)).
      { rewrite Hmod. apply Z.divide_mul_l. exact D. }
      destruct D' as [q D'].
      replace (1664525 ^ Z.of_nat n * s + 1013904223 * geometric 1664525 n) with (s + q * 4294967296) by lia.
      apply Z.mod_add. lia. }
  rewrite Hiff, (geometric_valuation 1664525 n 32 eq_refl).
  change (2 ^ Z.of_nat 32) with 4294967296. change (2 ^ 32) with 4294967296. split.
  - intros D. apply Z.mod_divide in D; [exact D|lia]. 
  - intros D. apply Z.mod_divide; [lia|exact D].
Qed.

(** X2: the seed update is a permutation of the 32-bit states. *)
Theorem next_seed_permutation (t : Z) (Ht : is_int32 t) :
  exists s,
    is_int32 s /\ next_seed s = t
    /\ forall s', is_int32 s' -> next_seed s' = t -> s' = s.
Proof.
  assert (Inj : forall s1 s2, is_int32 s1 -> is_int32 s2 -> next_seed s1 = next_seed s2 -> s1 = s2).
  { intros s1 s2 H1 H2 E. apply to_int32_eq; [assumption..|].
    assert (U : to_uint32 (next_seed s1) = to_uint32 (next_seed s2)) by now rewrite E.
    rewrite !next_seed_unsigned in U.
    assert (D : (4294967296 | (1664525 * s1 + 1013904223) - (1664525 * s2 + 1013904223))).
    { apply Z.mod_divide; [lia|]. rewrite Zminus_mod, U, Z.sub_diag. reflexivity. }
    destruct D as [q D]. unfold to_uint32.
    replace s1 with (s2 + (4276115653 * q - 1657219 * (s1 - s2)) * 4294967296) by lia.
    apply Z.mod_add. lia. }
  exists (to_int32 (4276115653 * (t - 1013904223))).
  assert (E : next_seed (to_int32 (4276115653 * (t - 1013904223))) = t).
  { apply to_int32_eq; [apply next_seed_int32|exact Ht|].
    rewrite next_seed_unsigned. unfold to_uint32.
    rewrite <- Zplus_mod_idemp_l, <- Zmult_mod_idemp_r.
    change (to_int32 (4276115653 * (t - 1013904223)) mod 4294967296)
      with (to_uint32 (to_int32 (4276115653 * (t - 1013904223)))).
    rewrite to_uint32_to_int32. unfold to_uint32.
    rewrite Zmult_mod_idemp_r, Zplus_mod_idemp_l.
    replace (1664525 * (4276115653 * (t - 1013904223)) + 1013904223)
      with (t + (1657219 * (t - 1013904223)) * 4294967296) by ring.
    apply Z.mod_add. lia. }
  split; [apply to_int32_range|]. split; [exact E|].
  intros s' Hs' E'. apply Inj; [assumption|apply to_int32_range|]. now rewrite E.
Qed.

Lemma rand_below_one (s : Z) : (fst (rand s) <= 1 - / 4294967296)%R.
Proof.
  unfold rand. cbn [fst]. rewrite unsigned_shift_right_zero.
  pose proof (to_uint32_range (next_seed s)) as [_ Hhi].
  assert (H : to_uint32 (next_seed s) <= 4294967295) by lia.
  apply IZR_le in H. unfold Rdiv.
  apply Rmult_le_reg_r with 4294967296%R; [lra|].
  rewrite Rmult_assoc, Rinv_l by lra.
  rewrite Rmult_minus_distr_r, Rinv_l by lra. lra.
Qed.

(** X3: [randn()] takes the logarithm of a number in [(0, 1]] and the square
    root of a nonnegative number, draws twice, and returns a value of
    absolute value at most [sqrt (64 ln 2)]. *)
Theorem randn_bounded (s : Z) :
  (0 < 1 - fst (rand s) <= 1
   /\ 0 <= -2 * Num.Math_log (1 - fst (rand s))
   /\ Rabs (fst (randn s)) <= sqrt (64 * ln 2))%R
  /\ snd (randn s) = next_seed (next_seed s).
Proof.
  pose proof (rand_unit s) as [U0 U1]. pose proof (rand_below_one s) as U2.
  assert (L1 : (ln (1 - fst (rand s)) <= 0)%R).
  { destruct (Req_dec (1 - fst (rand s)) 1) as [->|Hne]; [rewrite ln_1; lra|].
    left. rewrite <- ln_1. apply ln_increasing; lra. }
  assert (L2 : (- (32 * ln 2) <= ln (1 - fst (rand s)))%R).
  { assert (E : (- (32 * ln 2) = ln (/ 4294967296))%R).
    { rewrite ln_Rinv by lra. replace 4294967296%R with (2 ^ 32)%R by (simpl; lra).
      rewrite ln_pow by lra. simpl INR. f_equal. lra. }
    rewrite E.
    destruct (Req_dec (/ 4294967296) (1 - fst (rand s))) as [->|Hne]; [lra|].
    left. apply ln_increasing; [apply Rinv_0_lt_compat; lra|lra]. }
  split; [split; [lra|split]|].
  - unfold Num.Math_log. lra.
  - assert (S1 : (sqrt (-2 * Num.Math_log (1 - fst (rand s))) <= sqrt (64 * ln 2))%R).
    { apply sqrt_le_1_alt. unfold Num.Math_log. lra. }
    pose proof (sqrt_pos (-2 * Num.Math_log (1 - fst (rand s)))) as S0.
    unfold randn. destruct (rand s) as [r1 s1]. destruct (rand s1) as [v s2].
    cbn [fst] in *. rewrite Rabs_mult.
    rewrite (Rabs_right (sqrt _)) by (apply Rle_ge, sqrt_pos).
    assert (C : (Rabs (cos (2 * PI * v)) <= 1)%R).
    { apply Rabs_le. pose proof (COS_bound (2 * PI * v)). lra. }
    pose proof (Rabs_pos (cos (2 * PI * v))) as C0. nra.
  - reflexivity.
Qed.

End PrngStream.

(** ** The pixel map and the deferred draw *)

Import PageFixtures.

Section CanvasFacts.
Import Canvas.
Local Open Scope R_scope.

(** X4: [toCanvasXY] sends [min] to [pMin] and [max] to [pMax], and every
    value between [min] and [max] to a pixel between [pMin] and [pMax],
    whichever of the two is the larger. *)
Theorem toCanvasXY_interpolates (min max pMin pMax : R) (Hrange : min < max) :
  toCanvasXY min min max pMin pMax = pMin
  /\ toCanvasXY max min max pMin pMax = pMax
  /\ forall val, min <= val <= max ->
       Rmin pMin pMax <= toCanvasXY val min max pMin pMax <= Rmax pMin pMax.
Proof.
  unfold toCanvasXY. split; [|split].
  - replace (min - min) with 0 by lra. unfold Rdiv. lra.
  - field. lra.
  - intros val Hv.
    set (t := (val - min) / (max - min)).
    assert (Ht : 0 <= t <= 1).
    { unfold t. split.
      - apply Rmult_le_reg_r with (max - min); [lra|].
        unfold Rdiv. rewrite Rmult_assoc, Rinv_l by lra. lra.
      - apply Rmult_le_reg_r with (max - min); [lra|].
        unfold Rdiv. rewrite Rmult_assoc, Rinv_l by lra. lra. }
    unfold Rmin, Rmax. destruct (Rle_dec pMin pMax); nra.
Qed.

(** X5: mapping a value to a pixel and the pixel back gives the value. *)
Theorem toCanvasXY_round_trip (val min max pMin pMax : R)
    (Hrange : min <> max) (Hpixels : pMin <> pMax) :
  toCanvasXY (toCanvasXY val min max pMin pMax) pMin pMax min max = val.
Proof. unfold toCanvasXY. field. split; lra. Qed.

End CanvasFacts.

Section CanvasWitnesses.
Import Canvas.
Local Open Scope R_scope.

Lemma toCanvasXY_interpolates_witness :
  0 < 2
  /\ toCanvasXY 0 0 2 350 40 = 350
  /\ toCanvasXY 2 0 2 350 40 = 40
  /\ forall val, 0 <= val <= 2 ->
       Rmin 350 40 <= toCanvasXY val 0 2 350 40 <= Rmax 350 40.
Proof.
  split.
  - lra.
  - apply (toCanvasXY_interpolates 0 2 350 40). lra.
Defined.

Lemma toCanvasXY_round_trip_witness :
  0 <> 2 /\ 350 <> 40
  /\ toCanvasXY (toCanvasXY 0.5 0 2 350 40) 350 40 0 2 = 0.5.
Proof.
  split; [lra|]. split; [lra|].
  apply (toCanvasXY_round_trip 0.5 0 2 350 40); lra.
Defined.

End CanvasWitnesses.

Section DomDeferred.
Import Dom.

Variable St : Type.

Lemma remove_nth_last {A : Type} (l : list A) (x : A) :
  remove_nth (List.length l) (l ++ [x]) = l.
Proof.
  unfold remove_nth. rewrite firstn_app, Nat.sub_diag, firstn_all. cbn [firstn].
  rewrite app_nil_r.
  rewrite skipn_all2; [apply app_nil_r|]. rewrite length_app. cbn [List.length]. lia.
Qed.

(** X6: with the canvas in the document, [drawFn] runs on it exactly
    once.  Without observer support it runs inside [lazyDraw].  With
    observer support [lazyDraw] draws nothing and registers one observer
    on the canvas; a callback that reports no intersection changes
    nothing; the callback that reports an intersection removes the
    observer and leaves the page as the immediate call would have. *)
Theorem lazyDraw_draws_once (canvasId : string) (drawFn : drawFn_t St) (w : page St) (cv : element)
    (Hfound : getElementById (document w) canvasId = Some cv) :
  (if has_IntersectionObserver w
   then exists w1,
          lazyDraw canvasId drawFn w = Returned w1
          /\ drawn w1 = drawn w /\ state w1 = state w
          /\ observers w1 = observers w ++ [(cv, drawFn)]
          /\ intersection_callback (List.length (observers w)) false w1 = Returned w1
          /\ intersection_callback (List.length (observers w)) true w1 = call_draw drawFn cv w
   else lazyDraw canvasId drawFn w = call_draw drawFn cv w)
  /\ (forall w2, call_draw drawFn cv w = Returned w2 ->
        drawn w2 = drawn w ++ [cv] /\ observers w2 = observers w)
  /\ (forall msg, drawFn cv (state w) = Thrown msg -> call_draw drawFn cv w = Thrown msg).
Proof.
  split; [|split].
  - unfold lazyDraw. rewrite Hfound.
    destruct (has_IntersectionObserver w) eqn:Hio; cbn [negb]; [|reflexivity].
    exists (observe drawFn cv w). split; [reflexivity|].
    split; [reflexivity|]. split; [reflexivity|]. split; [reflexivity|].
    unfold intersection_callback, observe. cbn [observers].
    rewrite nth_error_app2, Nat.sub_diag by lia. cbn [nth_error].
    split; [reflexivity|].
    rewrite remove_nth_last. cbn [document has_IntersectionObserver drawn state].
    destruct w; reflexivity.
  - intros w2. unfold call_draw. destruct (drawFn cv (state w)); [|discriminate].
    intros [= <-]. split; reflexivity.
  - intros msg E. unfold call_draw. now rewrite E.
Qed.

End DomDeferred.

Lemma lazyDraw_draws_once_witness :
  Dom.getElementById (Dom.document observing_page) "kmrChart"%string = Some 1%nat
  /\ (exists w1,
        Dom.lazyDraw "kmrChart"%string quiet_draw observing_page = Dom.Returned w1
        /\ Dom.drawn w1 = [] /\ Dom.state w1 = tt
        /\ Dom.observers w1 = [(1%nat, quiet_draw)]
        /\ Dom.intersection_callback 0 false w1 = Dom.Returned w1
        /\ Dom.intersection_callback 0 true w1 = Dom.call_draw quiet_draw 1%nat observing_page)
  /\ (forall w2, Dom.call_draw quiet_draw 1%nat observing_page = Dom.Returned w2 ->
        Dom.drawn w2 = [1%nat] /\ Dom.observers w2 = [])
  /\ (forall msg, quiet_draw 1%nat tt = Dom.Thrown msg ->
        Dom.call_draw quiet_draw 1%nat observing_page = Dom.Thrown msg).
Proof.
  split; [reflexivity|].
  exact (lazyDraw_draws_once unit "kmrChart"%string quiet_draw observing_page 1%nat eq_refl).
Defined.

(** ** The two-platform integrators *)

Section IntegratorFacts.
Import Num Integrator.
Local Open Scope R_scope.

Lemma euler_clamped (lo hi deltaH nu gamma dt x : R) :
  lo <= hi -> lo <= euler lo hi deltaH nu gamma dt x <= hi.
Proof.
  intros H. unfold euler, Math_max, Math_min. cbv zeta.
  set (y := x + _). unfold Rmax, Rmin.
  destruct (Rle_dec hi y); destruct (Rle_dec lo _); lra.
Qed.

(** Above one half the drift is nonnegative when platform 1 has the
    higher entropy, and the share stays above one half. *)
Lemma euler_above_half (lo hi deltaH nu gamma dt x : R) :
  lo <= / 2 -> / 2 < hi -> hi <= 1 -> 0 <= deltaH -> 0 <= nu -> 0 < gamma -> 0 <= dt ->
  / 2 < x <= 1 ->
  / 2 < euler lo hi deltaH nu gamma dt x <= 1
  /\ Rmin hi x <= euler lo hi deltaH nu gamma dt x.
Proof.
  intros Hlo Hhi Hhi1 HdH Hnu Hg Hdt Hx.
  assert (P : Math_pow (1 - x) gamma < Math_pow x gamma).
  { apply Math_pow_increasing; lra. }
  unfold euler. cbv zeta.
  set (dx := x * (1 - x) * (deltaH + nu * (Math_pow x gamma - Math_pow (1 - x) gamma))).
  assert (Hdx : 0 <= dx).
  { unfold dx. apply Rmult_le_pos; [apply Rmult_le_pos; lra|]. nra. }
  assert (Hy : x <= x + dx * dt) by nra.
  unfold Math_max, Math_min, Rmax, Rmin.
  destruct (Rle_dec hi (x + dx * dt)); destruct (Rle_dec lo _); destruct (Rle_dec hi x); lra.
Qed.

Lemma euler_below_half (lo hi deltaH nu gamma dt x : R) :
  0 <= lo -> lo <= / 2 -> / 2 <= hi -> deltaH <= 0 -> 0 <= nu -> 0 < gamma -> 0 <= dt ->
  0 <= x <= / 2 ->
  0 <= euler lo hi deltaH nu gamma dt x <= / 2
  /\ euler lo hi deltaH nu gamma dt x <= Rmax lo x.
Proof.
  intros Hlo0 Hlo Hhi HdH Hnu Hg Hdt Hx.
  assert (P : Math_pow x gamma <= Math_pow (1 - x) gamma).
  { destruct (Req_dec x (1 - x)) as [E|E].
    - rewrite <- E. lra.
    - left. apply Math_pow_increasing; lra. }
  unfold euler. cbv zeta.
  set (dx := x * (1 - x) * (deltaH + nu * (Math_pow x gamma - Math_pow (1 - x) gamma))).
  assert (Hdx : dx <= 0).
  { unfold dx. assert (0 <= x * (1 - x)) by nra.
    assert (deltaH + nu * (Math_pow x gamma - Math_pow (1 - x) gamma) <= 0) by nra. nra. }
  assert (Hy : x + dx * dt <= x) by nra.
  unfold Math_max, Math_min, Rmax, Rmin.
  destruct (Rle_dec hi (x + dx * dt)); destruct (Rle_dec lo _); destruct (Rle_dec lo x); lra.
Qed.

(** The loop returns once the counter has reached [T]. *)
Lemma time_loop_returns (T dt : R) (body : R -> R) (n : nat) :
  forall t x fuel,
    0 < dt -> T <= t + INR n * dt -> (n < fuel)%nat ->
    exists m, (m <= n)%nat /\ time_loop fuel T dt body t x = Some (for_loop m body x).
Proof.
  induction n as [|n IH]; intros t x fuel Hdt HT Hf.
  - destruct fuel as [|fuel]; [lia|]. cbn [time_loop]. unfold ltb.
    cbn [INR] in HT. destruct (Rlt_dec t T); [lra|].
    exists O. split; [lia|reflexivity].
  - destruct fuel as [|fuel]; [lia|]. cbn [time_loop]. unfold ltb.
    destruct (Rlt_dec t T).
    + destruct (IH (t + dt) (body x) fuel Hdt) as (m & Hm & E); [|lia|].
      { rewrite S_INR in HT. lra. }
      exists (S m). split; [lia|]. exact E.
    + exists O. split; [lia|reflexivity].
Qed.

Lemma time_loop_invariant (P : R -> Prop) (T dt : R) (body : R -> R) :
  (forall x, P x -> P (body x)) ->
  forall fuel t x y, P x -> time_loop fuel T dt body t x = Some y -> P y.
Proof.
  intros Hb fuel. induction fuel as [|fuel IH]; intros t x y Hx; cbn [time_loop]; [discriminate|].
  destruct (ltb t T).
  - apply IH. now apply Hb.
  - intros [= <-]. exact Hx.
Qed.

(** With a step that does not advance the counter the loop never ends. *)
Lemma time_loop_hangs (T dt : R) (body : R -> R) :
  dt <= 0 -> forall fuel t x, t < T -> time_loop fuel T dt body t x = None.
Proof.
  intros Hdt fuel. induction fuel as [|fuel IH]; intros t x Ht; cbn [time_loop]; [reflexivity|].
  unfold ltb. destruct (Rlt_dec t T); [|lra]. apply IH. lra.
Qed.

Lemma archimedean_steps (T dt : R) : 0 < dt -> exists n : nat, T <= INR n * dt.
Proof.
  intros Hdt. destruct (archimed (T / dt)) as [Hup _].
  exists (Z.to_nat (up (T / dt))).
  destruct (Z_lt_le_dec (up (T / dt)) 0) as [Hneg|Hpos].
  - replace (Z.to_nat (up (T / dt))) with O by lia. cbn [INR].
    apply IZR_lt in Hneg.
    assert (T / dt < 0) by lra.
    assert (T = T / dt * dt) by (field; lra). nra.
  - rewrite INR_IZR_INZ, Z2Nat.id by lia.
    assert (T = T / dt * dt) by (field; lra). nra.
Qed.




End IntegratorFacts.

Section WinnerFacts.
Import Num Integrator.
Local Open Scope R_scope.

Lemma time_loop_total (T dt : R) (body : R -> R) :
  0 < dt \/ T <= 0 ->
  exists n : nat, forall fuel x, (n < fuel)%nat ->
    exists m, time_loop fuel T dt body 0 x = Some (for_loop m body x).
Proof.
  intros [Hdt|HT].
  - destruct (archimedean_steps T dt Hdt) as [n Hn]. exists n. intros fuel x Hf.
    destruct (time_loop_returns T dt body n 0 x fuel Hdt ltac:(lra) Hf) as (m & _ & E).
    now exists m.
  - exists O. intros fuel x Hf. destruct fuel as [|fuel]; [lia|].
    exists O. cbn [time_loop for_loop]. unfold ltb. destruct (Rlt_dec 0 T); [lra|reflexivity].
Qed.

(** X7: figure 2's [replicatorWinner] returns, and returns 1 or 2, when
    the step [dt] is positive or the horizon [T] is not; with a step
    that is zero or negative and a positive horizon its loop never
    ends. *)
Theorem replicatorWinner_termination (x0 deltaH nu gamma : R) (T dt : option R) :
  (0 < default_parameter dt 0.1 \/ default_parameter T 150 <= 0 ->
   exists n : nat, forall fuel, (n < fuel)%nat ->
     Figure2.replicatorWinner fuel x0 deltaH nu gamma T dt = Some 1%Z
     \/ Figure2.replicatorWinner fuel x0 deltaH nu gamma T dt = Some 2%Z)
  /\ (default_parameter dt 0.1 <= 0 /\ 0 < default_parameter T 150 ->
      forall fuel, Figure2.replicatorWinner fuel x0 deltaH nu gamma T dt = None).
Proof.
  split.
  - intros H.
    destruct (time_loop_total (default_parameter T 150) (default_parameter dt 0.1)
                (euler 0.001 0.999 deltaH nu gamma (default_parameter dt 0.1)) H) as [n Hn].
    exists n. intros fuel Hf. destruct (Hn fuel x0 Hf) as [m E].
    unfold Figure2.replicatorWinner. cbv zeta. rewrite E.
    destruct (gtb _ 0.5); auto.
  - intros [Hdt HT] fuel. unfold Figure2.replicatorWinner. cbv zeta.
    now rewrite time_loop_hangs.
Qed.

(** X8: figure 9's [replicatorWinner] replaces a zero step by [0.05]: it
    returns for every step that is missing, zero or positive, whatever
    the horizon. *)
Theorem replicatorWinner9_zero_step (x0 deltaH nu gamma : R) (T dt : option R) :
  match dt with
  | None => True
  | Some v => 0 <= v
  end ->
  exists n : nat, forall fuel, (n < fuel)%nat ->
    Figure9.replicatorWinner fuel x0 deltaH nu gamma T dt = Some 1%Z
    \/ Figure9.replicatorWinner fuel x0 deltaH nu gamma T dt = Some 2%Z.
Proof.
  intros Hdt.
  assert (H : 0 < or_default dt 0.05).
  { unfold or_default. destruct dt as [v|]; [|lra]. destruct (Req_dec_T v 0); lra. }
  destruct (time_loop_total (or_default T 200) (or_default dt 0.05)
              (euler 0.0001 0.9999 deltaH nu gamma (or_default dt 0.05)) (or_introl H)) as [n Hn].
  exists n. intros fuel Hf. destruct (Hn fuel x0 Hf) as [m E].
  unfold Figure9.replicatorWinner. cbv zeta. rewrite E.
  destruct (gtb _ 0.5); auto.
Qed.

Lemma winner_of_loop_above (lo hi deltaH nu gamma T dt x0 : R) (fuel : nat) (y : R) :
  lo <= / 2 -> / 2 < hi -> hi <= 1 -> 0 <= deltaH -> 0 <= nu -> 0 < gamma -> 0 <= dt ->
  / 2 < x0 <= 1 ->
  time_loop fuel T dt (euler lo hi deltaH nu gamma dt) 0 x0 = Some y -> gtb y 0.5 = true.
Proof.
  intros Hlo Hhi Hhi1 HdH Hnu Hg Hdt Hx E.
  assert (Hy : / 2 < y <= 1).
  { apply (time_loop_invariant (fun x => / 2 < x <= 1) T dt (euler lo hi deltaH nu gamma dt))
      with (fuel := fuel) (t := 0) (x := x0); [|exact Hx|exact E].
    intros x Px. now apply euler_above_half. }
  unfold gtb. destruct (Rlt_dec 0.5 y); [reflexivity|lra].
Qed.

Lemma winner_of_loop_below (lo hi deltaH nu gamma T dt x0 : R) (fuel : nat) (y : R) :
  0 <= lo -> lo <= / 2 -> / 2 <= hi -> deltaH <= 0 -> 0 <= nu -> 0 < gamma -> 0 <= dt ->
  0 <= x0 <= / 2 ->
  time_loop fuel T dt (euler lo hi deltaH nu gamma dt) 0 x0 = Some y -> gtb y 0.5 = false.
Proof.
  intros Hlo0 Hlo Hhi HdH Hnu Hg Hdt Hx E.
  assert (Hy : 0 <= y <= / 2).
  { apply (time_loop_invariant (fun x => 0 <= x <= / 2) T dt (euler lo hi deltaH nu gamma dt))
      with (fuel := fuel) (t := 0) (x := x0); [|exact Hx|exact E].
    intros x Px. now apply euler_below_half. }
  unfold gtb. destruct (Rlt_dec 0.5 y); [lra|reflexivity].
Qed.

(** X9: in figures 2 and 9 the platform that is ahead and has no entropy
    disadvantage wins: for [nu >= 0], [gamma > 0] and a positive step,
    [replicatorWinner] returns 1 from a share in [(1/2, 1]] when
    [deltaH >= 0], and 2 from a share in [[0, 1/2]] when [deltaH <= 0]. *)
Theorem replicatorWinner_leader_wins (x0 deltaH nu gamma : R) (T dt : option R)
    (Hnu : 0 <= nu) (Hgamma : 0 < gamma)
    (Hdt : match dt with None => True | Some v => 0 < v end) :
  exists n : nat, forall fuel, (n < fuel)%nat ->
    (/ 2 < x0 <= 1 -> 0 <= deltaH ->
       Figure2.replicatorWinner fuel x0 deltaH nu gamma T dt = Some 1%Z
       /\ Figure9.replicatorWinner fuel x0 deltaH nu gamma T dt = Some 1%Z)
    /\ (0 <= x0 <= / 2 -> deltaH <= 0 ->
       Figure2.replicatorWinner fuel x0 deltaH nu gamma T dt = Some 2%Z
       /\ Figure9.replicatorWinner fuel x0 deltaH nu gamma T dt = Some 2%Z).
Proof.
  assert (H2 : 0 < default_parameter dt 0.1).
  { unfold default_parameter. destruct dt; lra. }
  assert (H9 : 0 < or_default dt 0.05).
  { unfold or_default. destruct dt as [v|]; [|lra]. destruct (Req_dec_T v 0); lra. }
  destruct (time_loop_total (default_parameter T 150) (default_parameter dt 0.1)
              (euler 0.001 0.999 deltaH nu gamma (default_parameter dt 0.1)) (or_introl H2)) as [n2 Hn2].
  destruct (time_loop_total (or_default T 200) (or_default dt 0.05)
              (euler 0.0001 0.9999 deltaH nu gamma (or_default dt 0.05)) (or_introl H9)) as [n9 Hn9].
  exists (Nat.max n2 n9). intros fuel Hf.
  destruct (Hn2 fuel x0 ltac:(lia)) as [m2 E2].
  destruct (Hn9 fuel x0 ltac:(lia)) as [m9 E9].
  unfold Figure2.replicatorWinner, Figure9.replicatorWinner. cbv zeta.
  rewrite E2, E9.
  split; intros Hx HdH.
  - rewrite (winner_of_loop_above 0.001 0.999 deltaH nu gamma (default_parameter T 150) (default_parameter dt 0.1) x0 fuel _
               ltac:(lra) ltac:(lra) ltac:(lra) HdH Hnu Hgamma ltac:(lra) Hx E2).
    rewrite (winner_of_loop_above 0.0001 0.9999 deltaH nu gamma (or_default T 200) (or_default dt 0.05) x0 fuel _
               ltac:(lra) ltac:(lra) ltac:(lra) HdH Hnu Hgamma ltac:(lra) Hx E9).
    split; reflexivity.
  - rewrite (winner_of_loop_below 0.001 0.999 deltaH nu gamma (default_parameter T 150) (default_parameter dt 0.1) x0 fuel _
               ltac:(lra) ltac:(lra) ltac:(lra) HdH Hnu Hgamma ltac:(lra) Hx E2).
    rewrite (winner_of_loop_below 0.0001 0.9999 deltaH nu gamma (or_default T 200) (or_default dt 0.05) x0 fuel _
               ltac:(lra) ltac:(lra) ltac:(lra) HdH Hnu Hgamma ltac:(lra) Hx E9).
    split; reflexivity.
Qed.

End WinnerFacts.

Section SimulateFacts.
Import Num Integrator Figure10.
Local Open Scope R_scope.




Lemma pushes_monotone (P : R -> Prop) (body : R -> R) :
  (forall x, P x -> P (body x) /\ x <= body x) ->
  forall n x, P x ->
  forall i, (S i < List.length (x :: pushes n body x))%nat ->
    nth i (x :: pushes n body x) 0 <= nth (S i) (x :: pushes n body x) 0.
Proof.
  intros Hb n. induction n as [|n IH]; intros x Hx i Hi.
  - cbn [pushes List.length] in Hi. lia.
  - cbn [pushes]. destruct i as [|i]; cbn [nth].
    + apply Hb, Hx.
    + apply (IH (body x)); [apply Hb, Hx|]. cbn [pushes List.length] in *. lia.
Qed.

Lemma pushes_antitone (P : R -> Prop) (body : R -> R) :
  (forall x, P x -> P (body x) /\ body x <= x) ->
  forall n x, P x ->
  forall i, (S i < List.length (x :: pushes n body x))%nat ->
    nth (S i) (x :: pushes n body x) 0 <= nth i (x :: pushes n body x) 0.
Proof.
  intros Hb n. induction n as [|n IH]; intros x Hx i Hi.
  - cbn [pushes List.length] in Hi. lia.
  - cbn [pushes]. destruct i as [|i]; cbn [nth].
    + apply Hb, Hx.
    + apply (IH (body x)); [apply Hb, Hx|]. cbn [pushes List.length] in *. lia.
Qed.

(** X12: a trajectory of [simulate] never turns back towards the even
    split: for [nu >= 0], [gamma > 0] and a step that is missing or not
    negative, it is nondecreasing from a share in [(1/2, 0.9999]] when
    [deltaH >= 0], and nonincreasing from a share in [[0.0001, 1/2]]
    when [deltaH <= 0]. *)
Theorem simulate_monotone (x0 deltaH nu gamma : R) (T dt : option R)
    (Hnu : 0 <= nu) (Hgamma : 0 < gamma)
    (Hdt : match dt with None => True | Some v => 0 <= v end) :
  (/ 2 < x0 <= 0.9999 -> 0 <= deltaH ->
     forall i, (S i < List.length (simulate x0 deltaH nu gamma T dt))%nat ->
       nth i (simulate x0 deltaH nu gamma T dt) 0 <= nth (S i) (simulate x0 deltaH nu gamma T dt) 0)
  /\ (0.0001 <= x0 <= / 2 -> deltaH <= 0 ->
     forall i, (S i < List.length (simulate x0 deltaH nu gamma T dt))%nat ->
       nth (S i) (simulate x0 deltaH nu gamma T dt) 0 <= nth i (simulate x0 deltaH nu gamma T dt) 0).
Proof.
  assert (H : 0 < or_default dt 0.1).
  { unfold or_default. destruct dt as [v|]; [|lra]. destruct (Req_dec_T v 0); lra. }
  unfold simulate. cbv zeta. split; intros Hx HdH.
  - apply (pushes_monotone (fun x => / 2 < x <= 0.9999)); [|exact Hx].
    intros x Px.
    destruct (euler_above_half 0.0001 0.9999 deltaH nu gamma (or_default dt 0.1) x) as [E1 E2]; try lra.
    pose proof (euler_clamped 0.0001 0.9999 deltaH nu gamma (or_default dt 0.1) x ltac:(lra)).
    rewrite Rmin_right in E2 by lra. lra.
  - apply (pushes_antitone (fun x => 0.0001 <= x <= / 2)); [|exact Hx].
    intros x Px.
    destruct (euler_below_half 0.0001 0.9999 deltaH nu gamma (or_default dt 0.1) x) as [E1 E2]; try lra.
    pose proof (euler_clamped 0.0001 0.9999 deltaH nu gamma (or_default dt 0.1) x ltac:(lra)).
    rewrite Rmax_right in E2 by lra. lra.
Qed.

End SimulateFacts.

Section SeparatrixFacts.
Import Num Basin Brackets.
Local Open Scope R_scope.

Lemma for_loop_add {A : Type} (m n : nat) (body : A -> A) (a : A) :
  for_loop (m + n) body a = for_loop n body (for_loop m body a).
Proof.
  revert a. induction m as [|m IH]; intros a; cbn [Nat.add for_loop]; [reflexivity|apply IH].
Qed.

Lemma bisect_nested (deltaH nu gamma : R) (b : R * R) :
  fst b <= snd b ->
  fst b <= fst (bisect deltaH nu gamma b)
  /\ fst (bisect deltaH nu gamma b) <= snd (bisect deltaH nu gamma b)
  /\ snd (bisect deltaH nu gamma b) <= snd b.
Proof.
  destruct b as [lo hi]. unfold bisect. cbn [fst snd]. intros H.
  destruct (gtb (nu * g ((lo + hi) / 2) gamma) deltaH); cbn [fst snd]; lra.
Qed.

Lemma for_loop_bisect_nested (deltaH nu gamma : R) (n : nat) (b : R * R) :
  fst b <= snd b ->
  fst b <= fst (for_loop n (bisect deltaH nu gamma) b)
  /\ fst (for_loop n (bisect deltaH nu gamma) b) <= snd (for_loop n (bisect deltaH nu gamma) b)
  /\ snd (for_loop n (bisect deltaH nu gamma) b) <= snd b.
Proof.
  revert b. induction n as [|n IH]; intros b Hb; cbn [for_loop]; [lra|].
  destruct (bisect_nested deltaH nu gamma b Hb) as (B1 & B2 & B3).
  destruct (IH (bisect deltaH nu gamma b) B2) as (I1 & I2 & I3). lra.
Qed.

Lemma bisect_figure10 (deltaH nu gamma : R) (b : R * R) :
  Figure10.bisect deltaH nu gamma b = bisect deltaH nu gamma b.
Proof. destruct b as [lo hi]. reflexivity. Qed.

(** X13: the two copies of [findSep] agree: for [nu > 0] the 80-step
    search of figure 10 at the ratio [dhRatio] and the 60-step search
    of figure 2 at [deltaH = dhRatio * nu] differ by at most
    [(0.499 - 0.001) / 2^61]. *)
Theorem findSep_copies_agree (dhRatio nu gamma : R) (Hnu : 0 < nu) :
  Rabs (Figure10.findSep dhRatio nu gamma - findSep (dhRatio * nu) nu gamma)
  <= (0.499 - 0.001) / 2 ^ 61.
Proof.
  assert (Hpos : 0 <= (0.499 - 0.001) / 2 ^ 61).
  { apply Rmult_le_pos; [lra|]. left. apply Rinv_0_lt_compat, pow_lt. lra. }
  unfold Figure10.findSep, findSep, geb.
  destruct (Rle_dec 1.0 dhRatio) as [H1|H1]; destruct (Rle_dec nu (dhRatio * nu)) as [H2|H2];
    try (exfalso; nra).
  - rewrite Rminus_diag, Rabs_R0. exact Hpos.
  - cbv zeta.
    rewrite (for_loop_ext (Figure10.bisect (dhRatio * nu) nu gamma) (bisect (dhRatio * nu) nu gamma))
      by apply bisect_figure10.
    change 80%nat with (60 + 20)%nat. rewrite for_loop_add.
    pose proof (for_loop_bisect_width (dhRatio * nu) nu gamma 60 (0.001, 0.499)) as W.
    set (b60 := for_loop 60 (bisect (dhRatio * nu) nu gamma) (0.001, 0.499)) in *.
    assert (O60 : fst b60 <= snd b60).
    { apply (for_loop_bisect_nested (dhRatio * nu) nu gamma 60 (0.001, 0.499)). cbn [fst snd]. lra. }
    pose proof (for_loop_bisect_nested (dhRatio * nu) nu gamma 20 b60 O60) as (N1 & N2 & N3).
    destruct (for_loop 20 (bisect (dhRatio * nu) nu gamma) b60) as [lo80 hi80].
    destruct b60 as [lo60 hi60]. cbn [fst snd] in *.
    replace ((0.499 - 0.001) / 2 ^ 61) with ((0.499 - 0.001) / 2 ^ 60 / 2)
      by (change (2 ^ 61) with (2 * 2 ^ 60); field; apply pow_nonzero; lra).
    rewrite <- W. apply Rabs_le. lra.
Qed.

Lemma bisect_left_of (d1 d2 nu gamma : R) (b1 b2 : R * R) :
  d1 <= d2 -> fst b1 <= snd b1 -> fst b2 <= snd b2 ->
  left_of b2 b1 -> left_of (bisect d2 nu gamma b2) (bisect d1 nu gamma b1).
Proof.
  intros Hd O1 O2 [->|H].
  - destruct b1 as [lo hi]. unfold bisect, gtb. cbn [fst snd] in *.
    destruct (Rlt_dec d2 (nu * g ((lo + hi) / 2) gamma));
      destruct (Rlt_dec d1 (nu * g ((lo + hi) / 2) gamma)); try lra.
    + now left.
    + right. cbn [fst snd]. lra.
    + now left.
  - right.
    pose proof (bisect_nested d1 nu gamma b1 O1). pose proof (bisect_nested d2 nu gamma b2 O2). lra.
Qed.

Lemma for_loop_left_of (d1 d2 nu gamma : R) (n : nat) :
  d1 <= d2 ->
  forall b1 b2, fst b1 <= snd b1 -> fst b2 <= snd b2 -> left_of b2 b1 ->
    left_of (for_loop n (bisect d2 nu gamma) b2) (for_loop n (bisect d1 nu gamma) b1).
Proof.
  intros Hd. induction n as [|n IH]; intros b1 b2 O1 O2 L; cbn [for_loop]; [exact L|].
  apply IH.
  - apply (bisect_nested d1 nu gamma b1 O1).
  - apply (bisect_nested d2 nu gamma b2 O2).
  - now apply bisect_left_of.
Qed.

(** X14: [findSep] never moves right when the entropy gap grows: for
    [deltaH1 <= deltaH2], [findSep(deltaH2, nu, gamma) <=
    findSep(deltaH1, nu, gamma)], for every [nu] and [gamma]. *)
Theorem findSep_antitone (deltaH1 deltaH2 nu gamma : R) (Hgap : deltaH1 <= deltaH2) :
  findSep deltaH2 nu gamma <= findSep deltaH1 nu gamma.
Proof.
  assert (B : forall d, 0 <= findSep d nu gamma).
  { intros d. unfold findSep. destruct (geb d nu); [lra|].
    pose proof (for_loop_bisect_nested d nu gamma 60 (0.001, 0.499)) as N.
    cbn [fst snd] in N. specialize (N ltac:(lra)).
    destruct (for_loop 60 _ _) as [lo hi]. cbn [fst snd] in N. lra. }
  unfold findSep at 1. unfold geb. destruct (Rle_dec nu deltaH2) as [H2|H2]; [apply B|].
  unfold findSep, geb. destruct (Rle_dec nu deltaH1) as [H1|H1]; [lra|].
  pose proof (for_loop_left_of deltaH1 deltaH2 nu gamma 60 Hgap (0.001, 0.499) (0.001, 0.499)) as L.
  cbn [fst snd] in L. specialize (L ltac:(lra) ltac:(lra) (or_introl eq_refl)).
  pose proof (for_loop_bisect_nested deltaH1 nu gamma 60 (0.001, 0.499)) as N1.
  pose proof (for_loop_bisect_nested deltaH2 nu gamma 60 (0.001, 0.499)) as N2.
  cbn [fst snd] in N1, N2.
  specialize (N1 ltac:(lra)). specialize (N2 ltac:(lra)).
  destruct (for_loop 60 (bisect deltaH1 nu gamma) _) as [lo1 hi1].
  destruct (for_loop 60 (bisect deltaH2 nu gamma) _) as [lo2 hi2].
  unfold left_of in L. cbn [fst snd] in *.
  destruct L as [E|L]; [injection E as -> ->; lra|lra].
Qed.

End SeparatrixFacts.

(** ** The KMR chain without mutation *)

Section KmrNoMutation.
Import Int32 Num Prng Stream Kmr KmrInvariants.

Lemma uVal_upper_half (k0 : Z) :
  25 <= k0 <= N -> gtb (uVal k0 false) (uVal k0 true) = false.
Proof.
  intros Hk. unfold gtb. destruct (Rlt_dec (uVal k0 true) (uVal k0 false)) as [H|H]; [exfalso|reflexivity].
  unfold uVal, H1, H2, nu, gamma, N in *.
  assert (Hx : (/ 2 <= IZR k0 / 50 <= 1)%R).
  { destruct Hk as [K1 K2]. apply IZR_le in K1, K2. lra. }
  set (xi := (IZR k0 / 50)%R) in *.
  assert (P : (Math_pow (1 - xi) 1.5 <= Math_pow xi 1.5)%R).
  { destruct (Req_dec (1 - xi) xi) as [E|E].
    - rewrite E. lra.
    - left. apply Math_pow_increasing; lra. }
  lra.
Qed.

Lemma move_no_mutation (eps : R) (k0 s0 : Z) :
  (eps <= 0)%R -> 25 <= k0 <= N ->
  (fst (move eps k0 s0) = k0 \/ (fst (move eps k0 s0) = k0 + 1 /\ k0 < N))
  /\ snd (move eps k0 s0) = next_seed (next_seed s0).
Proof.
  intros Heps Hk. unfold move.
  pose proof (rand_unit s0) as [R0 _].
  pose proof (uVal_upper_half k0 Hk) as U.
  assert (S0 : snd (rand s0) = next_seed s0) by reflexivity.
  destruct (rand s0) as [r0 s1]. cbn [fst snd] in R0, S0. subst s1.
  assert (L0 : ltb r0 eps = false) by (unfold ltb; destruct (Rlt_dec r0 eps); [lra|reflexivity]).
  rewrite !L0.
  assert (S1 : snd (rand (next_seed s0)) = next_seed (next_seed s0)) by reflexivity.
  destruct (rand (next_seed s0)) as [r1 s2]. cbn [snd] in S1. subst s2.
  destruct (ltb r1 (IZR k0 / IZR N)).
  - rewrite U. cbn [andb fst snd]. auto.
  - destruct (gtb (uVal k0 true) (uVal k0 false)); cbn [andb];
      [destruct (Z.ltb_spec k0 N)|]; cbn [fst snd]; auto.
Qed.

Lemma hist_incr_above (h h' : list Z) (k0 : Z) (i : nat) :
  hist_incr h k0 = Some h' -> (Z.of_nat i < k0) -> nth i h' 0 = nth i h 0.
Proof.
  unfold hist_incr. destruct (Z.leb_spec 0 k0); [|discriminate].
  destruct (Z.ltb_spec k0 (Z.of_nat (List.length h))); [|discriminate]. cbn [andb].
  intros [= <-] Hi.
  rewrite app_nth1 by (rewrite length_firstn; lia).
  rewrite nth_firstn. destruct (Nat.ltb_spec i (Z.to_nat k0)); [reflexivity|lia].
Qed.

Lemma hist_incr_length (h h' : list Z) (k0 : Z) :
  hist_incr h k0 = Some h' -> List.length h' = List.length h.
Proof.
  unfold hist_incr. destruct (Z.leb_spec 0 k0); [|discriminate].
  destruct (Z.ltb_spec k0 (Z.of_nat (List.length h))); [|discriminate]. unfold andb.
  intros E'. injection E' as E'. rewrite <- E'. clear E'.
  pose proof (hist_split h (Z.to_nat k0) ltac:(lia)) as E.
  set (i := Z.to_nat k0) in *.
  apply (f_equal (@List.length Z)) in E.
  change (match h with [] => [] | _ :: l => skipn i l end) with (skipn (S i) h).
  rewrite length_app, length_cons in E |- *. lia.
Qed.

Lemma step_no_mutation (eps : R) (b t : Z) (c : chain) :
  (eps <= 0)%R -> upper_half c ->
  exists c', step eps b t c = Some c'
    /\ upper_half c'
    /\ seed c' = next_seed (next_seed (seed c)).
Proof.
  intros Heps (Hk & Hlen & Hlow). unfold step.
  destruct (move_no_mutation eps (k c) (seed c) Heps Hk) as [Hm Hs].
  destruct (move eps (k c) (seed c)) as [k' s'] eqn:Em. cbn [fst snd] in Hm, Hs.
  assert (Hk' : 25 <= k' <= N) by lia.
  destruct (Z.leb_spec b t).
  - destruct (hist_incr (hist c) k') as [h'|] eqn:Eh.
    + eexists. split; [reflexivity|]. split; [|exact Hs].
      unfold upper_half. cbn [k hist]. split; [exact Hk'|]. split.
      * rewrite (hist_incr_length _ _ _ Eh). exact Hlen.
      * intros i Hi. rewrite (hist_incr_above _ _ _ i Eh) by lia. now apply Hlow.
    + exfalso. unfold hist_incr in Eh. rewrite Hlen in Eh. unfold N in *.
      destruct (Z.leb_spec 0 k'); [|lia].
      destruct (Z.ltb_spec k' (Z.of_nat (Z.to_nat (50 + 1)))); [discriminate|lia].
  - eexists. split; [reflexivity|]. split; [|exact Hs].
    unfold upper_half. cbn [k hist]. auto.
Qed.

Lemma loop_no_mutation (eps : R) (b : Z) (n : nat) :
  (eps <= 0)%R ->
  forall t c, upper_half c ->
  exists c', loop eps b n t c = Some c'
    /\ upper_half c'
    /\ seed c' = Nat.iter (2 * n) next_seed (seed c).
Proof.
  intros Heps. induction n as [|n IH]; intros t c Hc.
  - exists c. split; [reflexivity|]. split; [exact Hc|reflexivity].
  - rewrite loop_S. destruct (step_no_mutation eps b t c Heps Hc) as (c1 & -> & Hc1 & Hs1).
    destruct (IH (t + 1) c1 Hc1) as (c' & E & Hc' & Hs').
    exists c'. split; [exact E|]. split; [exact Hc'|].
    rewrite Hs', Hs1. replace (2 * S n)%nat with (S (S (2 * n))) by lia.
    now rewrite !Nat.iter_succ_r.
Qed.

(** X15: without mutation the chain never falls below its starting point:
    for [eps <= 0], [runKMR(eps, T)] returns a histogram whose bins
    [0..24] are empty, and it has drawn exactly two numbers per
    iteration. *)
Theorem runKMR_no_mutation (eps : R) (T s : Z) (Heps : (eps <= 0)%R) :
  exists h s',
    runKMR eps T s = Some (h, s')
    /\ (forall i, (i < 25)%nat -> nth i h 0 = 0)
    /\ s' = snd (draws (2 * Z.to_nat T) initial_seed).
Proof.
  assert (H0 : upper_half (start s)).
  { unfold upper_half. rewrite start_k. unfold start, N. cbn [hist].
    split; [lia|]. split; [apply repeat_length|].
    intros i Hi. apply nth_repeat. }
  destruct (loop_no_mutation eps (burnin_of T) (Z.to_nat T) Heps 0 (start s) H0) as (c & E & (_ & _ & Hlow) & Hs).
  exists (hist c), (seed c). unfold runKMR, after. rewrite E.
  split; [reflexivity|]. split; [exact Hlow|].
  rewrite draws_seed. exact Hs.
Qed.

End KmrNoMutation.

Section KmrDraws.
Import Int32 Num Prng Stream Kmr.

Lemma move_draws (eps : R) (k0 s0 : Z) :
  (snd (move eps k0 s0) = Nat.iter 2 next_seed s0 /\ ~ (1 <= eps)%R)
  \/ (snd (move eps k0 s0) = Nat.iter 3 next_seed s0 /\ ~ (eps <= 0)%R).
Proof.
  unfold move.
  pose proof (rand_unit s0) as [R0 R1].
  assert (S0 : snd (rand s0) = next_seed s0) by reflexivity.
  destruct (rand s0) as [r0 s1]. cbn [fst snd] in R0, R1, S0. subst s1.
  assert (S1 : snd (rand (next_seed s0)) = next_seed (next_seed s0)) by reflexivity.
  destruct (rand (next_seed s0)) as [r1 s2]. cbn [snd] in S1. subst s2.
  assert (S2 : snd (rand (next_seed (next_seed s0))) = next_seed (next_seed (next_seed s0))) by reflexivity.
  destruct (rand (next_seed (next_seed s0))) as [r2 s3]. cbn [snd] in S2. subst s3.
  destruct (Rlt_dec r0 eps) as [Hm|Hb].
  - assert (L0 : ltb r0 eps = true) by (unfold ltb; destruct (Rlt_dec r0 eps); [reflexivity|contradiction]).
    rewrite L0. right. split; [|lra].
    destruct (ltb r2 (IZR k0 / IZR N) && negb (ltb r1 0.5) && (0 <? k0)); [reflexivity|].
    destruct (negb (ltb r2 (IZR k0 / IZR N)) && ltb r1 0.5 && (k0 <? N)); reflexivity.
  - assert (L0 : ltb r0 eps = false) by (unfold ltb; destruct (Rlt_dec r0 eps); [contradiction|reflexivity]).
    rewrite L0. left. split; [|lra].
    destruct (ltb r1 (IZR k0 / IZR N)).
    + destruct (gtb (uVal k0 false) (uVal k0 true) && (0 <? k0)); reflexivity.
    + destruct (gtb (uVal k0 true) (uVal k0 false) && (k0 <? N)); reflexivity.
Qed.

Lemma iter_add {A : Type} (f : A -> A) (m n : nat) (x : A) :
  Nat.iter (m + n) f x = Nat.iter n f (Nat.iter m f x).
Proof.
  revert x. induction m as [|m IH]; intros x; [reflexivity|].
  cbn [Nat.add]. rewrite Nat.iter_succ_r, IH, Nat.iter_succ_r. reflexivity.
Qed.

Lemma loop_draws (eps : R) (b : Z) (n : nat) :
  forall t c, 0 <= t -> chain_ok b t c ->
  exists c' m,
    loop eps b n t c = Some c'
    /\ (2 * n <= m <= 3 * n)%nat
    /\ seed c' = Nat.iter m next_seed (seed c)
    /\ ((eps <= 0)%R -> m = (2 * n)%nat)
    /\ ((1 <= eps)%R -> m = (3 * n)%nat).
Proof.
  induction n as [|n IH]; intros t c Ht Hc.
  - exists c, O. split; [reflexivity|]. split; [lia|]. split; [reflexivity|]. split; intros _; lia.
  - rewrite loop_S. destruct (step_ok eps b t c Ht Hc) as (c1 & -> & Hc1 & Em).
    destruct (IH (t + 1) c1 ltac:(lia) Hc1) as (c' & m & E & Hm & Hs & H2 & H3).
    assert (Es : seed c1 = snd (move eps (k c) (seed c))) by now rewrite <- Em.
    destruct (move_draws eps (k c) (seed c)) as [[Ed Hn]|[Ed Hn]].
    + exists c', (2 + m)%nat. split; [exact E|]. split; [lia|].
      split; [rewrite iter_add, <- Ed, <- Es; exact Hs|].
      split; [intros He; specialize (H2 He); lia|intros He; contradiction].
    + exists c', (3 + m)%nat. split; [exact E|]. split; [lia|].
      split; [rewrite iter_add, <- Ed, <- Es; exact Hs|].
      split; [intros He; contradiction|intros He; specialize (H3 He); lia].
Qed.

(** X16: every iteration of [runKMR] draws two numbers, or three when it
    mutates: [runKMR(eps, T)] leaves the seed that [m] draws from
    [98765] leave, with [2 T <= m <= 3 T]; [m = 2 T] for [eps <= 0] and
    [m = 3 T] for [eps >= 1]. *)
Theorem runKMR_draws (eps : R) (T s : Z) :
  exists h s' m,
    runKMR eps T s = Some (h, s')
    /\ (2 * Z.to_nat T <= m <= 3 * Z.to_nat T)%nat
    /\ s' = snd (draws m initial_seed)
    /\ ((eps <= 0)%R -> m = (2 * Z.to_nat T)%nat)
    /\ ((1 <= eps)%R -> m = (3 * Z.to_nat T)%nat).
Proof.
  destruct (loop_draws eps (burnin_of T) (Z.to_nat T) 0 (start s) ltac:(lia) (start_ok _ s))
    as (c & m & E & Hm & Hs & H2 & H3).
  exists (hist c), (seed c), m. unfold runKMR, after. rewrite E.
  split; [reflexivity|]. split; [exact Hm|]. split; [rewrite draws_seed; exact Hs|].
  split; assumption.
Qed.

End KmrDraws.

(** ** The phase portrait *)

Section Figure3Facts.
Import Num Figure3.
Local Open Scope R_scope.




(** X19: [bary2cart] sends the corners of the simplex to the array
    [corners], and every point of the simplex into the rectangle spanned
    by them, on a canvas at least 130 wide and 140 high. *)
Theorem bary2cart_in_triangle (W CH : R) (x1 x2 x3 : R)
    (HW : 130 <= W) (HCH : 140 <= CH) (Hx : on_simplex (x1, x2, x3)) :
  bary2cart W CH 1 0 0 = nth 0 (corners W CH) (0, 0)
  /\ bary2cart W CH 0 1 0 = nth 1 (corners W CH) (0, 0)
  /\ bary2cart W CH 0 0 1 = nth 2 (corners W CH) (0, 0)
  /\ margin + 10 <= fst (bary2cart W CH x1 x2 x3) <= W - margin - 10
  /\ margin + 10 <= snd (bary2cart W CH x1 x2 x3) <= CH - margin - 20.
Proof.
  destruct Hx as (H1 & H2 & H3 & Hs).
  unfold bary2cart, corner_x, corner_y, corners, margin. cbn [nth fst snd].
  split; [f_equal; lra|]. split; [f_equal; lra|]. split; [f_equal; lra|].
  replace x3 with (1 - x1 - x2) in * by lra. split; split; nra.
Qed.

End Figure3Facts.

(** ** The Zipf sampler, the estimators and the summary statistics *)

Section SearchFacts.
Import Int32 Num Prng Figure7.

Variable cumProbs : list R.

Lemma signed_shift_right_half (x : Z) :
  is_int32 x -> signed_shift_right x 1 = x / 2.
Proof.
  intros Hx. unfold signed_shift_right, to_int32, is_int32 in *.
  rewrite Z.mod_small by lia. replace (x + 2147483648 - 2147483648) with x by lia.
  change (1 mod 32) with 1. rewrite Z.shiftr_div_pow2 by lia. reflexivity.
Qed.

Lemma midpoint_between (lo hi : Z) :
  0 <= lo -> lo < hi -> hi <= 1073741824 ->
  lo <= signed_shift_right (lo + hi) 1 < hi.
Proof.
  intros H0 H1 H2. rewrite signed_shift_right_half by (unfold is_int32; lia).
  pose proof (Z.div_mod (lo + hi) 2 ltac:(lia)). pose proof (Z.mod_pos_bound (lo + hi) 2 ltac:(lia)).
  lia.
Qed.

(** The search ends inside the interval it was given. *)
Lemma search_in_range (u : R) (fuel : nat) :
  forall lo hi,
    0 <= lo -> lo <= hi -> hi <= 1073741824 -> (Z.to_nat (hi - lo) < fuel)%nat ->
    exists idx, search cumProbs fuel u lo hi = Some idx /\ lo <= idx <= hi.
Proof.
  induction fuel as [|fuel IH]; intros lo hi H0 H1 H2 Hf; [lia|].
  cbn [search]. destruct (Z.ltb_spec lo hi) as [Hlt|Hge].
  - pose proof (midpoint_between lo hi H0 Hlt H2) as [M1 M2]. cbv zeta.
    destruct (less_than _ u).
    + destruct (IH (signed_shift_right (lo + hi) 1 + 1) hi) as (idx & E & Hi); try lia.
      exists idx. split; [exact E|lia].
    + destruct (IH lo (signed_shift_right (lo + hi) 1)) as (idx & E & Hi); try lia.
      exists idx. split; [exact E|lia].
  - exists lo. split; [reflexivity|lia].
Qed.

Lemma read_inside (i : Z) :
  0 <= i < Z.of_nat (List.length cumProbs) ->
  read cumProbs i = Some (nth (Z.to_nat i) cumProbs 0%R).
Proof.
  intros Hi. unfold read. destruct (Z.ltb_spec i 0); [lia|].
  apply nth_error_nth'. lia.
Qed.

(** On a nondecreasing array the search returns the first index whose
    entry is not below [u], or [hi] when there is none before it. *)
Lemma search_first (u : R) (fuel : nat) :
  nondecreasing cumProbs ->
  forall lo hi,
    0 <= lo -> lo <= hi -> hi < Z.of_nat (List.length cumProbs) -> hi <= 1073741824 ->
    (Z.to_nat (hi - lo) < fuel)%nat ->
    exists idx,
      search cumProbs fuel u lo hi = Some idx /\ lo <= idx <= hi
      /\ (forall j, lo <= j < idx -> (nth (Z.to_nat j) cumProbs 0 < u)%R)
      /\ (idx < hi -> (u <= nth (Z.to_nat idx) cumProbs 0)%R).
Proof.
  intros Hsorted. induction fuel as [|fuel IH]; intros lo hi H0 H1 Hlen H2 Hf; [lia|].
  cbn [search]. destruct (Z.ltb_spec lo hi) as [Hlt|Hge].
  - pose proof (midpoint_between lo hi H0 Hlt H2) as [M1 M2]. cbv zeta.
    set (mid := signed_shift_right (lo + hi) 1) in *.
    rewrite read_inside by lia. cbn [less_than]. unfold ltb.
    destruct (Rlt_dec (nth (Z.to_nat mid) cumProbs 0%R) u) as [Hlow|Hhigh].
    + destruct (IH (mid + 1) hi) as (idx & E & Hi & Hbelow & Hat); try lia.
      exists idx. split; [exact E|]. split; [lia|]. split; [|exact Hat].
      intros j Hj. destruct (Z_lt_le_dec mid j) as [Hmj|Hjm]; [apply Hbelow; lia|].
      apply Rle_lt_trans with (nth (Z.to_nat mid) cumProbs 0%R); [|exact Hlow].
      apply Hsorted; lia.
    + destruct (IH lo mid) as (idx & E & Hi & Hbelow & Hat); try lia.
      exists idx. split; [exact E|]. split; [lia|]. split; [exact Hbelow|].
      intros _. destruct (Z.eq_dec idx mid) as [->|Hne]; [lra|apply Hat; lia].
  - exists lo. split; [reflexivity|]. split; [lia|]. split; intros; lia.
Qed.

End SearchFacts.

Section SamplerFacts.
Import Int32 Num Prng Stream Entropy Figure7.

Variable F : Z.
Variable cumProbs : list R.

Lemma total_app (a b : list Z) : total (a ++ b) = total a + total b.
Proof. unfold total. induction a as [|x a IH]; cbn [app fold_right]; lia. Qed.

Lemma incr_ok (counts : list Z) (i : Z) :
  0 <= i < Z.of_nat (List.length counts) ->
  Forall (fun c => 0 <= c) counts ->
  total counts < 2147483647 ->
  List.length (incr counts i) = List.length counts
  /\ Forall (fun c => 0 <= c) (incr counts i)
  /\ total (incr counts i) = total counts + 1.
Proof.
  intros Hi Hpos Htot. unfold incr.
  destruct (Z.leb_spec 0 i); [|lia].
  destruct (Z.ltb_spec i (Z.of_nat (List.length counts))); [|lia]. unfold andb.
  pose proof (hist_split counts (Z.to_nat i) ltac:(lia)) as E.
  set (k := Z.to_nat i) in *.
  assert (Hin : In (nth k counts 0) counts) by (apply nth_In; lia).
  assert (Hc : 0 <= nth k counts 0 <= total counts).
  { split; [rewrite Forall_forall in Hpos; now apply Hpos|now apply in_total_le]. }
  assert (Ew : to_int32 (nth k counts 0 + 1) = nth k counts 0 + 1).
  { unfold to_int32. rewrite Z.mod_small by lia. lia. }
  rewrite Ew. split; [|split].
  - apply (f_equal (@List.length Z)) in E.
    rewrite length_app, length_cons in E |- *. lia.
  - rewrite E in Hpos. apply Forall_app in Hpos as [P1 P2].
    apply Forall_app. split; [exact P1|]. inversion P2; subst.
    constructor; [lia|assumption].
  - assert (Et : total counts = total (firstn k counts ++ nth k counts 0 :: skipn (S k) counts))
      by now rewrite <- E.
    rewrite Et, !total_app. unfold total. cbn [fold_right]. lia.
Qed.

Lemma draw_loop_ok (fuel : nat) (n : nat) :
  1 <= F <= 1073741824 -> (Z.to_nat (F - 1) < fuel)%nat ->
  forall counts s,
    List.length counts = Z.to_nat F ->
    Forall (fun c => 0 <= c) counts ->
    total counts + Z.of_nat n < 2147483648 ->
    exists counts',
      draw_loop F cumProbs fuel n counts s = Some (counts', Nat.iter n next_seed s)
      /\ List.length counts' = Z.to_nat F
      /\ Forall (fun c => 0 <= c) counts'
      /\ total counts' = total counts + Z.of_nat n.
Proof.
  intros HF Hfuel. induction n as [|n IH]; intros counts s Hlen Hpos Htot.
  - exists counts. split; [reflexivity|]. split; [exact Hlen|]. split; [exact Hpos|]. cbn. lia.
  - cbn [draw_loop]. unfold rand. cbv zeta.
    destruct (search_in_range cumProbs (IZR (unsigned_shift_right (next_seed s) 0) / 4294967296) fuel 0 (F - 1))
      as (idx & -> & Hidx); try lia.
    destruct (incr_ok counts idx) as (L & P & T); [lia|exact Hpos|lia|].
    destruct (IH (incr counts idx) (next_seed s)) as (counts' & E & L' & P' & T'); [lia|exact P|lia|].
    exists counts'. rewrite Nat.iter_succ_r. split; [exact E|]. split; [exact L'|]. split; [exact P'|]. lia.
Qed.

Lemma total_repeat_zero (m : nat) : total (repeat 0 m) = 0.
Proof. unfold total. induction m as [|m IH]; cbn [repeat fold_right]; lia. Qed.

Lemma sampleZipf_ok (fuel : nat) (n s : Z) :
  1 <= F <= 1073741824 -> (Z.to_nat (F - 1) < fuel)%nat -> 0 <= n < 2147483648 ->
  exists counts,
    sampleZipf F cumProbs fuel n s = Some (counts, snd (draws (Z.to_nat n) s))
    /\ List.length counts = Z.to_nat F
    /\ Forall (fun c => 0 <= c) counts
    /\ total counts = n.
Proof.
  intros HF Hfuel Hn. unfold sampleZipf.
  destruct (draw_loop_ok fuel (Z.to_nat n) HF Hfuel (repeat 0 (Z.to_nat F)) s) as (counts & E & L & P & T).
  - apply repeat_length.
  - apply Forall_forall. intros x Hx. apply repeat_spec in Hx. lia.
  - rewrite total_repeat_zero. lia.
  - exists counts. rewrite draws_seed. split; [exact E|]. split; [exact L|]. split; [exact P|].
    rewrite T, total_repeat_zero. lia.
Qed.

End SamplerFacts.

Section ZipfFacts.
Import Num Figure7.
Local Open Scope R_scope.

Lemma fold_left_plus_map {A : Type} (f : A -> R) (l : list A) (a : R) :
  fold_left (fun z k => z + f k) l a = fold_left Rplus (map f l) a.
Proof. revert a. induction l as [|x l IH]; intros a; cbn [fold_left map]; [reflexivity|apply IH]. Qed.

(** The weights [k^(-alpha)] for [k = 1 .. n]. *)
Lemma weights_positive (n : nat) :
  Forall (fun w => 0 < w) (map (fun k => Math_pow (IZR k) (- alpha)) (map Z.of_nat (seq 1 n))).
Proof.
  apply Forall_forall. intros w Hw. apply in_map_iff in Hw as (k & <- & Hk).
  apply in_map_iff in Hk as (m & <- & Hm). apply in_seq in Hm.
  apply Math_pow_pos. apply IZR_lt. lia.
Qed.

Lemma sum_pos_list (ws : list R) : Forall (fun w => 0 < w) ws -> ws <> [] -> 0 < sum ws.
Proof.
  intros H Hne. destruct H as [|w ws Hw Hws]; [contradiction|].
  rewrite sum_cons.
  assert (0 <= sum ws); [|lra].
  clear Hne Hw. induction Hws as [|v vs Hv _ IH]; [unfold sum; cbn; lra|].
  rewrite sum_cons. lra.
Qed.

Lemma Z_of_sum (F : Z) :
  Z_of F = sum (map (fun k => Math_pow (IZR k) (- alpha)) (map Z.of_nat (seq 1 (Z.to_nat F)))).
Proof. unfold Z_of, sum. apply fold_left_plus_map. Qed.

Lemma Z_of_positive (F : Z) : (1 <= F)%Z -> 0 < Z_of F.
Proof.
  intros HF. rewrite Z_of_sum. apply sum_pos_list; [apply weights_positive|].
  destruct (Z.to_nat F) as [|m] eqn:E; [lia|]. discriminate.
Qed.

Lemma probs_of_weights (F : Z) :
  probs_of F
  = map (fun w => w / Z_of F)
      (map (fun k => Math_pow (IZR k) (- alpha)) (map Z.of_nat (seq 1 (Z.to_nat F)))).
Proof.
  unfold probs_of. rewrite <- seq_shift, !map_map. apply map_ext.
  intros k. do 2 f_equal. f_equal. lia.
Qed.

Lemma probs_of_length (F : Z) : List.length (probs_of F) = Z.to_nat F.
Proof. unfold probs_of. now rewrite !length_map, length_seq. Qed.

Lemma probs_of_positive (F : Z) : (1 <= F)%Z -> Forall (fun p => 0 < p) (probs_of F).
Proof.
  intros HF. rewrite probs_of_weights. apply Forall_forall. intros p Hp.
  apply in_map_iff in Hp as (w & <- & Hw).
  pose proof (weights_positive (Z.to_nat F)) as P. rewrite Forall_forall in P.
  apply Rdiv_lt_0_compat; [now apply P|now apply Z_of_positive].
Qed.

Lemma probs_of_sum (F : Z) : (1 <= F)%Z -> sum (probs_of F) = 1.
Proof.
  intros HF. rewrite probs_of_weights, sum_scaled, <- Z_of_sum.
  pose proof (Z_of_positive F HF). field. lra.
Qed.

Lemma running_length (a : R) (ps : list R) : List.length (running a ps) = List.length ps.
Proof. revert a. induction ps as [|p ps IH]; intros a; cbn [running List.length]; auto. Qed.

Lemma running_nth (ps : list R) :
  forall a j, (j < List.length ps)%nat ->
    nth j (running a ps) 0 = a + sum (firstn (S j) ps).
Proof.
  induction ps as [|p ps IH]; intros a j Hj; cbn [List.length] in Hj; [lia|].
  cbn [running]. destruct j as [|j].
  - cbn [nth firstn]. rewrite sum_cons. unfold sum. cbn. lra.
  - cbn [nth]. rewrite IH by lia.
    change (firstn (S (S j)) (p :: ps)) with (p :: firstn (S j) ps).
    rewrite sum_cons. lra.
Qed.

Lemma cumProbs_of_length (F : Z) : List.length (cumProbs_of F) = Z.to_nat F.
Proof.
  unfold cumProbs_of. rewrite <- probs_of_length.
  destruct (probs_of F) as [|p0 ps]; [reflexivity|].
  cbn [List.length]. now rewrite running_length.
Qed.

(** [cumProbs[j]] is the sum of [probs[0 .. j]]. *)
Lemma cumProbs_of_nth (F : Z) (j : nat) :
  (j < Z.to_nat F)%nat -> nth j (cumProbs_of F) 0 = sum (firstn (S j) (probs_of F)).
Proof.
  rewrite <- probs_of_length. unfold cumProbs_of.
  destruct (probs_of F) as [|p0 ps]; cbn [List.length]; [lia|]. intros Hj.
  destruct j as [|j].
  - cbn [nth firstn]. rewrite sum_cons. unfold sum. cbn. lra.
  - cbn [nth]. rewrite running_nth by lia.
    change (firstn (S (S j)) (p0 :: ps)) with (p0 :: firstn (S j) ps).
    rewrite sum_cons. lra.
Qed.

Lemma sum_firstn_step (ps : list R) (j : nat) :
  (S j < List.length ps)%nat ->
  sum (firstn (S (S j)) ps) = sum (firstn (S j) ps) + nth (S j) ps 0.
Proof.
  revert j. induction ps as [|p ps IH]; intros j Hj; cbn [List.length] in Hj; [lia|].
  change (firstn (S (S j)) (p :: ps)) with (p :: firstn (S j) ps).
  change (nth (S j) (p :: ps) 0) with (nth j ps 0).
  destruct j as [|j].
  - destruct ps as [|q ps]; cbn [List.length] in Hj; [lia|].
    cbn [firstn nth]. rewrite !sum_cons. unfold sum. cbn. lra.
  - change (firstn (S (S j)) (p :: ps)) with (p :: firstn (S j) ps).
    rewrite !sum_cons, IH by lia. lra.
Qed.

Lemma cumProbs_of_increasing (F : Z) (i j : nat) :
  (1 <= F)%Z -> (i < j)%nat -> (j < Z.to_nat F)%nat ->
  nth i (cumProbs_of F) 0 < nth j (cumProbs_of F) 0.
Proof.
  intros HF Hij Hj. induction j as [|j IH]; [lia|].
  assert (Step : nth j (cumProbs_of F) 0 < nth (S j) (cumProbs_of F) 0).
  { rewrite !cumProbs_of_nth by lia.
    rewrite sum_firstn_step by (rewrite probs_of_length; lia).
    pose proof (probs_of_positive F HF) as P. rewrite Forall_forall in P.
    assert (0 < nth (S j) (probs_of F) 0); [|lra].
    apply P, nth_In. rewrite probs_of_length. lia. }
  destruct (Nat.eq_dec i j) as [->|Hne]; [exact Step|].
  apply Rlt_trans with (nth j (cumProbs_of F) 0); [apply IH; lia|exact Step].
Qed.

Lemma cumProbs_of_last (F : Z) :
  (1 <= F)%Z -> nth (Z.to_nat F - 1) (cumProbs_of F) 0 = 1.
Proof.
  intros HF. rewrite cumProbs_of_nth by lia.
  replace (S (Z.to_nat F - 1)) with (List.length (probs_of F)) by (rewrite probs_of_length; lia).
  rewrite firstn_all. now apply probs_of_sum.
Qed.

Lemma cumProbs_of_nondecreasing (F : Z) : (1 <= F)%Z -> nondecreasing (cumProbs_of F).
Proof.
  intros HF i j Hij Hj. rewrite cumProbs_of_length in Hj.
  destruct (Nat.eq_dec i j) as [->|Hne]; [lra|].
  left. apply cumProbs_of_increasing; [exact HF|lia|exact Hj].
Qed.

End ZipfFacts.

Section EstimatorBounds.
Import Num Entropy Figure7.
Local Open Scope R_scope.

Variable n : Z.
Hypothesis Hn : (1 <= n)%Z.

(** A plug-in term is at most [p * ln n]. *)
Lemma plugin_term_bound (c : Z) :
  (0 < c <= n)%Z ->
  - (IZR c / IZR n * Math_log (IZR c / IZR n)) <= IZR c / IZR n * ln (IZR n).
Proof.
  intros [Hc0 Hcn].
  assert (Hnpos : 0 < IZR n) by (apply IZR_lt; lia).
  assert (Hcpos : 1 <= IZR c) by (apply IZR_le; lia).
  assert (Hp : 0 < IZR c / IZR n) by (apply Rdiv_lt_0_compat; lra).
  assert (Hinv : 0 < / IZR n) by now apply Rinv_0_lt_compat.
  unfold Math_log. unfold Rdiv at 2. rewrite ln_mult, ln_Rinv by lra.
  assert (0 <= ln (IZR c)).
  { destruct Hcpos as [Hlt|<-]; [|rewrite ln_1; lra].
    left. rewrite <- ln_1. apply ln_increasing; lra. }
  nra.
Qed.

Lemma pluginH_fold_bound (counts : list Z) :
  Forall (fun c => (0 <= c <= n)%Z) counts ->
  forall a,
  fold_left
    (fun H c =>
       if (c =? 0)%Z then H
       else let p := IZR c / IZR n in H - p * Math_log p)
    counts a
  <= a + IZR (total counts) / IZR n * ln (IZR n).
Proof.
  intros H. induction H as [|c cs Hc _ IH]; intros a; cbn [fold_left].
  - unfold total. cbn [fold_right]. unfold Rdiv. lra.
  - assert (Et : IZR (total (c :: cs)) = IZR c + IZR (total cs)).
    { unfold total. cbn [fold_right]. now rewrite plus_IZR. }
    rewrite Et. destruct (Z.eqb_spec c 0) as [->|Hne].
    + eapply Rle_trans; [apply IH|]. unfold Rdiv. lra.
    + cbv zeta. eapply Rle_trans; [apply IH|].
      pose proof (plugin_term_bound c ltac:(lia)). unfold Rdiv in *. lra.
Qed.

(** X20: the plug-in estimate of a sample of size [n] never exceeds
    [ln n]: for nonnegative integer counts with total [n >= 1],
    [0 <= pluginH(counts, n) <= ln n]. *)
Theorem pluginH_at_most_log_n (counts : list Z)
    (Hcounts : Forall (fun c => (0 <= c)%Z) counts) (Htotal : total counts = n) :
  0 <= pluginH counts n <= ln (IZR n).
Proof.
  pose proof (counts_bounded n Hn counts Hcounts Htotal) as Hb.
  pose proof (folds_ordered n Hn counts Hb 0 0 ltac:(lra)) as [H1 _].
  split; [exact H1|].
  pose proof (pluginH_fold_bound counts Hb 0) as B. rewrite Htotal in B.
  unfold pluginH. assert (0 < IZR n) by (apply IZR_lt; lia).
  replace (0 + IZR n / IZR n * ln (IZR n)) with (ln (IZR n)) in B by (field; lra).
  exact B.
Qed.

End EstimatorBounds.

Section UniformSample.
Import Num Entropy Figure7.
Local Open Scope R_scope.

Lemma pluginH_fold_repeat (c n : Z) (m : nat) (a : R) :
  c <> 0%Z ->
  fold_left
    (fun H c =>
       if (c =? 0)%Z then H
       else let p := IZR c / IZR n in H - p * Math_log p)
    (repeat c m) a
  = a - INR m * (IZR c / IZR n * Math_log (IZR c / IZR n)).
Proof.
  intros Hc. revert a. induction m as [|m IH]; intros a.
  - cbn [repeat fold_left INR]. lra.
  - cbn [repeat fold_left]. destruct (Z.eqb_spec c 0) as [|_]; [contradiction|].
    cbv zeta. rewrite IH, S_INR. lra.
Qed.

(** X21: on a sample spread evenly over [K] bins, [c >= 1] observations
    in each, the plug-in estimate is exactly [ln K]. *)
Theorem pluginH_uniform (c : Z) (K : nat) (Hc : (1 <= c)%Z) (HK : (1 <= K)%nat) :
  pluginH (repeat c K) (c * Z.of_nat K) = ln (INR K).
Proof.
  unfold pluginH. rewrite pluginH_fold_repeat by lia.
  assert (Hcpos : 0 < IZR c) by (apply IZR_lt; lia).
  assert (HKpos : 0 < INR K) by (apply lt_0_INR; lia).
  rewrite mult_IZR, <- INR_IZR_INZ.
  replace (IZR c / (IZR c * INR K)) with (/ INR K) by (field; lra).
  unfold Math_log. rewrite ln_Rinv by lra. field. lra.
Qed.

End UniformSample.

Section StatisticsFacts.
Import Num Figure7.
Local Open Scope R_scope.

Lemma Math_pow_two (x : R) : Math_pow x 2 = x * x.
Proof.
  unfold Math_pow. destruct (Rlt_dec 0 x) as [Hx|Hx].
  - change 2 with (INR 2). rewrite Rpower_pow by assumption. cbn. lra.
  - rewrite (is_integer_IZR 2), (Int_part_IZR 2).
    change (powerRZ x 2) with (x * (x * 1)). lra.
Qed.

Lemma sum_between (arr : list R) (a b : R) :
  Forall (fun v => a <= v <= b) arr ->
  INR (List.length arr) * a <= sum arr <= INR (List.length arr) * b.
Proof.
  intros H. induction H as [|v vs Hv _ IH].
  - unfold sum. cbn. lra.
  - rewrite sum_cons. change (List.length (v :: vs)) with (S (List.length vs)).
    rewrite S_INR. lra.
Qed.

Lemma squares_fold (arr : list R) (m : R) :
  fold_left (fun s v => s + Math_pow (v - m) 2) arr 0
  = sum (map (fun v => (v - m) * (v - m)) arr).
Proof.
  rewrite (fold_left_plus_map (fun v => Math_pow (v - m) 2)). unfold sum. f_equal.
  apply map_ext. intros v. apply Math_pow_two.
Qed.

(** X22: for a nonempty array with every entry in [[a, b]], [mean] lies
    in [[a, b]] and [sd] in [[0, b - a]]; in particular [sd] is [0] on a
    constant array. *)
Theorem mean_sd_bounds (arr : list R) (a b : R)
    (Hne : arr <> []) (Hrange : Forall (fun v => a <= v <= b) arr) :
  a <= mean arr <= b /\ 0 <= sd arr <= b - a.
Proof.
  assert (Hlen : 0 < INR (List.length arr)).
  { apply lt_0_INR. destruct arr; [contradiction|cbn; lia]. }
  pose proof (sum_between arr a b Hrange) as [S1 S2].
  assert (Hm : a <= mean arr <= b).
  { unfold mean. split.
    - apply Rmult_le_reg_r with (INR (List.length arr)); [exact Hlen|].
      unfold Rdiv. rewrite Rmult_assoc, Rinv_l by lra. lra.
    - apply Rmult_le_reg_r with (INR (List.length arr)); [exact Hlen|].
      unfold Rdiv. rewrite Rmult_assoc, Rinv_l by lra. lra. }
  split; [exact Hm|]. unfold sd. cbv zeta. split; [apply sqrt_pos|].
  rewrite squares_fold.
  assert (Hab : 0 <= b - a) by lra.
  apply Rle_trans with (sqrt ((b - a) * (b - a))); [|rewrite sqrt_square by exact Hab; lra].
  apply sqrt_le_1_alt.
  assert (Hsq : Forall (fun w => 0 <= w <= (b - a) * (b - a))
                  (map (fun v => (v - mean arr) * (v - mean arr)) arr)).
  { apply Forall_forall. intros w Hw. apply in_map_iff in Hw as (v & <- & Hv).
    rewrite Forall_forall in Hrange. specialize (Hrange v Hv).
    set (d := v - mean arr). assert (Hd : - (b - a) <= d <= b - a) by (unfold d; lra).
    split; [nra|].
    pose proof (Rmult_le_pos (b - a - d) (b - a + d) ltac:(lra) ltac:(lra)). nra. }
  pose proof (sum_between _ 0 ((b - a) * (b - a)) Hsq) as [_ Q].
  rewrite length_map in Q.
  apply Rmult_le_reg_r with (INR (List.length arr)); [exact Hlen|].
  unfold Rdiv. rewrite Rmult_assoc, Rinv_l by lra. lra.
Qed.

End StatisticsFacts.

Section Figure7Facts.
Import Int32 Num Prng Stream Entropy Figure7.
Local Open Scope R_scope.

(** X23: the Zipf table of figure 7 is a probability distribution with
    its cumulative sums: 500 positive [probs] adding up to 1, and 500
    strictly increasing [cumProbs] ending at 1 (with the arithmetic read
    as exact). *)
Theorem zipf_distribution :
  List.length probs = 500%nat
  /\ Forall (fun p => 0 < p) probs
  /\ sum probs = 1
  /\ List.length cumProbs = 500%nat
  /\ (forall i j : nat, (i < j)%nat -> (j < 500)%nat -> nth i cumProbs 0 < nth j cumProbs 0)
  /\ nth 499 cumProbs 0 = 1.
Proof.
  unfold probs, cumProbs.
  split; [apply (probs_of_length F)|].
  split; [apply probs_of_positive; unfold F; lia|].
  split; [apply probs_of_sum; unfold F; lia|].
  split; [apply (cumProbs_of_length F)|].
  split.
  - intros i j Hij Hj. apply cumProbs_of_increasing; [unfold F; lia|exact Hij|exact Hj].
  - apply (cumProbs_of_last F). unfold F. lia.
Qed.

(** X24: the search of [sampleZipf] inverts the cumulative distribution:
    for a draw [u] in [[0, 1)] it ends, and the index it returns is the
    first [k] with [u <= cumProbs[k]]. *)
Theorem sampleZipf_inverse_cdf (u : R) (fuel : nat)
    (Hu : 0 <= u < 1) (Hfuel : (499 < fuel)%nat) :
  exists idx : Z,
    search cumProbs fuel u 0 (F - 1) = Some idx
    /\ (0 <= idx <= 499)%Z
    /\ (forall j : Z, (0 <= j < idx)%Z -> nth (Z.to_nat j) cumProbs 0 < u)
    /\ u <= nth (Z.to_nat idx) cumProbs 0.
Proof.
  destruct (search_first cumProbs u fuel (cumProbs_of_nondecreasing F ltac:(unfold F; lia)) 0 (F - 1))
    as (idx & E & Hi & Hbelow & Hat).
  - lia.
  - unfold F. lia.
  - unfold cumProbs. rewrite cumProbs_of_length. unfold F. lia.
  - unfold F. lia.
  - unfold F. change (Z.to_nat (500 - 1 - 0)) with 499%nat. exact Hfuel.
  - exists idx. unfold F in Hi, Hat. split; [exact E|]. split; [lia|]. split; [exact Hbelow|].
    destruct (Z.eq_dec idx 499) as [->|Hne].
    + change (Z.to_nat 499) with 499%nat.
      pose proof (cumProbs_of_last F ltac:(unfold F; lia)) as Hlast.
      change (Z.to_nat F - 1)%nat with 499%nat in Hlast. fold cumProbs in Hlast. lra.
    + apply Hat. lia.
Qed.

(** X25: [sampleZipf(n)] ends and returns 500 nonnegative counts that add
    up to [n], after exactly [n] draws, for every [n] between 0 and
    [2^31 - 1] and whatever the array [cumProbs] holds. *)
Theorem sampleZipf_counts (table : list R) (fuel : nat) (n s : Z)
    (Hfuel : (499 < fuel)%nat) (Hn : (0 <= n < 2147483648)%Z) :
  exists counts,
    sampleZipf F table fuel n s = Some (counts, snd (draws (Z.to_nat n) s))
    /\ List.length counts = 500%nat
    /\ Forall (fun c => (0 <= c)%Z) counts
    /\ total counts = n.
Proof.
  apply (sampleZipf_ok F table fuel n s); [unfold F; lia| |exact Hn].
  unfold F. change (Z.to_nat (500 - 1)) with 499%nat. exact Hfuel.
Qed.

(** X26: the two estimates of every sample of figure 7 are ordered: for
    [1 <= n < 2^31], on the counts that [sampleZipf(n)] returns,
    [0 <= pluginH <= chaoShenH] and [pluginH <= ln n]. *)
Theorem sample_estimates_ordered (fuel : nat) (n s : Z)
    (Hfuel : (499 < fuel)%nat) (Hn : (1 <= n < 2147483648)%Z) :
  exists counts s',
    sampleZipf F cumProbs fuel n s = Some (counts, s')
    /\ 0 <= pluginH counts n <= chaoShenH counts n
    /\ pluginH counts n <= ln (IZR n).
Proof.
  destruct (sampleZipf_ok F cumProbs fuel n s) as (counts & E & _ & Hpos & Htot).
  - unfold F. lia.
  - unfold F. change (Z.to_nat (500 - 1)) with 499%nat. exact Hfuel.
  - lia.
  - exists counts, (snd (draws (Z.to_nat n) s)). split; [exact E|].
    pose proof (counts_bounded n ltac:(lia) counts Hpos Htot) as Hb.
    pose proof (folds_ordered n ltac:(lia) counts Hb 0 0 ltac:(lra)) as [H1 H2].
    pose proof (pluginH_fold_bound n ltac:(lia) counts Hb 0) as B. rewrite Htot in B.
    assert (0 < IZR n) by (apply IZR_lt; lia).
    replace (0 + IZR n / IZR n * ln (IZR n)) with (ln (IZR n)) in B by (field; lra).
    unfold pluginH, chaoShenH. split; [split; [exact H1|exact H2]|exact B].
Qed.

End Figure7Facts.

(** ** The welfare gap, the histogram bars and the random start *)

Section Figure8Facts.
Import Figure8.
Local Open Scope R_scope.

Lemma Hne_one : Hne = 1.
Proof.
  unfold Hne, rT, k. replace (4 / (4 * 1)) with 1 by lra. apply sqrt_1.
Qed.

Lemma root_facts (c : R) :
  0 < sqrt (c * c + 16) /\ sqrt (c * c + 16) * sqrt (c * c + 16) = c * c + 16
  /\ - sqrt (c * c + 16) < c < sqrt (c * c + 16).
Proof.
  assert (H : 0 < c * c + 16) by nra.
  pose proof (sqrt_lt_R0 _ H) as S0. pose proof (sqrt_sqrt _ (Rlt_le _ _ H)) as S2.
  split; [exact S0|]. split; [exact S2|]. split; nra.
Qed.

(** X27: [Hso(nu, gamma)] is the positive root of the social-optimum
    equation [4 k H^2 - 2 c H - rT = 0] with [c = 1 + nu (gamma - 1) / 2];
    the other root is negative, and [Hne] is [1]. *)
Theorem Hso_positive_root (nu gamma : R) :
  4 * k * (Hso nu gamma * Hso nu gamma) - 2 * c_of nu gamma * Hso nu gamma - rT = 0
  /\ 0 < Hso nu gamma
  /\ (forall h, 4 * k * (h * h) - 2 * c_of nu gamma * h - rT = 0 -> h = Hso nu gamma \/ h < 0)
  /\ Hne = 1.
Proof.
  unfold Hso, k, rT. cbv zeta. set (c := c_of nu gamma).
  replace (4 * 1 * 4) with 16 by lra.
  destruct (root_facts c) as (S0 & S2 & S3 & S4). set (s := sqrt (c * c + 16)) in *.
  split; [|split; [|split; [|apply Hne_one]]].
  - field_simplify. nra.
  - apply Rdiv_lt_0_compat; lra.
  - intros h Hh.
    assert (E : (4 * h - (c + s)) * (4 * h - (c - s)) = 0) by nra.
    apply Rmult_integral in E as [E|E]; [left; lra|right; lra].
Qed.

Lemma Hso_increasing_in_c (c1 c2 : R) :
  c1 <= c2 -> c1 + sqrt (c1 * c1 + 16) <= c2 + sqrt (c2 * c2 + 16).
Proof.
  intros Hc.
  destruct (root_facts c1) as (A0 & A2 & A3 & A4).
  destruct (root_facts c2) as (B0 & B2 & B3 & B4).
  set (s1 := sqrt (c1 * c1 + 16)) in *. set (s2 := sqrt (c2 * c2 + 16)) in *.
  destruct (Rle_lt_dec (c1 + s1) (c2 + s2)) as [|Hlt]; [assumption|exfalso].
  assert (E : (s1 - s2) * (s1 + s2) = (c2 - c1) * (- (c1 + c2))) by nra.
  assert (H1 : 0 < s1 - s2) by lra.
  assert (H2 : (c2 - c1) * (- (c1 + c2)) <= (c2 - c1) * (s1 + s2)) by (apply Rmult_le_compat_l; lra).
  assert (H3 : (s1 - s2) * (s1 + s2) <= (c2 - c1) * (s1 + s2)) by lra.
  assert (H4 : s1 - s2 <= c2 - c1).
  { apply Rmult_le_reg_r with (s1 + s2); lra. }
  lra.
Qed.

(** X28: the welfare ratio [Hso / Hne] plotted in figure 8 is at least 1
    and does not decrease in [gamma]: for [nu >= 0] and
    [1 <= gamma1 <= gamma2], [1 <= Hso(nu, gamma1) / Hne <=
    Hso(nu, gamma2) / Hne]. *)
Theorem Hso_ratio (nu gamma1 gamma2 : R)
    (Hnu : 0 <= nu) (Hgamma : 1 <= gamma1 <= gamma2) :
  1 <= Hso nu gamma1 / Hne <= Hso nu gamma2 / Hne.
Proof.
  rewrite Hne_one. unfold Hso, k, rT. cbv zeta.
  replace (4 * 1 * 4) with 16 by lra.
  assert (C1 : 1 <= c_of nu gamma1) by (unfold c_of; nra).
  assert (C2 : c_of nu gamma1 <= c_of nu gamma2) by (unfold c_of; nra).
  pose proof (Hso_increasing_in_c _ _ C2) as M.
  destruct (root_facts (c_of nu gamma1)) as (S0 & S2 & S3 & S4).
  assert (4 <= sqrt (c_of nu gamma1 * c_of nu gamma1 + 16)).
  { destruct (Rle_lt_dec 4 (sqrt (c_of nu gamma1 * c_of nu gamma1 + 16))); [assumption|nra]. }
  lra.
Qed.

End Figure8Facts.

Section Figure1Facts.
Import Num Prng Kmr Figure1.
Local Open Scope R_scope.

Lemma total_of_shift (h : list Z) (a : Z) : fold_left Z.add h a = (a + hist_total h)%Z.
Proof.
  unfold hist_total. revert a. induction h as [|x h IH]; intros a; cbn [fold_left fold_right]; [lia|].
  rewrite IH. lia.
Qed.

Lemma sum_map_IZR (h : list Z) : sum (map IZR h) = IZR (hist_total h).
Proof.
  unfold hist_total. induction h as [|x h IH]; cbn [map fold_right].
  - unfold sum. cbn. reflexivity.
  - rewrite sum_cons, IH, plus_IZR. reflexivity.
Qed.

(** X29: the bars of figure 1 form a probability vector: for every [eps]
    and every integer [T >= 1], the histogram that [runKMR(eps, T)]
    returns has a positive total, and dividing by it gives 51 numbers in
    [[0, 1]] that add up to 1 (with the division read as exact). *)
Theorem histogram_bars (eps : R) (T s : Z) (HT : (1 <= T)%Z) :
  exists h s',
    runKMR eps T s = Some (h, s')
    /\ (0 < total_of h)%Z
    /\ List.length (probs_of h) = 51%nat
    /\ Forall (fun p => 0 <= p <= 1) (probs_of h)
    /\ sum (probs_of h) = 1.
Proof.
  destruct (after_ok eps T s (Z.to_nat T)) as (c & E & (_ & Hlen & Hpos & Htot)).
  exists (hist c), (seed c). unfold runKMR. rewrite E. split; [reflexivity|].
  assert (Ht : total_of (hist c) = hist_total (hist c)).
  { unfold total_of. rewrite total_of_shift. lia. }
  assert (Hb : (burnin_of T = T / 4)%Z) by apply burnin_quarter.
  assert (Hq : (0 < hist_total (hist c))%Z).
  { rewrite Htot, Hb. pose proof (Z.div_mod T 4 ltac:(lia)). pose proof (Z.mod_pos_bound T 4 ltac:(lia)). lia. }
  assert (HR : 0 < IZR (hist_total (hist c))) by now apply IZR_lt.
  split; [lia|]. unfold probs_of. rewrite Ht. split; [rewrite length_map; exact Hlen|]. split.
  - apply Forall_forall. intros p Hp. apply in_map_iff in Hp as (x & <- & Hx).
    assert (Hx0 : (0 <= x)%Z) by (rewrite Forall_forall in Hpos; now apply Hpos).
    assert (Hx1 : (x <= hist_total (hist c))%Z) by (apply (in_total_le (hist c) x Hpos Hx)).
    apply IZR_le in Hx0, Hx1. split.
    + apply Rmult_le_pos; [lra|]. left. now apply Rinv_0_lt_compat.
    + apply Rmult_le_reg_r with (IZR (hist_total (hist c))); [exact HR|].
      unfold Rdiv. rewrite Rmult_assoc, Rinv_l by lra. lra.
  - rewrite <- (map_map IZR (fun v => v / IZR (hist_total (hist c)))).
    rewrite sum_scaled, sum_map_IZR. field. lra.
Qed.

End Figure1Facts.

Section Figure6Facts.
Import Int32 Num Prng Stream Figure6.
Local Open Scope R_scope.

Lemma rand_value (s : Z) : fst (rand s) = IZR (to_uint32 (next_seed s)) / 4294967296.
Proof. unfold rand. cbn [fst]. now rewrite unsigned_shift_right_zero. Qed.

(** Two successive draws are not both zero. *)
Lemma two_draws_positive (s : Z) : 0 < fst (rand s) + fst (rand (next_seed s)).
Proof.
  pose proof (rand_unit s) as [A _]. pose proof (rand_unit (next_seed s)) as [B _].
  destruct A as [A|A]; [lra|]. destruct B as [B|B]; [lra|exfalso].
  rewrite rand_value in A, B.
  assert (A' : to_uint32 (next_seed s) = 0%Z).
  { apply eq_IZR. unfold Rdiv in A. nra. }
  assert (B' : to_uint32 (next_seed (next_seed s)) = 0%Z).
  { apply eq_IZR. unfold Rdiv in B. nra. }
  rewrite next_seed_unsigned in B'.
  assert (Z0 : next_seed s = 0%Z).
  { apply to_int32_eq; [apply next_seed_int32|unfold is_int32; lia|]. rewrite A'. reflexivity. }
  rewrite Z0 in B'. discriminate B'.
Qed.

Lemma draws_nonneg (n : nat) (s : Z) : Forall (fun r => 0 <= r < 1) (fst (draws n s)).
Proof.
  revert s. induction n as [|n IH]; intros s; [constructor|].
  rewrite draws_succ. cbn [fst]. constructor; [apply rand_unit|apply IH].
Qed.

Lemma draws_sum_positive (n : nat) (s : Z) : (2 <= n)%nat -> 0 < sum (fst (draws n s)).
Proof.
  intros Hn. destruct n as [|[|n]]; try lia.
  rewrite !draws_succ. cbn [fst]. rewrite !sum_cons.
  pose proof (two_draws_positive s).
  assert (0 <= sum (fst (draws n (next_seed (next_seed s))))).
  { apply (sum_floor _ 0); [lra|].
    eapply Forall_impl; [|apply draws_nonneg]. intros r Hr. cbv beta in Hr. lra. }
  lra.
Qed.

(** X30: the random start of every trial of figure 6 is a point of the
    simplex: for [n >= 2] platforms the sum of the [n] draws is positive,
    and dividing by it gives [n] numbers in [[0, 1]] that add up to 1
    (with the division read as exact); [n] numbers are drawn. *)
Theorem initX_on_simplex (n : nat) (s : Z) (Hn : (2 <= n)%nat) :
  0 < sum (fst (draws n s))
  /\ List.length (fst (initX n s)) = n
  /\ Forall (fun v => 0 <= v <= 1) (fst (initX n s))
  /\ sum (fst (initX n s)) = 1
  /\ snd (initX n s) = snd (draws n s).
Proof.
  pose proof (draws_sum_positive n s Hn) as Hs.
  pose proof (draws_nonneg n s) as Hr. pose proof (draws_length n s) as Hl.
  unfold initX. destruct (draws n s) as [rs s']. cbn [fst snd] in *. cbv zeta.
  split; [exact Hs|]. split; [now rewrite length_map|]. split; [|split; [|reflexivity]].
  - apply Forall_forall. intros v Hv. apply in_map_iff in Hv as (r & <- & Hin).
    assert (Hr0 : 0 <= r) by (rewrite Forall_forall in Hr; apply (Hr r Hin)).
    assert (Hle : r <= sum rs).
    { clear - Hin Hr. induction Hr as [|x xs Hx Hxs IH]; [contradiction|].
      rewrite sum_cons.
      assert (0 <= sum xs).
      { apply (sum_floor _ 0); [lra|]. eapply Forall_impl; [|exact Hxs]. intros y Hy. cbv beta in Hy. lra. }
      destruct Hin as [<-|Hin]; [lra|]. specialize (IH Hin). lra. }
    split.
    + apply Rmult_le_pos; [lra|]. left. now apply Rinv_0_lt_compat.
    + apply Rmult_le_reg_r with (sum rs); [exact Hs|].
      unfold Rdiv. rewrite Rmult_assoc, Rinv_l by lra. lra.
  - rewrite sum_scaled. field. lra.
Qed.

End Figure6Facts.

(** ** The further properties on concrete inputs *)

Section FurtherWitnesses.
Local Open Scope R_scope.

Lemma rand_full_period_witness :
  Int32.is_int32 98765
  /\ (snd (Stream.draws 1 98765) = 98765%Z <-> (Z.of_nat 1 mod 2 ^ 32 = 0)%Z).
Proof.
  assert (H : Int32.is_int32 98765) by (unfold Int32.is_int32; lia).
  split; [exact H|]. exact (rand_full_period 98765 1 H).
Defined.

Lemma next_seed_permutation_witness :
  Int32.is_int32 98765
  /\ exists s,
       Int32.is_int32 s /\ Prng.next_seed s = 98765%Z
       /\ forall s', Int32.is_int32 s' -> Prng.next_seed s' = 98765%Z -> s' = s.
Proof.
  assert (H : Int32.is_int32 98765) by (unfold Int32.is_int32; lia).
  split; [exact H|]. exact (next_seed_permutation 98765 H).
Defined.

Lemma replicatorWinner9_zero_step_witness :
  0 <= 0
  /\ exists n : nat, forall fuel, (n < fuel)%nat ->
       Figure9.replicatorWinner fuel 0.4 0.5 1 1.5 None (Some 0) = Some 1%Z
       \/ Figure9.replicatorWinner fuel 0.4 0.5 1 1.5 None (Some 0) = Some 2%Z.
Proof.
  assert (H : 0 <= 0) by lra.
  split; [exact H|]. exact (replicatorWinner9_zero_step 0.4 0.5 1 1.5 None (Some 0) H).
Defined.

Lemma replicatorWinner_leader_wins_witness :
  (0 <= 1 /\ 0 < 1.5 /\ True)
  /\ exists n : nat, forall fuel, (n < fuel)%nat ->
       (/ 2 < 0.6 <= 1 -> 0 <= 0.5 ->
          Figure2.replicatorWinner fuel 0.6 0.5 1 1.5 None None = Some 1%Z
          /\ Figure9.replicatorWinner fuel 0.6 0.5 1 1.5 None None = Some 1%Z)
       /\ (0 <= 0.6 <= / 2 -> 0.5 <= 0 ->
          Figure2.replicatorWinner fuel 0.6 0.5 1 1.5 None None = Some 2%Z
          /\ Figure9.replicatorWinner fuel 0.6 0.5 1 1.5 None None = Some 2%Z).
Proof.
  assert (H1 : 0 <= 1) by lra. assert (H2 : 0 < 1.5) by lra.
  split; [split; [exact H1|split; [exact H2|exact I]]|].
  exact (replicatorWinner_leader_wins 0.6 0.5 1 1.5 None None H1 H2 I).
Defined.

Lemma simulate_monotone_witness :
  (0 <= 1 /\ 0 < 1.5 /\ True)
  /\ (/ 2 < 0.4 <= 0.9999 -> 0 <= 0 ->
        forall i, (S i < List.length (Figure10.simulate 0.4 0 1 1.5 None None))%nat ->
          nth i (Figure10.simulate 0.4 0 1 1.5 None None) 0
          <= nth (S i) (Figure10.simulate 0.4 0 1 1.5 None None) 0)
  /\ (0.0001 <= 0.4 <= / 2 -> 0 <= 0 ->
        forall i, (S i < List.length (Figure10.simulate 0.4 0 1 1.5 None None))%nat ->
          nth (S i) (Figure10.simulate 0.4 0 1 1.5 None None) 0
          <= nth i (Figure10.simulate 0.4 0 1 1.5 None None) 0).
Proof.
  assert (H1 : 0 <= 1) by lra. assert (H2 : 0 < 1.5) by lra.
  split; [split; [exact H1|split; [exact H2|exact I]]|].
  exact (simulate_monotone 0.4 0 1 1.5 None None H1 H2 I).
Defined.

Lemma findSep_copies_agree_witness :
  0 < 1
  /\ Rabs (Figure10.findSep 0.5 1 1.5 - Basin.findSep (0.5 * 1) 1 1.5) <= (0.499 - 0.001) / 2 ^ 61.
Proof.
  assert (H : 0 < 1) by lra.
  split; [exact H|]. exact (findSep_copies_agree 0.5 1 1.5 H).
Defined.

Lemma findSep_antitone_witness :
  0.2 <= 0.8 /\ Basin.findSep 0.8 1 1.5 <= Basin.findSep 0.2 1 1.5.
Proof.
  assert (H : 0.2 <= 0.8) by lra.
  split; [exact H|]. exact (findSep_antitone 0.2 0.8 1 1.5 H).
Defined.

Lemma runKMR_no_mutation_witness :
  0 <= 0
  /\ exists h s',
       Kmr.runKMR 0 300000 98765 = Some (h, s')
       /\ (forall i, (i < 25)%nat -> nth i h 0%Z = 0%Z)
       /\ s' = snd (Stream.draws (2 * Z.to_nat 300000) Prng.initial_seed).
Proof.
  assert (H : 0 <= 0) by lra.
  split; [exact H|]. exact (runKMR_no_mutation 0 300000 98765 H).
Defined.

Lemma bary2cart_in_triangle_witness :
  (130 <= 600 /\ 140 <= 500 /\ Figure3.on_simplex (0.2, 0.3, 0.5))
  /\ Figure3.bary2cart 600 500 1 0 0 = nth 0 (Figure3.corners 600 500) (0, 0)
  /\ Figure3.bary2cart 600 500 0 1 0 = nth 1 (Figure3.corners 600 500) (0, 0)
  /\ Figure3.bary2cart 600 500 0 0 1 = nth 2 (Figure3.corners 600 500) (0, 0)
  /\ Figure3.margin + 10 <= fst (Figure3.bary2cart 600 500 0.2 0.3 0.5) <= 600 - Figure3.margin - 10
  /\ Figure3.margin + 10 <= snd (Figure3.bary2cart 600 500 0.2 0.3 0.5) <= 500 - Figure3.margin - 20.
Proof.
  assert (H1 : 130 <= 600) by lra. assert (H2 : 140 <= 500) by lra.
  assert (H3 : Figure3.on_simplex (0.2, 0.3, 0.5)) by (unfold Figure3.on_simplex; lra).
  split; [split; [exact H1|split; [exact H2|exact H3]]|].
  exact (bary2cart_in_triangle 600 500 0.2 0.3 0.5 H1 H2 H3).
Defined.

Lemma sampleZipf_inverse_cdf_witness :
  (0 <= 0.5 < 1 /\ (499 < 500)%nat)
  /\ exists idx : Z,
       Figure7.search Figure7.cumProbs 500 0.5 0 (Figure7.F - 1) = Some idx
       /\ (0 <= idx <= 499)%Z
       /\ (forall j : Z, (0 <= j < idx)%Z -> nth (Z.to_nat j) Figure7.cumProbs 0 < 0.5)
       /\ 0.5 <= nth (Z.to_nat idx) Figure7.cumProbs 0.
Proof.
  assert (H1 : 0 <= 0.5 < 1) by lra. assert (H2 : (499 < 500)%nat) by lia.
  split; [split; [exact H1|exact H2]|].
  exact (sampleZipf_inverse_cdf 0.5 500 H1 H2).
Defined.

Lemma sampleZipf_counts_witness :
  ((499 < 500)%nat /\ (0 <= 40 < 2147483648)%Z)
  /\ exists counts,
       Figure7.sampleZipf Figure7.F Figure7.cumProbs 500 40 98765
       = Some (counts, snd (Stream.draws (Z.to_nat 40) 98765))
       /\ List.length counts = 500%nat
       /\ Forall (fun c => (0 <= c)%Z) counts
       /\ Entropy.total counts = 40%Z.
Proof.
  assert (H1 : (499 < 500)%nat) by lia. assert (H2 : (0 <= 40 < 2147483648)%Z) by lia.
  split; [split; [exact H1|exact H2]|].
  exact (sampleZipf_counts Figure7.cumProbs 500 40 98765 H1 H2).
Defined.

Lemma sample_estimates_ordered_witness :
  ((499 < 500)%nat /\ (1 <= 40 < 2147483648)%Z)
  /\ exists counts s',
       Figure7.sampleZipf Figure7.F Figure7.cumProbs 500 40 98765 = Some (counts, s')
       /\ 0 <= Entropy.pluginH counts 40 <= Entropy.chaoShenH counts 40
       /\ Entropy.pluginH counts 40 <= ln (IZR 40).
Proof.
  assert (H1 : (499 < 500)%nat) by lia. assert (H2 : (1 <= 40 < 2147483648)%Z) by lia.
  split; [split; [exact H1|exact H2]|].
  exact (sample_estimates_ordered 500 40 98765 H1 H2).
Defined.

Lemma pluginH_at_most_log_n_witness :
  ((1 <= 4)%Z /\ Forall (fun c => (0 <= c)%Z) [2; 1; 1]%Z /\ Entropy.total [2; 1; 1]%Z = 4%Z)
  /\ 0 <= Entropy.pluginH [2; 1; 1]%Z 4 <= ln (IZR 4).
Proof.
  assert (H1 : (1 <= 4)%Z) by lia.
  assert (H2 : Forall (fun c => (0 <= c)%Z) [2; 1; 1]%Z) by (repeat constructor; lia).
  assert (H3 : Entropy.total [2; 1; 1]%Z = 4%Z) by reflexivity.
  split; [split; [exact H1|split; [exact H2|exact H3]]|].
  exact (pluginH_at_most_log_n 4 H1 [2; 1; 1]%Z H2 H3).
Defined.

Lemma pluginH_uniform_witness :
  ((1 <= 3)%Z /\ (1 <= 4)%nat)
  /\ Entropy.pluginH (repeat 3%Z 4) (3 * Z.of_nat 4) = ln (INR 4).
Proof.
  assert (H1 : (1 <= 3)%Z) by lia. assert (H2 : (1 <= 4)%nat) by lia.
  split; [split; [exact H1|exact H2]|].
  exact (pluginH_uniform 3 4 H1 H2).
Defined.

Lemma mean_sd_bounds_witness :
  ([1; 2; 3] <> [] /\ Forall (fun v => 1 <= v <= 3) [1; 2; 3])
  /\ 1 <= Figure7.mean [1; 2; 3] <= 3
  /\ 0 <= Figure7.sd [1; 2; 3] <= 3 - 1.
Proof.
  assert (H1 : [1; 2; 3] <> ([] : list R)) by discriminate.
  assert (H2 : Forall (fun v => 1 <= v <= 3) [1; 2; 3]) by (repeat constructor; lra).
  split; [split; [exact H1|exact H2]|].
  exact (mean_sd_bounds [1; 2; 3] 1 3 H1 H2).
Defined.

Lemma Hso_ratio_witness :
  (0 <= 1 /\ 1 <= 1.5 <= 3)
  /\ 1 <= Figure8.Hso 1 1.5 / Figure8.Hne <= Figure8.Hso 1 3 / Figure8.Hne.
Proof.
  assert (H1 : 0 <= 1) by lra. assert (H2 : 1 <= 1.5 <= 3) by lra.
  split; [split; [exact H1|exact H2]|].
  exact (Hso_ratio 1 1.5 3 H1 H2).
Defined.

Lemma histogram_bars_witness :
  (1 <= 300000)%Z
  /\ exists h s',
       Kmr.runKMR 0.15 300000 98765 = Some (h, s')
       /\ (0 < Figure1.total_of h)%Z
       /\ List.length (Figure1.probs_of h) = 51%nat
       /\ Forall (fun p => 0 <= p <= 1) (Figure1.probs_of h)
       /\ Num.sum (Figure1.probs_of h) = 1.
Proof.
  assert (H : (1 <= 300000)%Z) by lia.
  split; [exact H|]. exact (histogram_bars 0.15 300000 98765 H).
Defined.

Lemma initX_on_simplex_witness :
  (2 <= 5)%nat
  /\ 0 < Num.sum (fst (Stream.draws 5 98765))
  /\ List.length (fst (Figure6.initX 5 98765)) = 5%nat
  /\ Forall (fun v => 0 <= v <= 1) (fst (Figure6.initX 5 98765))
  /\ Num.sum (fst (Figure6.initX 5 98765)) = 1
  /\ snd (Figure6.initX 5 98765) = snd (Stream.draws 5 98765).
Proof.
  assert (H : (2 <= 5)%nat) by lia.
  split; [exact H|]. exact (initX_on_simplex 5 98765 H).
Defined.

End FurtherWitnesses.
